(** * FT8 forward-error-correction core: LDPC (174,91) decoders, CRC-14,
      GF(2) Gauss-Jordan

    Shallow embedding of [libldpc] (namespace FT8): [ldpc_check],
    [ldpc_decode], [fast_tanh], [ldpc_decode_log], [ft8_crc] and
    [gauss_jordan].

    Conventions.
    - C [int] values (bits, scores, table entries, [iters]) are [Z]; loop
      counters are [nat] and loops are folds over [iota].
    - C arrays are [seq]; [a[i]] is [nth] and [a[i] = v] is [set_nth].  The
      source never checks an index: an access outside the array is undefined
      behaviour in C, and is whatever [nth]/[set_nth] give here.
    - [#define REAL float] (the source comments "float, long float,
      __float128"): the number type and its operations are the interface
      [RealArith].  One number type stands for [REAL], [float] and the
      [double]-typed literals and intermediate results.  Two instances are
      given: IEEE 754 binary32, which is [float], and exact rationals.
    - The two decoders are given twice: as functions of their input arrays,
      and over a memory of numbered cells in which every array access is a
      load or a store at a computed address.
    - The parity tables [Nm] (83 x 7) and [Mn] (174 x 3) live in [arrays.h];
      they are parameters of the development.
    - Every division and every call to [log] is recorded in a trace next to
      the value it produces, so that where they are executed, and on which
      operands, can be stated. *)

From mathcomp Require Import ssreflect ssrfun ssrbool eqtype ssrnat div seq.
From mathcomp Require Import choice fintype bigop ssralg zmodp matrix.
From mathcomp Require Import poly polydiv.
From Stdlib Require Import ZArith Lia QArith Lqa SpecFloat.

Set Implicit Arguments.
Unset Strict Implicit.
Unset Printing Implicit Defensive.

Close Scope Q_scope.

(** ** The number interface behind [REAL] *)

Class RealArith := {
  REAL : Type;
  rlit : Q -> REAL;                 (* a decimal literal of the source *)
  radd : REAL -> REAL -> REAL;
  rsub : REAL -> REAL -> REAL;
  rmul : REAL -> REAL -> REAL;
  rdiv : REAL -> REAL -> REAL;
  rexp : REAL -> REAL;              (* expl *)
  rlog : REAL -> REAL;              (* log *)
  req : REAL -> REAL -> bool;       (* x == y *)
  rlt : REAL -> REAL -> bool;       (* x < y;  x > y is [rlt y x] *)
  rle : REAL -> REAL -> bool        (* x <= y; x >= y is [rle y x] *)
}.

(** ** Traces of divisions and logarithms *)

Module Trace.
Section Trace.
Variable R : Type.

(** Where in the source a division is written. *)
Inductive site :=
  | SiteProb      (* ex / (1.0 + ex)            ldpc_decode, initialisation *)
  | SiteRatio     (* q1 / q0                    ldpc_decode *)
  | SiteNorm      (* 1.0 / (1.0 + (q1 / q0))    ldpc_decode *)
  | SiteHalf      (* m[j][i2] / 2.0             ldpc_decode_log *)
  | SiteTanh      (* a / b                      fast_tanh *)
  | SiteLogArg.   (* (1 + a) / (1 - a)          ldpc_decode_log *)

Inductive event :=
  | EvDiv (s : site) (num den : R)
  | EvLog (arg : R).

Definition M (T : Type) : Type := (T * seq event)%type.

Definition ret {T} (x : T) : M T := (x, [::]).

Definition bind {T U} (c : M T) (k : T -> M U) : M U :=
  let r := k c.1 in (r.1, c.2 ++ r.2).

Definition emit {T} (ev : event) (x : T) : M T := (x, [:: ev]).

Fixpoint foldM {T U} (f : T -> U -> M T) (a : T) (s : seq U) : M T :=
  match s with
  | [::] => ret a
  | x :: s' => bind (f a x) (fun a' => foldM f a' s')
  end.

Fixpoint mapM {T U} (f : U -> M T) (s : seq U) : M (seq T) :=
  match s with
  | [::] => ret [::]
  | x :: s' => bind (f x) (fun y => bind (mapM f s') (fun ys => ret (y :: ys)))
  end.

End Trace.
Arguments ret {R T}.
Arguments bind {R T U}.
Arguments emit {R T}.
Arguments EvLog {R}.
End Trace.
Import Trace.

Notation "x <- c ;; k" := (bind c (fun x => k))
  (at level 61, c at next level, right associativity).

(** ** Parity check and the two sum-product decoders *)

Section Ldpc.
Context {RA : RealArith}.

(** [Nm[83][7]] and [Mn[174][3]] of arrays.h, 1-based, 0 for "no bit". *)
Variables Nm Mn : seq (seq Z).

Local Notation "0.0" := (rlit 0%Q).
Local Notation "1.0" := (rlit 1%Q).
Local Notation "2.0" := (rlit 2%Q).
Local Notation "0.5" := (rlit (1 # 2)%Q).
Local Notation "7.6" := (rlit (76 # 10)%Q).
Local Notation "0.999" := (rlit (999 # 1000)%Q).
Local Notation "x + y" := (radd x y).
Local Notation "x - y" := (rsub x y).
Local Notation "x * y" := (rmul x y).
Local Notation MR := (M REAL).

Definition fdiv (s : site) (x y : REAL) : MR REAL :=
  emit (EvDiv s x y) (rdiv x y).

Definition flog (x : REAL) : MR REAL := emit (EvLog x) (rlog x).

Definition tbl (t : seq (seq Z)) (r c : nat) : Z := nth 0%Z (nth [::] t r) c.

Definition matrix := seq (seq REAL).

Definition mget (m : matrix) (j i : nat) : REAL := nth 0.0 (nth [::] m j) i.

Definition mset (m : matrix) (j i : nat) (v : REAL) : matrix :=
  set_nth [::] m j (set_nth 0.0 (nth [::] m j) i v).

(** [int ldpc_check(int codeword[])] *)
Definition ldpc_check (codeword : seq Z) : Z :=
  foldl (fun score j =>
    let x := foldl (fun x ii1 =>
               let i1 := (tbl Nm j ii1 - 1)%Z in
               if (0 <=? i1)%Z
               then Z.lxor x (nth 0%Z codeword (Z.to_nat i1))
               else x)
             0%Z (iota 0 7) in
    if (x =? 0)%Z then (score + 1)%Z else score) 0%Z (iota 0 83).

(** The locals that live across iterations of the [for (iter ...)] loop. *)
Record state := State {
  st_m : matrix;          (* REAL m[83][174] *)
  st_e : matrix;          (* REAL e[83][174] *)
  best_score : Z;
  best_cw : seq Z
}.

(** One pass through the loop body either executes [return] (after writing
    [cw] to [plain] and 83 to [*ok]) or reaches the end of the body. *)
Inductive outcome :=
  | Return (cw : seq Z)
  | Continue (st : state).

(** [if (score > best_score) { best_cw = cw; best_score = score; }]:
    the two locals after the statement. *)
Definition record_best_cw (cw : seq Z) (score : Z) (st : state) : seq Z :=
  if (score >? best_score st)%Z then cw else best_cw st.

Definition record_best_score (score : Z) (st : state) : Z :=
  if (score >? best_score st)%Z then score else best_score st.

(** The loop [for (iter = 0; iter < iters; iter++)] followed by the
    "decode didn't work, return best guess" epilogue.  The result is the pair
    of what the call leaves in [plain[0..173]] and in [*ok]. *)
Fixpoint run (iteration : state -> MR outcome) (n : nat) (st : state)
  : MR (seq Z * Z) :=
  match n with
  | 0 => ret (best_cw st, best_score st)
  | n'.+1 =>
      o <- iteration st ;;
      match o with
      | Return cw => ret (cw, 83%Z)
      | Continue st' => run iteration n' st'
      end
  end.

(** *** Probability domain: [ldpc_decode] *)

(** [ex = expl(llcodeword[i]); p = ex / (1.0 + ex); codeword[i] = p;] *)
Definition llr_to_prob (llcodeword : seq REAL) : MR (seq REAL) :=
  mapM (fun i =>
          let ex := rexp (nth 0.0 llcodeword i) in
          fdiv SiteProb ex (1.0 + ex))
       (iota 0 174).

(** [m[j][i] = codeword[i]] for all i, j. *)
Definition spread (codeword : seq REAL) : matrix :=
  mkseq (fun _ => mkseq (fun i => nth 0.0 codeword i) 174) 83.

(** [e[j][i] = 0.0] for all i, j. *)
Definition zeros : matrix := nseq 83 (nseq 174 0.0).

(** The product [a] over the other bits [i2] of check [j]. *)
Definition check_product (m : matrix) (j : nat) (i1 : Z) : REAL :=
  foldl (fun a ii2 =>
           let i2 := (tbl Nm j ii2 - 1)%Z in
           if (0 <=? i2)%Z && ~~ (i2 =? i1)%Z
           then a * (1.0 - 2.0 * (1.0 - mget m j (Z.to_nat i2)))
           else a)
        1.0 (iota 0 7).

Definition check_update (m e : matrix) : matrix :=
  foldl (fun e j =>
    foldl (fun e ii1 =>
             let i1 := (tbl Nm j ii1 - 1)%Z in
             if (i1 <? 0)%Z then e
             else mset e j (Z.to_nat i1) (0.5 + 0.5 * check_product m j i1))
          e (iota 0 7))
    e (iota 0 83).

(** [if (q0 == 0.0) p = 1.0; else p = 1.0 / (1.0 + (q1 / q0));] *)
Definition posterior (q0 q1 : REAL) : MR REAL :=
  if req q0 0.0 then ret 1.0
  else r <- fdiv SiteRatio q1 q0 ;; fdiv SiteNorm 1.0 (1.0 + r).

(** [q0 *= e[j2][i]; q1 *= 1.0 - e[j2][i];] over the checks of bit [i],
    leaving out those for which [skip] holds. *)
Definition belief (codeword : seq REAL) (e : matrix) (i : nat)
    (skip : Z -> bool) : REAL * REAL :=
  foldl (fun q j =>
           let j2 := (tbl Mn i j - 1)%Z in
           if skip j2 then q
           else (q.1 * mget e (Z.to_nat j2) i,
                 q.2 * (1.0 - mget e (Z.to_nat j2) i)))
        (nth 0.0 codeword i, 1.0 - nth 0.0 codeword i) (iota 0 3).

Definition hard_decision (codeword : seq REAL) (e : matrix) : MR (seq Z) :=
  mapM (fun i =>
          let q := belief codeword e i (fun _ => false) in
          p <- posterior q.1 q.2 ;;
          ret (if rle p 0.5 then 1%Z else 0%Z))
       (iota 0 174).

Definition var_update (codeword : seq REAL) (e m : matrix) : MR matrix :=
  foldM (fun m i =>
    foldM (fun m ji1 =>
             let j1 := (tbl Mn i ji1 - 1)%Z in
             let q := belief codeword e i (fun j2 => (j1 =? j2)%Z) in
             p <- posterior q.1 q.2 ;;
             ret (mset m (Z.to_nat j1) i p))
          m (iota 0 3))
    m (iota 0 174).

Definition iteration (codeword : seq REAL) (st : state) : MR outcome :=
  let e := check_update (st_m st) (st_e st) in
  cw <- hard_decision codeword e ;;
  let score := ldpc_check cw in
  if (score =? 83)%Z then ret (Return cw)
  else
    let score' := record_best_score score st in
    let cw' := record_best_cw cw score st in
    m <- var_update codeword e (st_m st) ;;
    ret (Continue (State m e score' cw')).

(** [void ldpc_decode(float llcodeword[], int iters, int plain[], int *ok)].
    [best_cw0] is what the stack slot of [best_cw] holds on entry: the array
    is declared without an initialiser. *)
Definition ldpc_decode (llcodeword : seq REAL) (iters : Z) (best_cw0 : seq Z)
  : MR (seq Z * Z) :=
  codeword <- llr_to_prob llcodeword ;;
  run (iteration codeword) (Z.to_nat iters)
      (State (spread codeword) zeros (-1)%Z best_cw0).

(** *** [fast_tanh] *)

Definition fast_tanh_ratio (x : REAL) : REAL * REAL :=
  let x2 := x * x in
  let a := x * (rlit 135135%Q + x2 * (rlit 17325%Q + x2 * (rlit 378%Q + x2))) in
  let b := rlit 135135%Q + x2 * (rlit 62370%Q + x2 * (rlit 3150%Q + x2 * rlit 28%Q)) in
  (a, b).

Definition fast_tanh (x : REAL) : MR REAL :=
  if rlt x (rlit (- (76 # 10))%Q) then ret (rlit (- (999 # 1000))%Q)
  else if rlt 7.6 x then ret 0.999
  else let ab := fast_tanh_ratio x in fdiv SiteTanh ab.1 ab.2.

(** *** Log-likelihood domain: [ldpc_decode_log] *)

Definition tanh_product (m : matrix) (j : nat) (i1 : Z) : MR REAL :=
  foldM (fun a ii2 =>
           let i2 := (tbl Nm j ii2 - 1)%Z in
           if (0 <=? i2)%Z && ~~ (i2 =? i1)%Z
           then h <- fdiv SiteHalf (mget m j (Z.to_nat i2)) 2.0 ;;
                t <- fast_tanh h ;;
                ret (a * t)
           else ret a)
        1.0 (iota 0 7).

(** [if (a >= 0.999) tmp = 7.6; else if (a <= -0.999) tmp = -7.6;
     else tmp = log((1 + a) / (1 - a));] *)
Definition check_message (a : REAL) : MR REAL :=
  if rle 0.999 a then ret 7.6
  else if rle a (rlit (- (999 # 1000))%Q) then ret (rlit (- (76 # 10))%Q)
  else r <- fdiv SiteLogArg (1.0 + a) (1.0 - a) ;; flog r.

Definition check_update_log (m e : matrix) : MR matrix :=
  foldM (fun e j =>
    foldM (fun e ii1 =>
             let i1 := (tbl Nm j ii1 - 1)%Z in
             if (i1 <? 0)%Z then ret e
             else a <- tanh_product m j i1 ;;
                  tmp <- check_message a ;;
                  ret (mset e j (Z.to_nat i1) tmp))
          e (iota 0 7))
    e (iota 0 83).

(** [l = codeword[i]; l += e[j2][i]] over the checks of bit [i], leaving out
    those for which [skip] holds. *)
Definition llr_sum (codeword : seq REAL) (e : matrix) (i : nat)
    (skip : Z -> bool) : REAL :=
  foldl (fun l j =>
           let j2 := (tbl Mn i j - 1)%Z in
           if skip j2 then l else l + mget e (Z.to_nat j2) i)
        (nth 0.0 codeword i) (iota 0 3).

Definition hard_decision_log (codeword : seq REAL) (e : matrix) : seq Z :=
  [seq if rle (llr_sum codeword e i (fun _ => false)) 0.0 then 1%Z else 0%Z
  | i <- iota 0 174].

Definition var_update_log (codeword : seq REAL) (e m : matrix) : matrix :=
  foldl (fun m i =>
    foldl (fun m ji1 =>
             let j1 := (tbl Mn i ji1 - 1)%Z in
             mset m (Z.to_nat j1) i
                  (llr_sum codeword e i (fun j2 => (j1 =? j2)%Z)))
          m (iota 0 3))
    m (iota 0 174).

Definition iteration_log (codeword : seq REAL) (st : state) : MR outcome :=
  e <- check_update_log (st_m st) (st_e st) ;;
  let cw := hard_decision_log codeword e in
  let score := ldpc_check cw in
  if (score =? 83)%Z then ret (Return cw)
  else
    let score' := record_best_score score st in
    let cw' := record_best_cw cw score st in
    ret (Continue (State (var_update_log codeword e (st_m st)) e score' cw')).

(** [void ldpc_decode_log(float codeword[], int iters, int plain[], int *ok)] *)
Definition ldpc_decode_log (codeword : seq REAL) (iters : Z)
    (best_cw0 : seq Z) : MR (seq Z * Z) :=
  run (iteration_log codeword) (Z.to_nat iters)
      (State (spread codeword) zeros (-1)%Z best_cw0).

End Ldpc.

(** Exclusive or of two words, cell by cell; a cell past the end of a word
    reads as 0, as it does with [nth]. *)
Definition xor_word (a b : seq Z) : seq Z :=
  mkseq (fun i => Z.lxor (nth 0%Z a i) (nth 0%Z b i)) (maxn (size a) (size b)).

(** The value of [x] at the end of the inner loop of [ldpc_check] for row
    [j]: the exclusive or of the codeword cells that check [j] covers. *)
Definition check_parity (Nm : seq (seq Z)) (codeword : seq Z) (j : nat) : Z :=
  foldl (fun x ii1 =>
           let i1 := (tbl Nm j ii1 - 1)%Z in
           if (0 <=? i1)%Z
           then Z.lxor x (nth 0%Z codeword (Z.to_nat i1))
           else x)
        0%Z (iota 0 7).

(** ** The caller's view of a call *)

Section Caller.
Context {RA : RealArith}.
Variables Nm Mn : seq (seq Z).

(** The three objects the caller hands over by pointer. *)
Record caller_memory := Caller {
  mem_llr : seq REAL;       (* float llcodeword[] / float codeword[] *)
  mem_plain : seq Z;        (* int plain[] *)
  mem_ok : Z                (* int *ok *)
}.

(** [for (int i = 0; i < 174; i++) plain[i] = src[i];] *)
Definition write_plain (src : seq Z) (mem : caller_memory) : caller_memory :=
  Caller (mem_llr mem)
         (foldl (fun p i => set_nth 0%Z p i (nth 0%Z src i))
                (mem_plain mem) (iota 0 174))
         (mem_ok mem).

(** [*ok = v;] *)
Definition write_ok (v : Z) (mem : caller_memory) : caller_memory :=
  Caller (mem_llr mem) (mem_plain mem) v.

Definition ldpc_decode_call (mem : caller_memory) (iters : Z)
    (best_cw0 : seq Z) : M REAL caller_memory :=
  r <- ldpc_decode Nm Mn (mem_llr mem) iters best_cw0 ;;
  ret (write_ok r.2 (write_plain r.1 mem)).

Definition ldpc_decode_log_call (mem : caller_memory) (iters : Z)
    (best_cw0 : seq Z) : M REAL caller_memory :=
  r <- ldpc_decode_log Nm Mn (mem_llr mem) iters best_cw0 ;;
  ret (write_ok r.2 (write_plain r.1 mem)).

End Caller.

(** ** The decoders over the caller's memory

    The same two functions with every array kept in one memory of numbered
    cells: the arrays that the caller hands over by pointer and the local
    arrays [m], [e], [codeword], [cw] and [best_cw].  An array access is a
    load or a store at an address computed from the base of the array and
    the index, so that which cells a call writes depends on its loop
    bounds and on the entries of [Nm] and [Mn].  Scalars are values.
    [best_cw] starts with whatever the memory holds in its place. *)

Section Memory.
Context {RA : RealArith}.
Variables Nm Mn : seq (seq Z).

Local Notation "0.0" := (rlit 0%Q).
Local Notation "1.0" := (rlit 1%Q).
Local Notation "2.0" := (rlit 2%Q).
Local Notation "0.5" := (rlit (1 # 2)%Q).
Local Notation "x + y" := (radd x y).
Local Notation "x - y" := (rsub x y).
Local Notation "x * y" := (rmul x y).
Local Notation MR := (M REAL).

Inductive cell :=
  | FloatCell (x : REAL)
  | IntCell (v : Z).

Definition memory := Z -> cell.

(** A cell read at the other type reads as zero (C leaves such a read
    undefined). *)
Definition load_float (mem : memory) (a : Z) : REAL :=
  match mem a with
  | FloatCell x => x
  | IntCell _ => 0.0
  end.

Definition load_int (mem : memory) (a : Z) : Z :=
  match mem a with
  | IntCell v => v
  | FloatCell _ => 0%Z
  end.

Definition store (mem : memory) (a : Z) (c : cell) : memory :=
  fun b => if (b =? a)%Z then c else mem b.

(** Where the local arrays of a call lie. *)
Record layout := Layout {
  at_m : Z;           (* REAL m[83][174] *)
  at_e : Z;           (* REAL e[83][174] *)
  at_codeword : Z;    (* REAL codeword[174], in ldpc_decode *)
  at_cw : Z;          (* int cw[174] *)
  at_best_cw : Z      (* int best_cw[174] *)
}.

Variable L : layout.

(** The address of [a[j][i]] for an array [a[83][174]] at [base]. *)
Definition cell_of (base : Z) (j i : Z) : Z := (base + j * 174 + i)%Z.

(** [int ldpc_check(int codeword[])], reading the word at [codeword]. *)
Definition ldpc_check_at (mem : memory) (codeword : Z) : Z :=
  foldl (fun score j =>
    let x := foldl (fun x ii1 =>
               let i1 := (tbl Nm j ii1 - 1)%Z in
               if (0 <=? i1)%Z
               then Z.lxor x (load_int mem (codeword + i1)%Z)
               else x)
             0%Z (iota 0 7) in
    if (x =? 0)%Z then (score + 1)%Z else score) 0%Z (iota 0 83).

(** [for (i = 0; i < 174; i++) dst[i] = src[i];] on [int] arrays. *)
Definition copy_word (mem : memory) (dst src : Z) : memory :=
  foldl (fun mem i =>
           store mem (dst + Z.of_nat i)%Z
                 (IntCell (load_int mem (src + Z.of_nat i)%Z)))
        mem (iota 0 174).

(** What one pass through the body of the [iter] loop leaves: the memory
    at its [return], or the memory and [best_score] at the end of the
    body. *)
Inductive pass :=
  | Returned (mem : memory)
  | Continued (mem : memory) (best_score : Z).

Definition pass_memory (p : pass) : memory :=
  match p with
  | Returned mem => mem
  | Continued mem _ => mem
  end.

(** From [int score = ldpc_check(cw);] to the end of
    [if (score > best_score) ...]. *)
Definition keep_score (mem : memory) (plain ok : Z) (best_score : Z) : pass :=
  let score := ldpc_check_at mem (at_cw L) in
  if (score =? 83)%Z
  then Returned (store (copy_word mem plain (at_cw L)) ok (IntCell 83%Z))
  else if (score >? best_score)%Z
       then Continued (copy_word mem (at_best_cw L) (at_cw L)) score
       else Continued mem best_score.

(** The [iter] loop and the epilogue
    [plain[i] = best_cw[i]; *ok = best_score;]. *)
Fixpoint run_at (body : memory -> Z -> MR pass) (plain ok : Z) (n : nat)
    (mem : memory) (best_score : Z) : MR memory :=
  match n with
  | 0 => ret (store (copy_word mem plain (at_best_cw L)) ok
                    (IntCell best_score))
  | n'.+1 =>
      o <- body mem best_score ;;
      match o with
      | Returned mem' => ret mem'
      | Continued mem' best_score' => run_at body plain ok n' mem' best_score'
      end
  end.

(** [m[j][i] = src[i]] for all i, j. *)
Definition spread_at (mem : memory) (src : Z) : memory :=
  foldl (fun mem i =>
    foldl (fun mem j =>
             store mem (cell_of (at_m L) (Z.of_nat j) (Z.of_nat i))
                   (FloatCell (load_float mem (src + Z.of_nat i)%Z)))
          mem (iota 0 83))
    mem (iota 0 174).

(** [e[j][i] = 0.0] for all i, j. *)
Definition zeros_at (mem : memory) : memory :=
  foldl (fun mem i =>
    foldl (fun mem j =>
             store mem (cell_of (at_e L) (Z.of_nat j) (Z.of_nat i))
                   (FloatCell 0.0))
          mem (iota 0 83))
    mem (iota 0 174).

(** *** [ldpc_decode] *)

Definition llr_to_prob_at (mem : memory) (llcodeword : Z) : MR memory :=
  foldM (fun mem i =>
           let ex := rexp (load_float mem (llcodeword + Z.of_nat i)%Z) in
           p <- fdiv SiteProb ex (1.0 + ex) ;;
           ret (store mem (at_codeword L + Z.of_nat i)%Z (FloatCell p)))
        mem (iota 0 174).

Definition check_product_at (mem : memory) (j : nat) (i1 : Z) : REAL :=
  foldl (fun a ii2 =>
           let i2 := (tbl Nm j ii2 - 1)%Z in
           if (0 <=? i2)%Z && ~~ (i2 =? i1)%Z
           then a * (1.0 - 2.0
                     * (1.0 - load_float mem (cell_of (at_m L) (Z.of_nat j) i2)))
           else a)
        1.0 (iota 0 7).

Definition check_update_at (mem : memory) : memory :=
  foldl (fun mem j =>
    foldl (fun mem ii1 =>
             let i1 := (tbl Nm j ii1 - 1)%Z in
             if (i1 <? 0)%Z then mem
             else store mem (cell_of (at_e L) (Z.of_nat j) i1)
                        (FloatCell (0.5 + 0.5 * check_product_at mem j i1)))
          mem (iota 0 7))
    mem (iota 0 83).

Definition belief_at (mem : memory) (i : nat) (skip : Z -> bool)
  : REAL * REAL :=
  foldl (fun q j =>
           let j2 := (tbl Mn i j - 1)%Z in
           if skip j2 then q
           else (q.1 * load_float mem (cell_of (at_e L) j2 (Z.of_nat i)),
                 q.2 * (1.0 - load_float mem (cell_of (at_e L) j2 (Z.of_nat i)))))
        (load_float mem (at_codeword L + Z.of_nat i)%Z,
         1.0 - load_float mem (at_codeword L + Z.of_nat i)%Z)
        (iota 0 3).

Definition hard_decision_at (mem : memory) : MR memory :=
  foldM (fun mem i =>
           let q := belief_at mem i (fun _ => false) in
           p <- posterior q.1 q.2 ;;
           ret (store mem (at_cw L + Z.of_nat i)%Z
                      (IntCell (if rle p 0.5 then 1%Z else 0%Z))))
        mem (iota 0 174).

Definition var_update_at (mem : memory) : MR memory :=
  foldM (fun mem i =>
    foldM (fun mem ji1 =>
             let j1 := (tbl Mn i ji1 - 1)%Z in
             let q := belief_at mem i (fun j2 => (j1 =? j2)%Z) in
             p <- posterior q.1 q.2 ;;
             ret (store mem (cell_of (at_m L) j1 (Z.of_nat i)) (FloatCell p)))
          mem (iota 0 3))
    mem (iota 0 174).

Definition iteration_at (plain ok : Z) (mem : memory) (best_score : Z)
  : MR pass :=
  mem' <- hard_decision_at (check_update_at mem) ;;
  match keep_score mem' plain ok best_score with
  | Returned mem'' => ret (Returned mem'')
  | Continued mem'' best_score' =>
      mem''' <- var_update_at mem'' ;; ret (Continued mem''' best_score')
  end.

(** [ldpc_decode(llcodeword, iters, plain, ok)], the three pointers given
    as addresses; the result is the memory on return. *)
Definition ldpc_decode_at (mem : memory) (llcodeword plain ok : Z) (iters : Z)
  : MR memory :=
  mem' <- llr_to_prob_at mem llcodeword ;;
  run_at (iteration_at plain ok) plain ok (Z.to_nat iters)
         (zeros_at (spread_at mem' (at_codeword L))) (-1)%Z.

(** *** [ldpc_decode_log] *)

Definition tanh_product_at (mem : memory) (j : nat) (i1 : Z) : MR REAL :=
  foldM (fun a ii2 =>
           let i2 := (tbl Nm j ii2 - 1)%Z in
           if (0 <=? i2)%Z && ~~ (i2 =? i1)%Z
           then h <- fdiv SiteHalf
                       (load_float mem (cell_of (at_m L) (Z.of_nat j) i2)) 2.0 ;;
                t <- fast_tanh h ;;
                ret (a * t)
           else ret a)
        1.0 (iota 0 7).

Definition check_update_log_at (mem : memory) : MR memory :=
  foldM (fun mem j =>
    foldM (fun mem ii1 =>
             let i1 := (tbl Nm j ii1 - 1)%Z in
             if (i1 <? 0)%Z then ret mem
             else a <- tanh_product_at mem j i1 ;;
                  tmp <- check_message a ;;
                  ret (store mem (cell_of (at_e L) (Z.of_nat j) i1)
                             (FloatCell tmp)))
          mem (iota 0 7))
    mem (iota 0 83).

Definition llr_sum_at (mem : memory) (codeword : Z) (i : nat)
    (skip : Z -> bool) : REAL :=
  foldl (fun l j =>
           let j2 := (tbl Mn i j - 1)%Z in
           if skip j2 then l
           else l + load_float mem (cell_of (at_e L) j2 (Z.of_nat i)))
        (load_float mem (codeword + Z.of_nat i)%Z) (iota 0 3).

Definition hard_decision_log_at (mem : memory) (codeword : Z) : memory :=
  foldl (fun mem i =>
           store mem (at_cw L + Z.of_nat i)%Z
                 (IntCell (if rle (llr_sum_at mem codeword i (fun _ => false))
                                  0.0
                           then 1%Z else 0%Z)))
        mem (iota 0 174).

Definition var_update_log_at (mem : memory) (codeword : Z) : memory :=
  foldl (fun mem i =>
    foldl (fun mem ji1 =>
             let j1 := (tbl Mn i ji1 - 1)%Z in
             store mem (cell_of (at_m L) j1 (Z.of_nat i))
                   (FloatCell (llr_sum_at mem codeword i
                                 (fun j2 => (j1 =? j2)%Z))))
          mem (iota 0 3))
    mem (iota 0 174).

Definition iteration_log_at (codeword plain ok : Z) (mem : memory)
    (best_score : Z) : MR pass :=
  mem' <- check_update_log_at mem ;;
  match keep_score (hard_decision_log_at mem' codeword) plain ok best_score with
  | Returned mem'' => ret (Returned mem'')
  | Continued mem'' best_score' =>
      ret (Continued (var_update_log_at mem'' codeword) best_score')
  end.

(** [ldpc_decode_log(codeword, iters, plain, ok)]. *)
Definition ldpc_decode_log_at (mem : memory) (codeword plain ok : Z)
    (iters : Z) : MR memory :=
  run_at (iteration_log_at codeword plain ok) plain ok (Z.to_nat iters)
         (zeros_at (spread_at mem codeword)) (-1)%Z.

(** *** The cells a call may write *)

Definition in_block (base len a : Z) : bool :=
  (base <=? a)%Z && (a <? base + len)%Z.

(** The local arrays, [plain[0 .. 173]] and [*ok]. *)
Definition written (plain ok : Z) (a : Z) : bool :=
  [|| in_block (at_m L) (83 * 174) a, in_block (at_e L) (83 * 174) a,
      in_block (at_codeword L) 174 a, in_block (at_cw L) 174 a,
      in_block (at_best_cw L) 174 a, in_block plain 174 a | (a =? ok)%Z].

Definition holds_int (mem : memory) (a : Z) : bool :=
  match mem a with
  | IntCell _ => true
  | FloatCell _ => false
  end.

(** [mem'] holds what [mem] holds in every cell that is not in [W]. *)
Definition kept (W : Z -> bool) (mem mem' : memory) : Prop :=
  forall a, W a = false -> mem' a = mem a.

(** The entries of [Nm] are bit numbers 1 .. 174 or 0 for "no bit" (or
    less), those of [Mn] are check numbers 1 .. 83. *)
Definition tables_in_range : bool :=
  all (fun j => all (fun ii => (tbl Nm j ii <=? 174)%Z) (iota 0 7)) (iota 0 83)
  && all (fun i => all (fun j => (1 <=? tbl Mn i j)%Z && (tbl Mn i j <=? 83)%Z)
                       (iota 0 3))
         (iota 0 174).

End Memory.

(** ** Vocabulary for statements about the iteration loop *)

Section LoopVocabulary.
Context {RA : RealArith}.
Variables Nm Mn : seq (seq Z).

(** The hard decision [cw] that the loop body computes when entered in
    state [st]. *)
Definition hard_prob (codeword : seq REAL) (st : state) : seq Z :=
  (hard_decision Mn codeword (check_update Nm (st_m st) (st_e st))).1.

Definition hard_log (codeword : seq REAL) (st : state) : seq Z :=
  hard_decision_log Mn codeword (check_update_log Nm (st_m st) (st_e st)).1.

(** The state in which iteration [n] is entered, if the [n] iterations
    before it all ran to the end of the body. *)
Fixpoint steps (iteration : state -> M REAL outcome) (n : nat) (st : state)
  : option state :=
  match n with
  | 0 => Some st
  | n'.+1 =>
      match (iteration st).1 with
      | Continue st' => steps iteration n' st'
      | Return _ => None
      end
  end.

(** The hard decisions computed by the first [n] iterations, up to and
    including one that exits early. *)
Fixpoint history (iteration : state -> M REAL outcome)
    (hard : state -> seq Z) (n : nat) (st : state) : seq (seq Z) :=
  match n with
  | 0 => [::]
  | n'.+1 =>
      hard st :: match (iteration st).1 with
                 | Continue st' => history iteration hard n' st'
                 | Return _ => [::]
                 end
  end.

(** What a loop body must do with the hard decision [hard st] it computes:
    exit with it when it passes all 83 checks, and otherwise fold it into
    the best-so-far slot. *)
Definition body_spec (body : state -> M REAL outcome)
    (hard : state -> seq Z) : Prop :=
  forall st,
    match (body st).1 with
    | Return cw => cw = hard st /\ ldpc_check Nm cw = 83%Z
    | Continue st' =>
        [/\ ldpc_check Nm (hard st) <> 83%Z,
            best_cw st' = record_best_cw (hard st) (ldpc_check Nm (hard st)) st
          & best_score st' = record_best_score (ldpc_check Nm (hard st)) st]
    end.

(** The codeword array of [ldpc_decode] and the states in which the two
    decoders enter their loop. *)
Definition probabilities (llcodeword : seq REAL) : seq REAL :=
  (llr_to_prob llcodeword).1.

Definition entry_state (codeword : seq REAL) (best_cw0 : seq Z) : state :=
  State (spread codeword) zeros (-1)%Z best_cw0.

(** The "sign decode" of an LLR vector: bit [i] is 1 iff [llr[i] <= 0]. *)
Definition sign_decode (llr : seq REAL) : seq Z :=
  [seq if rle (nth (rlit 0%Q) llr i) (rlit 0%Q) then 1%Z else 0%Z
  | i <- iota 0 174].

End LoopVocabulary.

(** ** What the guards in front of a division or a logarithm guarantee *)

Section Guards.
Context {RA : RealArith}.

(** [q1 / q0] is executed in the [else] branch of [if (q0 == 0.0)]; the
    quotient [(1 + a) / (1 - a)] handed to [log] is computed in the last
    branch of [if (a >= 0.999) ... else if (a <= -0.999) ...]. *)
Definition guard_respected (ev : event REAL) : Prop :=
  match ev with
  | EvDiv SiteRatio _ q0 => req q0 (rlit 0%Q) = false
  | EvDiv SiteLogArg n d =>
      exists a, [/\ n = radd (rlit 1%Q) a, d = rsub (rlit 1%Q) a,
                    rle (rlit (999 # 1000)%Q) a = false
                  & rle a (rlit (- (999 # 1000))%Q) = false]
  | _ => True
  end.

End Guards.

(** ** Exact rational arithmetic as an instance of [RealArith]

    What the program computes when no operation rounds: no rounding error,
    overflow, infinity or NaN.  It serves to run the decoders on examples
    and for the statements that say "in exact arithmetic". *)

Module ExactQ.

(** [expl] and [log] are libm's; an instance takes them as given. *)
Definition arith (qexp qlog : Q -> Q) : RealArith :=
  {| REAL := Q;
     rlit q := Qred q;
     radd x y := Qred (x + y)%Q;
     rsub x y := Qred (x - y)%Q;
     rmul x y := Qred (x * y)%Q;
     rdiv x y := Qred (x / y)%Q;
     rexp := qexp;
     rlog := qlog;
     req := Qeq_bool;
     rlt x y := ~~ Qle_bool y x;
     rle := Qle_bool |}.

(** Rational stand-ins for [expl] and [log], good enough to run the
    decoders on examples: a positive function and the first term of the
    series of [log] around 1. *)
Definition exp_standin (x : Q) : Q :=
  if Qle_bool 0 x then Qred (1 + x + x * x / 2)%Q
  else Qred (1 / (1 - x + x * x / 2))%Q.

Definition log_standin (y : Q) : Q := Qred (2 * (y - 1) / (y + 1))%Q.

Definition run_arith : RealArith := arith exp_standin log_standin.

(** Numerator and denominator of the rational function of [fast_tanh],
    over the rationals. *)
Definition pade_num (x : Q) : Q :=
  (x * (135135 + x * x * (17325 + x * x * (378 + x * x))))%Q.

Definition pade_den (x : Q) : Q :=
  (135135 + x * x * (62370 + x * x * (3150 + x * x * 28)))%Q.

End ExactQ.

(** ** IEEE 754 binary32 as an instance of [RealArith]

    [float] on the targets of the library, with the operations of the
    Standard Library's specification of IEEE 754 arithmetic (round to
    nearest, ties to even; infinities, signed zeros and NaN).

    [fast_tanh] and [ldpc_decode_log] compute in [float] throughout: their
    variables are [float] or [REAL], [m[j][i2] / 2.0] is an exact halving
    that is narrowed to the [float] parameter of [fast_tanh], and the
    [double] literals 7.6 and 0.999 are either stored to a [float] or
    compared with one.  No [float] lies between a literal and its rounding
    to [float], which is below 7.6 and above 0.999: so [x > 7.6] and
    [x < -7.6] hold of a [float] [x] exactly when they hold against 7.6
    rounded, and [a >= 0.999] and [a <= -0.999] exactly when they hold
    against 0.999 rounded, which is how [rlit] and the comparisons of this
    instance read them.  In [ldpc_decode] some intermediate results are
    [double]; this instance rounds them to [float] as well. *)

Module Binary32.

Definition prec : Z := 24.
Definition emax : Z := 128.

Definition of_Z (z : Z) : spec_float := binary_normalize prec emax z 0 false.

(** A decimal literal [n / d] of the source, with [n] and [d] below 2^24:
    the quotient rounded to the nearest [float]. *)
Definition of_Q (q : Q) : spec_float :=
  SFdiv prec emax (of_Z (Qnum q)) (of_Z (Zpos (Qden q))).

(** [expl] and [log] are libm's; an instance takes them as given. *)
Definition arith (libm_exp libm_log : spec_float -> spec_float) : RealArith :=
  {| REAL := spec_float;
     rlit := of_Q;
     radd := SFadd prec emax;
     rsub := SFsub prec emax;
     rmul := SFmul prec emax;
     rdiv := SFdiv prec emax;
     rexp := libm_exp;
     rlog := libm_log;
     req := SFeqb;
     rlt := SFltb;
     rle := SFleb |}.

(** For running examples whose outcome does not depend on libm. *)
Definition run_arith : RealArith := arith (fun x => x) (fun x => x).

(** The rational number that a zero or a finite [float] stands for. *)
Definition value (x : spec_float) : option Q :=
  match x with
  | S754_zero _ => Some 0%Q
  | S754_finite s m e =>
      Some (Qred ((if s then Zneg m # 1 else Zpos m # 1) * Qpower 2 e)%Q)
  | _ => None
  end.

Definition is_nan (x : spec_float) : bool :=
  match x with S754_nan => true | _ => false end.

(** An input vector of 174 NaNs. *)
Definition llr_nan : seq spec_float := nseq 174 S754_nan.

(** The event "[log] is called on a NaN". *)
Definition log_of_nan (ev : event spec_float) : bool :=
  match ev with
  | EvLog x => is_nan x
  | _ => false
  end.

End Binary32.

(** ** A Tanner graph of the shape of arrays.h, for running examples

    Bit [i] takes part in the checks [i], [i + 28] and [i + 56] modulo 83;
    every check then has 6 or 7 bits, as in FT8. *)

Module Toy.

Definition Mn : seq (seq Z) :=
  [seq [:: Z.of_nat (i %% 83) + 1; Z.of_nat ((i + 28) %% 83) + 1;
           Z.of_nat ((i + 56) %% 83) + 1]%Z | i <- iota 0 174].

Definition Nm : seq (seq Z) :=
  [seq let bits := [seq Z.of_nat i.+1 | i <- iota 0 174
                    & has (Z.eqb (Z.of_nat j.+1)) (nth [::] Mn i)] in
       bits ++ nseq (7 - size bits) 0%Z
  | j <- iota 0 83].

(** All bits confidently 0. *)
Definition llr_clean : seq (@REAL ExactQ.run_arith) := nseq 174 (10 # 1)%Q.

(** Every fifth bit leaning to 1: violates parity checks of [Nm]. *)
Definition llr_noisy : seq (@REAL ExactQ.run_arith) :=
  [seq if i %% 5 == 0 then (- (3 # 1))%Q else (2 # 1)%Q | i <- iota 0 174].

(** A caller's memory: the noisy vector in cells 0 .. 173, integers
    elsewhere; and a place for the local arrays. *)
Definition caller_cells : @memory ExactQ.run_arith :=
  fun a => if (0 <=? a)%Z && (a <? 174)%Z
           then FloatCell (nth (rlit 0%Q) llr_noisy (Z.to_nat a))
           else IntCell 0%Z.

Definition stack : layout := Layout 20000 40000 60000 61000 62000.

End Toy.

(** ** CRC-14 *)

Module Crc.

(** [int div[] = {1, 1, 0, 0, 1, 1, 1, 0, 1, 0, 1, 0, 1, 1, 1};] *)
Definition div : seq Z := [:: 1; 1; 0; 0; 1; 1; 1; 0; 1; 0; 1; 0; 1; 1; 1]%Z.

(** The scratch buffer [msg]: [msg1[0..msglen-1]] followed by 14 zeros. *)
Definition append_zeros (msg1 : seq Z) (msglen : nat) : seq Z :=
  [seq if i < msglen then nth 0%Z msg1 i else 0%Z | i <- iota 0 (msglen + 14)].

(** [for (j = 0; j < 15; j++) msg[i + j] = (msg[i + j] + div[j]) % 2;] *)
Definition xor_div (msg : seq Z) (i : nat) : seq Z :=
  foldl (fun msg j =>
           set_nth 0%Z msg (i + j)
                   (Z.rem (nth 0%Z msg (i + j) + nth 0%Z div j) 2))
        msg (iota 0 15).

(** The body of [for (i = 0; i < msglen; i++)]:
    [if (msg[i]) { xor the divisor in at i }]. *)
Definition step (msg : seq Z) (i : nat) : seq Z :=
  if ~~ (nth 0%Z msg i =? 0)%Z then xor_div msg i else msg.

Definition sweep (msg : seq Z) (msglen : nat) : seq Z :=
  foldl step msg (iota 0 msglen).

(** [void ft8_crc(int msg1[], int msglen, int out[14])]; the result is
    what the call leaves in [out]. *)
Definition ft8_crc (msg1 : seq Z) (msglen : nat) : seq Z :=
  let msg := sweep (append_zeros msg1 msglen) msglen in
  [seq nth 0%Z msg (msglen + i) | i <- iota 0 14].

Definition is_bit (b : Z) : bool := (b =? 0)%Z || (b =? 1)%Z.

Definition bit (v : Z) : Prop := v = 0%Z \/ v = 1%Z.

(** Every cell of the buffer holds a bit (cells past the end read as 0). *)
Definition bits (b : seq Z) : Prop := forall p, bit (nth 0%Z b p).

(** [b'] is [b] with the bit pattern [d] added in, cell by cell. *)
Definition offset_by (d : nat -> Z) (b b' : seq Z) : Prop :=
  forall p, nth 0%Z b' p = Z.rem (nth 0%Z b p + d p) 2.

(** Sum modulo 2, cell by cell, of two bit strings of the same length. *)
Definition add2 (a b : seq Z) : seq Z :=
  [seq Z.rem (x.1 + x.2) 2 | x <- zip a b].

(** The bit string [a] with bit [i] inverted. *)
Definition flip (a : seq Z) (i : nat) : seq Z :=
  set_nth 0%Z a i (Z.rem (nth 0%Z a i + 1) 2).

(** [c] is the sum modulo 2 of [a] and [b], cell by cell. *)
Definition sum_of (a b c : seq Z) : Prop :=
  forall p, nth 0%Z c p = Z.rem (nth 0%Z a p + nth 0%Z b p) 2.

End Crc.

(** ** Gauss-Jordan over GF(2) *)

Module GaussJordan.

Definition imatrix := seq (seq Z).

Definition get (m : imatrix) (r c : nat) : Z := nth 0%Z (nth [::] m r) c.

Definition set (m : imatrix) (r c : nat) (v : Z) : imatrix :=
  set_nth [::] m r (set_nth 0%Z (nth [::] m r) c v).

(** [for (col = 0; col < 2 * rows; col++)
       { tmp = m[row][col]; m[row][col] = m[row1][col]; m[row1][col] = tmp; }] *)
Definition swap_rows (rows : nat) (m : imatrix) (row row1 : nat) : imatrix :=
  foldl (fun m col =>
           let tmp := get m row col in
           set (set m row col (get m row1 col)) row1 col tmp)
        m (iota 0 (2 * rows)).

(** [tmp = which[row]; which[row] = which[row1]; which[row1] = tmp;] *)
Definition swap_which (which : seq Z) (row row1 : nat) : seq Z :=
  let tmp := nth 0%Z which row in
  set_nth 0%Z (set_nth 0%Z which row (nth 0%Z which row1)) row1 tmp.

(** The scan [for (row1 = row + 1; row1 < cols; row1++)] with its [break]:
    [candidates] is what is left of [row + 1 .. cols - 1]. *)
Fixpoint find_pivot (rows : nat) (candidates : seq nat) (m : imatrix)
    (which : seq Z) (row : nat) : imatrix * seq Z :=
  match candidates with
  | [::] => (m, which)
  | row1 :: rest =>
      if (get m row1 row =? 1)%Z
      then (swap_rows rows m row row1, swap_which which row row1)
      else find_pivot rows rest m which row
  end.

(** [for (col = 0; col < 2 * rows; col++)
       m[row1][col] = (m[row1][col] + m[row][col]) % 2;] *)
Definition add_row (rows : nat) (m : imatrix) (row1 row : nat) : imatrix :=
  foldl (fun m col =>
           set m row1 col (Z.rem (get m row1 col + get m row col) 2))
        m (iota 0 (2 * rows)).

(** The "now eliminate" loop over [row1 = 0 .. cols - 1]. *)
Definition eliminate (rows cols : nat) (m : imatrix) (row : nat) : imatrix :=
  foldl (fun m row1 =>
           if row1 == row then m
           else if ~~ (get m row1 row =? 0)%Z then add_row rows m row1 row
           else m)
        m (iota 0 cols).

(** The search for a pivot at the top of the body of the [row] loop. *)
Definition choose_pivot (rows cols : nat) (m : imatrix) (which : seq Z)
    (row : nat) : imatrix * seq Z :=
  if ~~ (get m row row =? 1)%Z
  then find_pivot rows (iota row.+1 (cols - row.+1)) m which row
  else (m, which).

(** One pass through the body of [for (row = 0; row < rows; row++)]:
    [inl] when the body executes [*ok = 0; return;], [inr] when it reaches
    its end. *)
Definition pivot_step (rows cols : nat) (s : imatrix * seq Z) (row : nat)
  : (imatrix * seq Z) + (imatrix * seq Z) :=
  let s1 := choose_pivot rows cols s.1 s.2 row in
  if ~~ (get s1.1 row row =? 1)%Z then inl s1
  else
    let m2 := set s1.1 row (rows + row)
                  (Z.rem (get s1.1 row (rows + row) + 1) 2) in
    inr (eliminate rows cols m2 row, s1.2).

Fixpoint gj_loop (rows cols : nat) (todo : seq nat) (s : imatrix * seq Z)
  : imatrix * seq Z * Z :=
  match todo with
  | [::] => (s, 1%Z)
  | row :: rest =>
      match pivot_step rows cols s row with
      | inl s' => (s', 0%Z)
      | inr s' => gj_loop rows cols rest s'
      end
  end.

(** [void gauss_jordan(int rows, int cols, int m[174][2 * 91],
                       int which[91], int *ok)].
    The result is [None] when an [assert] fails, and otherwise what the call
    leaves in [m], [which] and [*ok]. *)
Definition gauss_jordan (rows cols : Z) (m : imatrix) (which : seq Z)
  : option (imatrix * seq Z * Z) :=
  if (rows =? 91)%Z && (cols =? 174)%Z
  then Some (gj_loop (Z.to_nat rows) (Z.to_nat cols)
                     (iota 0 (Z.to_nat rows)) (m, which))
  else None.

(** The matrix and [which] on entry to the body for [row = r], provided the
    bodies for [0 .. r - 1] all reached their end. *)
Fixpoint prefix_from (rows cols : nat) (todo : seq nat) (s : imatrix * seq Z)
  : option (imatrix * seq Z) :=
  match todo with
  | [::] => Some s
  | row :: rest =>
      match pivot_step rows cols s row with
      | inl _ => None
      | inr s' => prefix_from rows cols rest s'
      end
  end.

Definition at_step (r : nat) (m : imatrix) (which : seq Z)
  : option (imatrix * seq Z) :=
  prefix_from 91 174 (iota 0 r) (m, which).

Definition bit01 (v : Z) : bool := (v =? 0)%Z || (v =? 1)%Z.

(** Entries are bits; columns 91 .. 181 are zero. *)
Definition bit_matrix (m : imatrix) : bool := all (all bit01) m.

Definition right_half_zero (m : imatrix) : bool :=
  all (fun row => all (fun v => (v =? 0)%Z) (drop 91 row)) m.

(** A bit as an element of GF(2). *)
Definition gf2 (v : Z) : 'F_2 := if (v =? 0)%Z then 0%R else 1%R.

(** The n x n matrix made of columns 0 .. n - 1 of the rows of [m] listed by
    [pos], and the one made of columns n .. 2 n - 1 of rows 0 .. n - 1 of
    [m]. *)
Definition selected_left (n : nat) (m : imatrix) (pos : nat -> nat)
  : 'M['F_2]_n :=
  \matrix_(i, j) gf2 (get m (pos i) j).

Definition upper_right (n : nat) (m : imatrix) : 'M['F_2]_n :=
  \matrix_(i, j) gf2 (get m i (n + j)).

(** Exchange of two row indices. *)
Definition swap_idx (row row1 : nat) (r : nat) : nat :=
  if r == row then row1 else if r == row1 then row else r.

(** What the first [k] passes of the [row] loop have established, with
    [m0], [which0] the arrays on entry of the call and [pos r] the row of
    [m0] that row [r] of [m] started from:
    the entries are bits; columns [0 .. k - 1] of the left half are unit
    columns; columns [k ..] of the right half are still zero; the left half
    of every row is the combination of the chosen rows of [m0] that its
    right half spells out, plus its own source row while it has not been a
    pivot. *)
Record reduced (n cols k : nat) (m0 : imatrix) (which0 : seq Z)
    (m : imatrix) (which : seq Z) (pos : nat -> nat) : Prop := Reduced {
  red_bits : forall r c, bit01 (get m r c);
  red_left : forall r c, r < cols -> c < k ->
             gf2 (get m r c) = ((r == c)%:R)%R;
  red_right : forall r t, k <= t -> get m r (n + t) = 0%Z;
  red_comb : forall r j, r < cols -> j < n ->
             gf2 (get m r j) =
             (((k <= r)%:R * gf2 (get m0 (pos r) j))
              + \sum_(t < n) gf2 (get m r (n + t)) * gf2 (get m0 (pos t) j))%R;
  red_inj : injective pos;
  red_ran : forall r, r < cols -> pos r < cols;
  red_which : forall r, nth 0%Z which r = nth 0%Z which0 (pos r)
}.

(** Cells of the matrix outside rows [0 .. cols - 1] and columns
    [0 .. 2 n - 1], and entries of [which] from [cols] on, are as in [m0]
    and [which0]. *)
Definition outside_kept (n cols : nat) (m0 : imatrix) (which0 : seq Z)
    (s : imatrix * seq Z) : Prop :=
  (forall r c, (cols <= r) || (2 * n <= c) -> get s.1 r c = get m0 r c) /\
  (forall r, cols <= r -> nth 0%Z s.2 r = nth 0%Z which0 r).

(** Every row [0 .. cols - 1] of the left half of [m], as a vector over
    GF(2), is orthogonal to [x]. *)
Definition annihilates (n cols : nat) (m : imatrix) (x : nat -> 'F_2) : Prop :=
  forall r, r < cols -> (\sum_(j < n) gf2 (get m r j) * x j = 0)%R.

(** A small system in the format of [gauss_jordan]: rows 1 .. 90 of the
    left half are unit vectors, row 0 is [0 1 0 ... 0] and row 173 is
    [1 1 0 ... 0], so that the first pivot is borrowed from the last row
    and the second pass has to clear column 1 of row 0. *)
Definition example_matrix : imatrix :=
  [seq [seq if (r == 173) && (c < 2) then 1%Z
            else if (r == 0) && (c == 1) then 1%Z
            else if (0 < r) && (r < 91) && (c == r) then 1%Z
            else 0%Z
       | c <- iota 0 182]
  | r <- iota 0 174].

Definition example_which : seq Z := [seq Z.of_nat i | i <- iota 0 174].

(** The same with column 5 of the left half cleared: singular. *)
Definition example_singular : imatrix :=
  [seq [seq if c == 5 then 0%Z else nth 0%Z row c | c <- iota 0 182]
  | row <- example_matrix].

End GaussJordan.

(** ** Bit strings as polynomials over GF(2)

    The reading of the CRC in which "division leaves a zero remainder" is
    a statement about polynomials: the bit string b_0 b_1 ... b_(n-1)
    stands for b_0 x^(n-1) + ... + b_(n-1), and the remainder is that of
    the division of polynomials over GF(2).  Nothing here uses the long
    division of [ft8_crc] or its array [div]. *)

Module CrcSpec.

(** The first [n] cells of [b]: cell [p] is the coefficient of
    x^(n - 1 - p). *)
Definition poly_of_cells (n : nat) (b : seq Z) : {poly 'F_2} :=
  \poly_(k < n) GaussJordan.gf2 (nth 0%Z b (n - k.+1)).

Definition poly_of_bits (b : seq Z) : {poly 'F_2} :=
  poly_of_cells (size b) b.

(** 0x2757 with its leading 1, 110 0111 0101 0111:
    x^14 + x^13 + x^10 + x^9 + x^8 + x^6 + x^4 + x^2 + x + 1. *)
Definition generator : {poly 'F_2} :=
  ('X^14 + 'X^13 + 'X^10 + 'X^9 + 'X^8 + 'X^6 + 'X^4 + 'X^2 + 'X + 1)%R.

(** The remainder of the division of [b], as a polynomial, by the
    generator. *)
Definition remainder (b : seq Z) : {poly 'F_2} :=
  (poly_of_bits b %% generator)%R.

End CrcSpec.

Arguments ldpc_check : simpl never.
Arguments hard_prob : simpl never.
Arguments hard_log : simpl never.
Arguments iteration : simpl never.
Arguments iteration_log : simpl never.
Arguments probabilities : simpl never.
Arguments entry_state : simpl never.

(** * Properties *)

(** ** The trace monad *)

Section TraceFacts.
Variable R : Type.

Lemma bind_val T U (c : M R T) (k : T -> M R U) : (bind c k).1 = (k c.1).1.
Proof. by []. Qed.

Lemma bind_trace T U (c : M R T) (k : T -> M R U) :
  (bind c k).2 = c.2 ++ (k c.1).2.
Proof. by []. Qed.

Lemma mapM_size T U (f : U -> M R T) (s : seq U) : size (mapM f s).1 = size s.
Proof. by elim: s => [|x s IH] //=; rewrite IH. Qed.

Lemma is_some_exists T (o : option T) : isSome o -> exists x, o = Some x.
Proof. by case: o => [x|] // _; exists x. Qed.

End TraceFacts.

(** ** The parity score *)

Section CheckFacts.
Context {RA : RealArith}.
Variable Nm : seq (seq Z).

Lemma count_fold_bounds (test : nat -> bool) (s : seq nat) (score0 : Z) :
  let score := foldl (fun score j => if test j then (score + 1)%Z else score)
                     score0 s in
  (score0 <= score <= score0 + Z.of_nat (size s))%Z.
Proof.
elim: s score0 => [|j s IH] score0 /=; first by lia.
case: (test j); move: (IH (score0 + 1)%Z) (IH score0) => /=; lia.
Qed.

Lemma ldpc_check_bounds (codeword : seq Z) :
  (0 <= ldpc_check Nm codeword <= 83)%Z.
Proof.
have := count_fold_bounds
  (fun j => (foldl (fun x ii1 =>
               let i1 := (tbl Nm j ii1 - 1)%Z in
               if (0 <=? i1)%Z
               then Z.lxor x (nth 0%Z codeword (Z.to_nat i1))
               else x) 0%Z (iota 0 7) =? 0)%Z) (iota 0 83) 0%Z.
by rewrite size_iota.
Qed.

End CheckFacts.

(** ** The iteration loop, for any loop body that follows the pattern
       "hard decision, early exit, best-so-far" *)

Section LoopFacts.
Context {RA : RealArith}.
Variable Nm : seq (seq Z).
Variable body : state -> M REAL outcome.
Variable hard : state -> seq Z.

Hypothesis body_ok : body_spec Nm body hard.

Lemma run_S (n : nat) (st : state) :
  (run body n.+1 st).1 =
  match (body st).1 with
  | Return cw => (cw, 83%Z)
  | Continue st' => (run body n st').1
  end.
Proof. by rewrite /=; case: (body st) => [[cw|st'] t]. Qed.

Lemma run_early_exit (n k : nat) (st sk : state) :
  steps body k st = Some sk -> k < n ->
  ldpc_check Nm (hard sk) = 83%Z ->
  (run body n st).1 = (hard sk, 83%Z).
Proof.
elim: k n st => [|k IH] [|n] st //=.
  case=> -> _ H83.
  move: (body_ok sk); case: (body sk).1 => [cw [-> _]|st' [H _ _]] //.
case E: (body st).1 => [cw|st'] // Hk Hlt H83.
by rewrite (IH n st').
Qed.

Lemma run_exhausted (n : nat) (st sn : state) :
  steps body n st = Some sn ->
  (run body n st).1 = (best_cw sn, best_score sn).
Proof.
elim: n st => [|n IH] st /=; first by case=> ->.
by case E: (body st).1 => [cw|st'] // /IH.
Qed.

Lemma steps_last (k : nat) (st sk' : state) :
  steps body k.+1 st = Some sk' ->
  exists2 sk, steps body k st = Some sk & (body sk).1 = Continue sk'.
Proof.
elim: k st => [|k IH] st /=.
  by case E: (body st).1 => [cw|st'] // [<-]; exists st.
case E: (body st).1 => [cw|st'] // H.
by case: (IH st' H) => sk Hk Hb; exists sk.
Qed.

Lemma body_best_monotone (st st' : state) :
  (body st).1 = Continue st' -> (best_score st <= best_score st')%Z.
Proof.
move=> E; move: (body_ok st); rewrite E => -[_ _ ->].
rewrite /record_best_score.
by case: Z.gtb_spec; lia.
Qed.

Lemma body_best_is_max (st st' : state) :
  (body st).1 = Continue st' ->
  best_score st' = Z.max (best_score st) (ldpc_check Nm (hard st)).
Proof.
move=> E; move: (body_ok st); rewrite E => -[_ _ ->].
rewrite /record_best_score.
by case: Z.gtb_spec; lia.
Qed.

Lemma body_best_consistent (st st' : state) :
  (best_score st < 0)%Z \/ best_score st = ldpc_check Nm (best_cw st) ->
  (body st).1 = Continue st' ->
  best_score st' = ldpc_check Nm (best_cw st').
Proof.
move=> Hst E; move: (body_ok st); rewrite E => -[_ -> ->].
rewrite /record_best_cw /record_best_score.
case: Z.gtb_spec => // Hle.
case: Hst => // Hneg.
have := ldpc_check_bounds Nm (hard st); lia.
Qed.

Lemma run_ok_is_check (n : nat) (st : state) :
  (best_score st < 0)%Z \/ best_score st = ldpc_check Nm (best_cw st) ->
  (run body n.+1 st).1.2 = ldpc_check Nm (run body n.+1 st).1.1.
Proof.
elim: n st => [|n IH] st Hst; rewrite run_S;
  move: (body_ok st) (@body_best_consistent st);
  case: (body st).1 => [cw [_ H83]|st' _ H] /=; rewrite ?H83 //.
  exact: H.
by apply: IH; right; apply: H.
Qed.

Lemma run_83_is_valid (n : nat) (st : state) :
  (best_score st < 83)%Z ->
  (run body n st).1.2 = 83%Z -> ldpc_check Nm (run body n st).1.1 = 83%Z.
Proof.
elim: n st => [|n IH] st Hst; first by rewrite /=; lia.
rewrite run_S.
move: (body_ok st) (@body_best_is_max st).
case: (body st).1 => [cw [_ H83]|st' [Hne _ _] Hmax] //=.
apply: IH; rewrite (Hmax st') //.
have := ldpc_check_bounds Nm (hard st); lia.
Qed.

Lemma steps_best_is_max (n : nat) (st sn : state) :
  steps body n st = Some sn ->
  best_score sn =
  foldl Z.max (best_score st) [seq ldpc_check Nm cw | cw <- history body hard n st].
Proof.
elim: n st => [|n IH] st /=; first by case=> ->.
case E: (body st).1 => [cw|st'] // Hn.
by rewrite (IH st' Hn) (body_best_is_max E).
Qed.

Lemma history_size (n : nat) (st sn : state) :
  steps body n st = Some sn -> size (history body hard n st) = n.
Proof.
elim: n st => [|n IH] st //=.
by case E: (body st).1 => [cw|st'] // /IH ->.
Qed.

Lemma body_best_cases (st st' : state) :
  (body st).1 = Continue st' ->
  (best_cw st' = hard st /\ best_score st' = ldpc_check Nm (hard st)) \/
  (best_cw st' = best_cw st /\ best_score st' = best_score st).
Proof.
move=> E; move: (body_ok st); rewrite E => -[_ -> ->].
rewrite /record_best_cw /record_best_score.
by case: (_ >? _)%Z; [left | right].
Qed.

Lemma steps_best_origin (n : nat) (st sn : state) :
  steps body n st = Some sn ->
  (best_cw sn = best_cw st /\ best_score sn = best_score st) \/
  (exists k, [/\ k < n, best_cw sn = nth [::] (history body hard n st) k
              & best_score sn = ldpc_check Nm (best_cw sn)]).
Proof.
elim: n st => [|n IH] st /=; first by case=> ->; left.
case E: (body st).1 => [cw|st'] // Hn.
case: (IH st' Hn) => [[Ha Hb]|[k [Hk Hb Hs]]]; last first.
  by right; exists k.+1; split.
case: (body_best_cases E) => -[Hcw Hsc].
- right; exists 0; split=> //; first by rewrite Ha Hcw.
  by rewrite Hb Ha Hsc Hcw.
- by left; rewrite Ha Hb Hcw Hsc.
Qed.

Lemma steps_start_consistent (k : nat) (st sk : state) :
  (best_score st < 0)%Z \/ best_score st = ldpc_check Nm (best_cw st) ->
  steps body k st = Some sk ->
  (best_score sk < 0)%Z \/ best_score sk = ldpc_check Nm (best_cw sk).
Proof.
elim: k st => [|k IH] st Hst /=; first by case=> <-.
case E: (body st).1 => [cw|st'] // Hk.
by apply: (IH st') => //; right; apply: (body_best_consistent Hst E).
Qed.

Lemma steps_best_consistent (n : nat) (st sn : state) :
  (best_score st < 0)%Z \/ best_score st = ldpc_check Nm (best_cw st) ->
  steps body n.+1 st = Some sn ->
  best_score sn = ldpc_check Nm (best_cw sn).
Proof.
move=> Hst /steps_last [sk Hk Hb].
exact: (body_best_consistent (steps_start_consistent Hst Hk) Hb).
Qed.

End LoopFacts.

(** ** The two decoders *)

Section DecoderFacts.
Context {RA : RealArith}.
Variables Nm Mn : seq (seq Z).

Lemma iteration_spec (codeword : seq REAL) :
  body_spec Nm (iteration Nm Mn codeword) (hard_prob Nm Mn codeword).
Proof.
move=> st; rewrite /iteration /hard_prob.
move: (check_update _ _ _) => e.
case: (hard_decision Mn codeword e) => cw t.
case: (var_update Mn codeword e (st_m st)) => m t'.
rewrite /bind /ret.
move: (ldpc_check Nm) => check.
cbn [fst snd].
by case: Z.eqb_spec => [H83|Hne]; cbn [fst snd].
Qed.

Lemma iteration_log_spec (codeword : seq REAL) :
  body_spec Nm (iteration_log Nm Mn codeword) (hard_log Nm Mn codeword).
Proof.
move=> st; rewrite /iteration_log /hard_log.
case: (check_update_log _ _ _) => e t.
move: (hard_decision_log Mn codeword) => hd.
move: (var_update_log Mn codeword) => vu.
rewrite /bind /ret.
move: (ldpc_check Nm) => check.
cbn [fst snd].
by case: Z.eqb_spec => [H83|Hne]; cbn [fst snd].
Qed.

Lemma ldpc_decode_val (llr : seq REAL) (iters : Z) (best_cw0 : seq Z) :
  (ldpc_decode Nm Mn llr iters best_cw0).1 =
  (run (iteration Nm Mn (probabilities llr)) (Z.to_nat iters)
       (entry_state (probabilities llr) best_cw0)).1.
Proof. by []. Qed.

Lemma ldpc_decode_log_val (llr : seq REAL) (iters : Z) (best_cw0 : seq Z) :
  (ldpc_decode_log Nm Mn llr iters best_cw0).1 =
  (run (iteration_log Nm Mn llr) (Z.to_nat iters) (entry_state llr best_cw0)).1.
Proof. by []. Qed.

Lemma entry_state_unscored (codeword : seq REAL) (best_cw0 : seq Z) :
  (best_score (entry_state codeword best_cw0) < 0)%Z \/
  best_score (entry_state codeword best_cw0) =
  ldpc_check Nm (best_cw (entry_state codeword best_cw0)).
Proof. by left. Qed.

End DecoderFacts.

(** C1.  In both decoders, when the hard decision computed in iteration [k]
    (counting from 0, [k < iters], the iterations before it having run to
    the end of the body) passes all 83 parity checks, the call returns that
    very word with [ok = 83]; and whenever a call returns [ok = 83] the word
    it returns passes all 83 checks. *)
Theorem early_termination_is_sound
    (RA : RealArith) (Nm Mn : seq (seq Z)) (llr : seq REAL) (iters : Z)
    (best_cw0 : seq Z) :
  (forall k sk,
      (Z.of_nat k < iters)%Z ->
      steps (iteration Nm Mn (probabilities llr)) k
            (entry_state (probabilities llr) best_cw0) = Some sk ->
      ldpc_check Nm (hard_prob Nm Mn (probabilities llr) sk) = 83%Z ->
      (ldpc_decode Nm Mn llr iters best_cw0).1 =
      (hard_prob Nm Mn (probabilities llr) sk, 83%Z)) /\
  (forall k sk,
      (Z.of_nat k < iters)%Z ->
      steps (iteration_log Nm Mn llr) k (entry_state llr best_cw0) = Some sk ->
      ldpc_check Nm (hard_log Nm Mn llr sk) = 83%Z ->
      (ldpc_decode_log Nm Mn llr iters best_cw0).1 =
      (hard_log Nm Mn llr sk, 83%Z)) /\
  ((ldpc_decode Nm Mn llr iters best_cw0).1.2 = 83%Z ->
   ldpc_check Nm (ldpc_decode Nm Mn llr iters best_cw0).1.1 = 83%Z) /\
  ((ldpc_decode_log Nm Mn llr iters best_cw0).1.2 = 83%Z ->
   ldpc_check Nm (ldpc_decode_log Nm Mn llr iters best_cw0).1.1 = 83%Z).
Proof.
have lt_iters k : (Z.of_nat k < iters)%Z -> k < Z.to_nat iters.
  by move=> Hk; apply/ltP; lia.
split; [|split; [|split]].
- move=> k sk /lt_iters Hk Hsteps H83; rewrite ldpc_decode_val.
  exact: (run_early_exit (iteration_spec Nm Mn _) Hsteps Hk H83).
- move=> k sk /lt_iters Hk Hsteps H83; rewrite ldpc_decode_log_val.
  exact: (run_early_exit (iteration_log_spec Nm Mn _) Hsteps Hk H83).
- rewrite ldpc_decode_val.
  exact: (run_83_is_valid (iteration_spec Nm Mn _)).
- rewrite ldpc_decode_log_val.
  exact: (run_83_is_valid (iteration_log_spec Nm Mn _)).
Qed.

#[local] Existing Instance ExactQ.run_arith.

Lemma early_termination_is_sound_witness :
  (ldpc_check Toy.Nm
     (hard_prob (RA := ExactQ.run_arith) Toy.Nm Toy.Mn
        (probabilities Toy.llr_clean)
        (entry_state (probabilities Toy.llr_clean) [::])) = 83%Z /\
   (ldpc_decode (RA := ExactQ.run_arith) Toy.Nm Toy.Mn Toy.llr_clean 1 [::]).1 =
   (hard_prob Toy.Nm Toy.Mn (probabilities Toy.llr_clean)
      (entry_state (probabilities Toy.llr_clean) [::]), 83%Z)) /\
  (ldpc_check Toy.Nm
     (hard_log (RA := ExactQ.run_arith) Toy.Nm Toy.Mn Toy.llr_clean
        (entry_state Toy.llr_clean [::])) = 83%Z /\
   (ldpc_decode_log (RA := ExactQ.run_arith) Toy.Nm Toy.Mn Toy.llr_clean 1 [::]).1 =
   (hard_log Toy.Nm Toy.Mn Toy.llr_clean (entry_state Toy.llr_clean [::]),
    83%Z)).
Proof.
have Hp : ldpc_check Toy.Nm
     (hard_prob (RA := ExactQ.run_arith) Toy.Nm Toy.Mn
        (probabilities Toy.llr_clean)
        (entry_state (probabilities Toy.llr_clean) [::])) = 83%Z.
  by vm_compute.
have Hl : ldpc_check Toy.Nm
     (hard_log (RA := ExactQ.run_arith) Toy.Nm Toy.Mn Toy.llr_clean
        (entry_state Toy.llr_clean [::])) = 83%Z.
  by vm_compute.
have [T1 [T2 _]] :=
  @early_termination_is_sound ExactQ.run_arith Toy.Nm Toy.Mn Toy.llr_clean
                              1%Z [::].
split; split.
- exact: Hp.
- exact: (T1 0 _ (erefl _) (erefl _) Hp).
- exact: Hl.
- exact: (T2 0 _ (erefl _) (erefl _) Hl).
Defined.

(** C10.  With [iters >= 1] both decoders return with [*ok] equal to the
    parity score of the word they leave in [plain], whichever way they
    return; hence [0 <= *ok <= 83]. *)
Theorem ok_is_score_of_plain
    (RA : RealArith) (Nm Mn : seq (seq Z)) (llr : seq REAL) (iters : Z)
    (best_cw0 : seq Z) :
  (1 <= iters)%Z ->
  ((ldpc_decode Nm Mn llr iters best_cw0).1.2 =
   ldpc_check Nm (ldpc_decode Nm Mn llr iters best_cw0).1.1 /\
   (0 <= (ldpc_decode Nm Mn llr iters best_cw0).1.2 <= 83)%Z) /\
  ((ldpc_decode_log Nm Mn llr iters best_cw0).1.2 =
   ldpc_check Nm (ldpc_decode_log Nm Mn llr iters best_cw0).1.1 /\
   (0 <= (ldpc_decode_log Nm Mn llr iters best_cw0).1.2 <= 83)%Z).
Proof.
move=> Hiters.
have [n Hn] : exists n, Z.to_nat iters = n.+1.
  by exists (Z.to_nat iters).-1; lia.
have Hp := run_ok_is_check (iteration_spec Nm Mn (probabilities llr)) n
             (entry_state_unscored Nm (probabilities llr) best_cw0).
have Hl := run_ok_is_check (iteration_log_spec Nm Mn llr) n
             (entry_state_unscored Nm llr best_cw0).
rewrite ldpc_decode_val ldpc_decode_log_val Hn.
split; (split; [assumption|]).
- rewrite Hp; exact: ldpc_check_bounds.
- rewrite Hl; exact: ldpc_check_bounds.
Qed.

(** C2.  In both decoders the recorded best score never decreases from the
    entry of one iteration to the entry of the next; and when the budget
    is exhausted (all [iters] iterations reached the end of the body) the
    call returns the recorded best word with the recorded best score, that
    score is the maximum of -1 and the scores of the hard decisions of all
    iterations, and when at least one iteration ran the word is the hard
    decision of one of them and has that score. *)
Theorem best_so_far_is_monotone_and_returned
    (RA : RealArith) (Nm Mn : seq (seq Z)) (llr : seq REAL) (iters : Z)
    (best_cw0 : seq Z) :
  (forall k sk sk',
      steps (iteration Nm Mn (probabilities llr)) k
            (entry_state (probabilities llr) best_cw0) = Some sk ->
      steps (iteration Nm Mn (probabilities llr)) k.+1
            (entry_state (probabilities llr) best_cw0) = Some sk' ->
      (best_score sk <= best_score sk')%Z) /\
  (forall sn,
      steps (iteration Nm Mn (probabilities llr)) (Z.to_nat iters)
            (entry_state (probabilities llr) best_cw0) = Some sn ->
      [/\ (ldpc_decode Nm Mn llr iters best_cw0).1 = (best_cw sn, best_score sn),
          best_score sn =
          foldl Z.max (-1)%Z
            [seq ldpc_check Nm cw
            | cw <- history (iteration Nm Mn (probabilities llr))
                            (hard_prob Nm Mn (probabilities llr))
                            (Z.to_nat iters)
                            (entry_state (probabilities llr) best_cw0)]
        & (1 <= iters)%Z ->
          exists k,
            [/\ k < Z.to_nat iters,
                best_cw sn =
                nth [::] (history (iteration Nm Mn (probabilities llr))
                                  (hard_prob Nm Mn (probabilities llr))
                                  (Z.to_nat iters)
                                  (entry_state (probabilities llr) best_cw0)) k
              & best_score sn = ldpc_check Nm (best_cw sn)]]) /\
  (forall k sk sk',
      steps (iteration_log Nm Mn llr) k (entry_state llr best_cw0) = Some sk ->
      steps (iteration_log Nm Mn llr) k.+1 (entry_state llr best_cw0)
        = Some sk' ->
      (best_score sk <= best_score sk')%Z) /\
  (forall sn,
      steps (iteration_log Nm Mn llr) (Z.to_nat iters)
            (entry_state llr best_cw0) = Some sn ->
      [/\ (ldpc_decode_log Nm Mn llr iters best_cw0).1
          = (best_cw sn, best_score sn),
          best_score sn =
          foldl Z.max (-1)%Z
            [seq ldpc_check Nm cw
            | cw <- history (iteration_log Nm Mn llr) (hard_log Nm Mn llr)
                            (Z.to_nat iters) (entry_state llr best_cw0)]
        & (1 <= iters)%Z ->
          exists k,
            [/\ k < Z.to_nat iters,
                best_cw sn =
                nth [::] (history (iteration_log Nm Mn llr) (hard_log Nm Mn llr)
                                  (Z.to_nat iters) (entry_state llr best_cw0)) k
              & best_score sn = ldpc_check Nm (best_cw sn)]]).
Proof.
have mono body hard (st : state) :
    body_spec Nm body hard ->
    forall k sk sk', steps body k st = Some sk ->
                     steps body k.+1 st = Some sk' ->
                     (best_score sk <= best_score sk')%Z.
  move=> Hbody k sk sk' Hk /steps_last [sk0 Hk0 Hb].
  move: Hk0; rewrite Hk => -[E]; rewrite -E in Hb.
  exact: (body_best_monotone Hbody Hb).
have exhausted body hard (st sn : state) n :
    body_spec Nm body hard ->
    (best_score st < 0)%Z ->
    steps body n st = Some sn ->
    0 < n ->
    exists k, [/\ k < n, best_cw sn = nth [::] (history body hard n st) k
                & best_score sn = ldpc_check Nm (best_cw sn)].
  move=> Hbody Hneg Hn Hpos.
  case: (steps_best_origin Hbody Hn) => [[_ Hsc]|//].
  case: n Hn Hpos => [|n] // Hn _.
  have := steps_best_consistent Hbody (or_introl Hneg) Hn.
  have := ldpc_check_bounds Nm (best_cw sn).
  lia.
have pos : (1 <= iters)%Z -> 0 < Z.to_nat iters by move=> H; apply/ltP; lia.
split; first exact: (mono _ _ _ (iteration_spec Nm Mn _)).
split.
  move=> sn Hn; split.
  - rewrite ldpc_decode_val.
    exact: (run_exhausted Hn).
  - exact: (steps_best_is_max (iteration_spec Nm Mn _) Hn).
  - by move=> /pos; apply: (exhausted _ _ _ _ _ (iteration_spec Nm Mn _) _ Hn).
split; first exact: (mono _ _ _ (iteration_log_spec Nm Mn _)).
move=> sn Hn; split.
- rewrite ldpc_decode_log_val.
  exact: (run_exhausted Hn).
- exact: (steps_best_is_max (iteration_log_spec Nm Mn _) Hn).
- by move=> /pos; apply: (exhausted _ _ _ _ _ (iteration_log_spec Nm Mn _) _ Hn).
Qed.

(** C3.  With an iteration budget of 0 the loop body never runs and no hard
    decision is computed: [*ok] receives -1, which is not a number of parity
    checks, and [plain] receives whatever the stack slot of [best_cw] held,
    here 174 sevens.  The sign decode of the input passes 48 checks. *)
Lemma zero_budget_returns_no_decode :
  [/\ (ldpc_decode_log Toy.Nm Toy.Mn Toy.llr_noisy 0 (nseq 174 7%Z)).1
      = (nseq 174 7%Z, (-1)%Z),
      (ldpc_decode Toy.Nm Toy.Mn Toy.llr_noisy 0 (nseq 174 7%Z)).1
      = (nseq 174 7%Z, (-1)%Z),
      ldpc_check Toy.Nm (sign_decode Toy.llr_noisy) = 48%Z
    & (ldpc_decode_log Toy.Nm Toy.Mn Toy.llr_noisy 0 (nseq 174 7%Z)).1.1
      <> sign_decode Toy.llr_noisy].
Proof. by split; vm_compute. Qed.

Lemma ok_is_score_of_plain_witness :
  (1 <= 1)%Z /\
  ((ldpc_decode Toy.Nm Toy.Mn Toy.llr_noisy 1 [::]).1.2 =
   ldpc_check Toy.Nm (ldpc_decode Toy.Nm Toy.Mn Toy.llr_noisy 1 [::]).1.1 /\
   (0 <= (ldpc_decode Toy.Nm Toy.Mn Toy.llr_noisy 1 [::]).1.2 <= 83)%Z) /\
  ((ldpc_decode_log Toy.Nm Toy.Mn Toy.llr_noisy 1 [::]).1.2 =
   ldpc_check Toy.Nm (ldpc_decode_log Toy.Nm Toy.Mn Toy.llr_noisy 1 [::]).1.1 /\
   (0 <= (ldpc_decode_log Toy.Nm Toy.Mn Toy.llr_noisy 1 [::]).1.2 <= 83)%Z).
Proof.
split; first exact: Z.le_refl.
exact: (@ok_is_score_of_plain ExactQ.run_arith Toy.Nm Toy.Mn Toy.llr_noisy
          1%Z [::] (Z.le_refl 1)).
Defined.

Lemma best_so_far_is_monotone_and_returned_witness :
  (exists sn,
     [/\ steps (iteration Toy.Nm Toy.Mn (probabilities Toy.llr_noisy)) (Z.to_nat 1)
               (entry_state (probabilities Toy.llr_noisy) [::]) = Some sn,
         (ldpc_decode Toy.Nm Toy.Mn Toy.llr_noisy 1 [::]).1
         = (best_cw sn, best_score sn)
       & (-1 <= best_score sn)%Z]) /\
  (exists sn,
     [/\ steps (iteration_log Toy.Nm Toy.Mn Toy.llr_noisy) (Z.to_nat 1)
               (entry_state Toy.llr_noisy [::]) = Some sn,
         (ldpc_decode_log Toy.Nm Toy.Mn Toy.llr_noisy 1 [::]).1
         = (best_cw sn, best_score sn)
       & (-1 <= best_score sn)%Z]).
Proof.
have [M1 [E1 [M2 E2]]] :=
  @best_so_far_is_monotone_and_returned ExactQ.run_arith Toy.Nm Toy.Mn
    Toy.llr_noisy 1%Z [::].
have Hp : isSome (steps (iteration Toy.Nm Toy.Mn (probabilities Toy.llr_noisy))
                        (Z.to_nat 1)
                        (entry_state (probabilities Toy.llr_noisy) [::])).
  by vm_compute.
have Hl : isSome (steps (iteration_log Toy.Nm Toy.Mn Toy.llr_noisy)
                        (Z.to_nat 1) (entry_state Toy.llr_noisy [::])).
  by vm_compute.
split.
- have [sn E] := is_some_exists Hp.
  exists sn; case: (E1 sn E) => R _ _; split; [exact: E | exact: R |].
  exact: (M1 0 _ sn (erefl _) E).
- have [sn E] := is_some_exists Hl.
  exists sn; case: (E2 sn E) => R _ _; split; [exact: E | exact: R |].
  exact: (M2 0 _ sn (erefl _) E).
Defined.

(** ** CRC-14 *)

Section CrcFacts.
Import Crc.

Lemma is_bitP (v : Z) : is_bit v -> bit v.
Proof.
by rewrite /is_bit => /orP [/Z.eqb_spec ->|/Z.eqb_spec ->]; [left|right].
Qed.

Lemma div_bit (j : nat) : bit (nth 0%Z div j).
Proof.
by do 15 (case: j => [|j]; [by vm_compute; auto|]); rewrite /= nth_nil; left.
Qed.

Lemma nth_foldl_xor (msg : seq Z) (i k p : nat) :
  nth 0%Z
    (foldl (fun msg j =>
              set_nth 0%Z msg (i + j)
                      (Z.rem (nth 0%Z msg (i + j) + nth 0%Z div j) 2))
           msg (iota 0 k)) p =
  if (i <= p) && (p < i + k)
  then Z.rem (nth 0%Z msg p + nth 0%Z div (p - i)) 2
  else nth 0%Z msg p.
Proof.
elim: k p => [|k IH] p.
  by rewrite addn0 /=; case: (leqP i p) => //; rewrite ?andbF.
rewrite -addn1 iotaD foldl_cat /= add0n nth_set_nth /= !IH addnA addn1 ltnS.
case: (eqVneq p (i + k)) => [->|Hne].
  by rewrite leq_addr leqnn ltnn andbF addKn.
by rewrite [p <= i + k]leq_eqVlt (negbTE Hne).
Qed.

Lemma nth_xor_div (msg : seq Z) (i p : nat) :
  nth 0%Z (xor_div msg i) p =
  if (i <= p) && (p < i + 15)
  then Z.rem (nth 0%Z msg p + nth 0%Z div (p - i)) 2
  else nth 0%Z msg p.
Proof. exact: nth_foldl_xor. Qed.

Lemma nth_append_zeros (msg : seq Z) (N p : nat) :
  nth 0%Z (append_zeros msg N) p = if p < N then nth 0%Z msg p else 0%Z.
Proof.
rewrite /append_zeros -/(mkseq _ _).
case: (ltnP p (N + 14)) => Hp; first by rewrite nth_mkseq.
rewrite nth_default ?size_mkseq //.
by rewrite ltnNge (leq_trans (leq_addr 14 N) Hp).
Qed.

Lemma step_bits (b : seq Z) (i : nat) : bits b -> bits (step b i).
Proof.
move=> Hb p; rewrite /step; case: ifP => _ //.
rewrite nth_xor_div; case: ifP => _ //.
by case: (Hb p) (div_bit (p - i)) => -> [] ->; vm_compute; auto.
Qed.

Section Linearity.
Variable N : nat.
Variable d : nat -> Z.
Hypothesis d_bit : forall p, bit (d p).
Hypothesis d_low : forall p, p < N -> d p = 0%Z.

Lemma step_offset (b b' : seq Z) (i : nat) :
  i < N -> bits b -> offset_by d b b' -> offset_by d (step b i) (step b' i).
Proof.
move=> Hi Hb Hr p; rewrite /step (Hr i) (d_low Hi).
have -> : Z.rem (nth 0%Z b i + 0) 2 = nth 0%Z b i by case: (Hb i) => ->.
case: ifP => _ //.
rewrite !nth_xor_div (Hr p); case: ifP => _ //.
by case: (Hb p) (d_bit p) (div_bit (p - i)) => -> [] -> [] ->.
Qed.

Lemma sweep_offset (s : seq nat) (b b' : seq Z) :
  all (fun i => i < N) s -> bits b -> offset_by d b b' ->
  offset_by d (foldl step b s) (foldl step b' s) /\ bits (foldl step b s).
Proof.
elim: s b b' => [|i s IH] b b' //= /andP [Hi Hs] Hb Hr.
by apply: IH => //; [exact: step_bits | exact: step_offset].
Qed.

End Linearity.

Lemma sweep_bits (b : seq Z) (N : nat) : bits b -> bits (sweep b N).
Proof.
rewrite /sweep; elim: (iota 0 N) b => [|i s IH] b //= Hb.
by apply: IH; exact: step_bits.
Qed.

End CrcFacts.

(** C9 as the specification states it fails: the CRC of a 1 followed by 76
    zeros is not the bit string the specification lists. *)
Lemma crc_of_leading_one_is_not_generator :
  Crc.ft8_crc (1%Z :: nseq 76 0%Z) 77
    <> [:: 0; 0; 1; 0; 0; 1; 1; 1; 0; 1; 0; 1; 1; 1]%Z.
Proof. by vm_compute. Qed.

(** C9, as the code has it.  The CRC of the 77-bit message made of a 1
    followed by 76 zeros is the remainder of x^90 by the generator,
    0 1 1 0 0 0 1 0 0 0 1 0 1 0; the 14 low bits of the generator,
    1 0 0 1 1 1 0 1 0 1 0 1 1 1 (0x2757), are the CRC of the message whose
    single 1 is in the last position. *)
Theorem crc_of_unit_messages :
  Crc.ft8_crc (1%Z :: nseq 76 0%Z) 77
    = [:: 0; 1; 1; 0; 0; 0; 1; 0; 0; 0; 1; 0; 1; 0]%Z /\
  Crc.ft8_crc (nseq 76 0%Z ++ [:: 1%Z]) 77
    = [:: 1; 0; 0; 1; 1; 1; 0; 1; 0; 1; 0; 1; 1; 1]%Z /\
  Crc.ft8_crc (nseq 76 0%Z ++ [:: 1%Z]) 77 = behead Crc.div.
Proof. by vm_compute. Qed.

(** ** [fast_tanh] *)

Section FastTanhFacts.
Import ExactQ.
Local Open Scope Q_scope.

Lemma fast_tanh_val (RA : RealArith) (x : REAL) :
  (fast_tanh x).1 =
  if rlt x (rlit (- (76 # 10)))
  then rlit (- (999 # 1000))
  else if rlt (rlit (76 # 10)) x
       then rlit (999 # 1000)
       else rdiv (fast_tanh_ratio x).1 (fast_tanh_ratio x).2.
Proof.
unfold fast_tanh.
destruct (rlt x (rlit (- (76 # 10)))); [reflexivity|].
destruct (rlt (rlit (76 # 10)) x); reflexivity.
Qed.

Lemma exact_rlt (qexp qlog : Q -> Q) (x y : Q) :
  rlt (RealArith := arith qexp qlog) x y = true <-> x < y.
Proof.
change (negb (Qle_bool y x) = true <-> x < y).
destruct (Qle_bool y x) eqn:E; simpl.
- apply Qle_bool_iff in E; split; [discriminate | intro H; exfalso; lra].
- split; [intros _ | reflexivity].
  apply Qnot_le_lt; intro H; apply Qle_bool_iff in H; congruence.
Qed.

Lemma exact_ratio (qexp qlog : Q -> Q) (x : Q) :
  (fast_tanh_ratio (RA := arith qexp qlog) x).1 == pade_num x /\
  (fast_tanh_ratio (RA := arith qexp qlog) x).2 == pade_den x.
Proof.
unfold pade_num, pade_den.
cbv beta iota zeta delta [fast_tanh_ratio radd rmul rlit arith fst snd].
repeat setoid_rewrite Qred_correct.
split; reflexivity.
Qed.

Lemma pade_den_pos (x : Q) : 0 < pade_den x.
Proof.
unfold pade_den.
assert (H : 0 <= x * x) by nra.
assert (H1 : 0 <= x * x * 28) by nra.
assert (H2 : 0 <= x * x * (3150 + x * x * 28)) by nra.
assert (H3 : 0 <= x * x * (62370 + x * x * (3150 + x * x * 28))) by nra.
lra.
Qed.

Lemma pade_num_le (x : Q) :
  0 <= x <= 379 # 100 -> pade_num x <= (999 # 1000) * pade_den x.
Proof.
intros [Hx0 Hx1].
remember (100 * x) as u eqn:Eu.
remember (379 - 100 * x) as v eqn:Ev.
assert (Hu : 0 <= u) by (subst u; lra).
assert (Hv : 0 <= v) by (subst v; lra).
assert (Hid : 561622468602345129500000000000000
              * ((999 # 1000) * pade_den x - pade_num x) ==
    67499932500000000000 * (v * v * v * v * v * v * v) +
    216418702500000000000 * (u * v * v * v * v * v * v) +
    328510146541500000000 * (u * u * v * v * v * v * v) +
    287181861120000000000 * (u * u * u * v * v * v * v) +
    154143031834874250000 * (u * u * u * u * v * v * v) +
    47863081647331650000 * (u * u * u * u * u * v * v) +
    6936872581656111906 * (u * u * u * u * u * u * v) +
    10113504675260611 * (u * u * u * u * u * u * u)).
{ subst u v; unfold pade_den, pade_num; ring. }
assert (P : forall a b, 0 <= a -> 0 <= b -> 0 <= a * b)
  by (intros; apply Qmult_le_0_compat; assumption).
assert (M0 : 0 <= v * v * v * v * v * v * v) by (repeat apply P; assumption).
assert (M1 : 0 <= u * v * v * v * v * v * v) by (repeat apply P; assumption).
assert (M2 : 0 <= u * u * v * v * v * v * v) by (repeat apply P; assumption).
assert (M3 : 0 <= u * u * u * v * v * v * v) by (repeat apply P; assumption).
assert (M4 : 0 <= u * u * u * u * v * v * v) by (repeat apply P; assumption).
assert (M5 : 0 <= u * u * u * u * u * v * v) by (repeat apply P; assumption).
assert (M6 : 0 <= u * u * u * u * u * u * v) by (repeat apply P; assumption).
assert (M7 : 0 <= u * u * u * u * u * u * u) by (repeat apply P; assumption).
revert Hid M0 M1 M2 M3 M4 M5 M6 M7.
generalize (v * v * v * v * v * v * v) (u * v * v * v * v * v * v)
  (u * u * v * v * v * v * v) (u * u * u * v * v * v * v)
  (u * u * u * u * v * v * v) (u * u * u * u * u * v * v)
  (u * u * u * u * u * u * v) (u * u * u * u * u * u * u)
  (pade_den x) (pade_num x).
intros; lra.
Qed.

Lemma pade_odd (x : Q) :
  pade_num (- x) == - pade_num x /\ pade_den (- x) == pade_den x.
Proof. unfold pade_num, pade_den; split; ring. Qed.

Lemma pade_num_nonneg (x : Q) : 0 <= x -> 0 <= pade_num x.
Proof.
intro Hx; unfold pade_num.
assert (H : 0 <= x * x) by nra.
assert (H1 : 0 <= x * x * (378 + x * x)) by nra.
assert (H2 : 0 <= x * x * (17325 + x * x * (378 + x * x))) by nra.
apply Qmult_le_0_compat; lra.
Qed.

End FastTanhFacts.

Ltac case_guard E :=
  match goal with
  | |- context [if ?b then _ else _] => destruct b eqn:E
  end.

Section Binary32Facts.

Lemma SFcompare_none (a b : spec_float) :
  SFcompare a b = None -> a = S754_nan \/ b = S754_nan.
Proof.
by case: a => [s|s||s m e]; case: b => [s'|s'||s' m' e'] //=; auto.
Qed.

Lemma SFcompare_antisym (a b : spec_float) :
  SFcompare b a = option_map CompOpp (SFcompare a b).
Proof.
case: a => [s|s||s m e]; case: b => [s'|s'||s' m' e'] //=;
  try (by case: s; case: s'); try (by case: s); try (by case: s').
case: s; case: s' => //=; rewrite (Z.compare_antisym e' e).
- case: (e' ?= e)%Z => //=.
  by rewrite CompOpp_involutive (Pos.compare_cont_antisym m' m Eq).
- case: (e' ?= e)%Z => //=.
  by rewrite -(Pos.compare_cont_antisym m m' Eq).
Qed.

(** For numbers, "not [b <= a]" is "[a < b]". *)
Lemma SFleb_false (a b : spec_float) :
  a <> S754_nan -> b <> S754_nan -> SFleb b a = false -> SFltb a b = true.
Proof.
move=> Ha Hb; rewrite /SFleb /SFltb SFcompare_antisym.
case E: (SFcompare a b) => [[]|] //=.
by case: (SFcompare_none E).
Qed.

Lemma SFeqb_zero (q0 : spec_float) (s : bool) :
  SFeqb q0 (S754_zero false) = false -> q0 <> S754_zero s.
Proof. by case: q0. Qed.

End Binary32Facts.

Section Binary32Tanh.

Lemma literals32 :
  [/\ Binary32.of_Q (76 # 10) = S754_finite false 15938355 (-21),
      Binary32.of_Q (- (76 # 10)) = S754_finite true 15938355 (-21),
      Binary32.of_Q (999 # 1000) = S754_finite false 16760439 (-24)
    & Binary32.of_Q (- (999 # 1000)) = S754_finite true 16760439 (-24)].
Proof. by split; vm_compute. Qed.

Lemma above_is_not_below (x : spec_float) :
  SFltb (S754_finite false 15938355 (-21)) x = true ->
  SFltb x (S754_finite true 15938355 (-21)) = false.
Proof. by case: x => [s|[]||[] m e]. Qed.

End Binary32Tanh.

(** C7, as the code has it, in [float] arithmetic.  [fast_tanh] returns
    -0.999 for every x < -7.6 and 0.999 for every x > 7.6, the literals
    being rounded to [float]: 7.6 is 15938355 / 2^21 and 0.999 is
    16760439 / 2^24, a little more than 0.999.  Otherwise, also when x is a
    NaN, it returns the quotient of the two polynomials as [float]
    arithmetic evaluates them.  Nothing confines that quotient to
    [-0.999, 0.999]. *)
Theorem fast_tanh_piecewise
    (libm_exp libm_log : spec_float -> spec_float) (x : spec_float) :
  (SFltb x (S754_finite true 15938355 (-21)) = true ->
   (fast_tanh (RA := Binary32.arith libm_exp libm_log) x).1
   = S754_finite true 16760439 (-24)) /\
  (SFltb (S754_finite false 15938355 (-21)) x = true ->
   (fast_tanh (RA := Binary32.arith libm_exp libm_log) x).1
   = S754_finite false 16760439 (-24)) /\
  (SFltb x (S754_finite true 15938355 (-21)) = false ->
   SFltb (S754_finite false 15938355 (-21)) x = false ->
   (fast_tanh (RA := Binary32.arith libm_exp libm_log) x).1
   = let x2 := SFmul 24 128 x x in
     SFdiv 24 128
       (SFmul 24 128 x
          (SFadd 24 128 (Binary32.of_Z 135135)
             (SFmul 24 128 x2
                (SFadd 24 128 (Binary32.of_Z 17325)
                   (SFmul 24 128 x2 (SFadd 24 128 (Binary32.of_Z 378) x2))))))
       (SFadd 24 128 (Binary32.of_Z 135135)
          (SFmul 24 128 x2
             (SFadd 24 128 (Binary32.of_Z 62370)
                (SFmul 24 128 x2
                   (SFadd 24 128 (Binary32.of_Z 3150)
                      (SFmul 24 128 x2 (Binary32.of_Z 28)))))))) /\
  [/\ Binary32.of_Q (- (76 # 10)) = S754_finite true 15938355 (-21),
      Binary32.of_Q (76 # 10) = S754_finite false 15938355 (-21),
      Binary32.value (S754_finite false 15938355 (-21))
      = Some (15938355 # 2097152)%Q,
      Binary32.value (S754_finite false 16760439 (-24))
      = Some (16760439 # 16777216)%Q
    & (999 # 1000 < 16760439 # 16777216)%Q].
Proof.
have [L1 L2 L3 L4] := literals32.
have Hval := @fast_tanh_val (Binary32.arith libm_exp libm_log) x.
move: Hval; rewrite /rlt /rlit /rdiv /= L1 L2 L3 L4 => Hval.
split; first by move=> H; rewrite Hval H.
split; first by move=> H; rewrite Hval (above_is_not_below H) H.
split; last by split; vm_compute.
by move=> H1 H2; rewrite Hval H1 H2.
Qed.

Lemma fast_tanh_piecewise_witness :
  (SFltb (Binary32.of_Q (- 8)) (S754_finite true 15938355 (-21)) = true /\
   (fast_tanh (RA := Binary32.run_arith) (Binary32.of_Q (- 8))).1
   = S754_finite true 16760439 (-24)) /\
  (SFltb (S754_finite false 15938355 (-21)) (Binary32.of_Q 8) = true /\
   (fast_tanh (RA := Binary32.run_arith) (Binary32.of_Q 8)).1
   = S754_finite false 16760439 (-24)) /\
  (SFltb (Binary32.of_Q 1) (S754_finite true 15938355 (-21)) = false /\
   SFltb (S754_finite false 15938355 (-21)) (Binary32.of_Q 1) = false /\
   (fast_tanh (RA := Binary32.run_arith) (Binary32.of_Q 1)).1
   = let x2 := SFmul 24 128 (Binary32.of_Q 1) (Binary32.of_Q 1) in
     SFdiv 24 128
       (SFmul 24 128 (Binary32.of_Q 1)
          (SFadd 24 128 (Binary32.of_Z 135135)
             (SFmul 24 128 x2
                (SFadd 24 128 (Binary32.of_Z 17325)
                   (SFmul 24 128 x2 (SFadd 24 128 (Binary32.of_Z 378) x2))))))
       (SFadd 24 128 (Binary32.of_Z 135135)
          (SFmul 24 128 x2
             (SFadd 24 128 (Binary32.of_Z 62370)
                (SFmul 24 128 x2
                   (SFadd 24 128 (Binary32.of_Z 3150)
                      (SFmul 24 128 x2 (Binary32.of_Z 28)))))))).
Proof.
have H1 : SFltb (Binary32.of_Q (- 8)) (S754_finite true 15938355 (-21)) = true.
  by vm_compute.
have H2 : SFltb (S754_finite false 15938355 (-21)) (Binary32.of_Q 8) = true.
  by vm_compute.
have H3 : SFltb (Binary32.of_Q 1) (S754_finite true 15938355 (-21)) = false.
  by vm_compute.
have H4 : SFltb (S754_finite false 15938355 (-21)) (Binary32.of_Q 1) = false.
  by vm_compute.
split; [|split].
- split; first exact: H1.
  exact: (proj1 (fast_tanh_piecewise (fun x => x) (fun x => x)
                   (Binary32.of_Q (- 8))) H1).
- split; first exact: H2.
  exact: (proj1 (proj2 (fast_tanh_piecewise (fun x => x)
                          (fun x => x) (Binary32.of_Q 8))) H2).
- split; [exact: H3 | split; first exact: H4].
  exact: (proj1 (proj2 (proj2 (fast_tanh_piecewise (fun x => x)
                                 (fun x => x) (Binary32.of_Q 1)))) H3 H4).
Defined.

(** C7 as the specification states it fails: 7 lies between -7.6 and 7.6,
    and there [fast_tanh] returns 14065009 / 14048587 rounded to [float],
    which is 4199207 / 2^22, above 0.999 (and above 1).  Numerator and
    denominator are computed without rounding error; in exact arithmetic
    the quotient is 2009287 / 2006941. *)
Lemma fast_tanh_exceeds_bound_at_7 :
  [/\ SFltb (Binary32.of_Q 7) (Binary32.of_Q (- (76 # 10))) = false,
      SFltb (Binary32.of_Q (76 # 10)) (Binary32.of_Q 7) = false,
      fast_tanh (RA := Binary32.run_arith) (Binary32.of_Q 7)
      = (S754_finite false 8398414 (-23),
         [:: EvDiv SiteTanh (Binary32.of_Z 14065009) (Binary32.of_Z 14048587)]),
      Binary32.value (S754_finite false 8398414 (-23))
      = Some (4199207 # 4194304)%Q
    & (999 # 1000 < 4199207 # 4194304)%Q] /\
  (fast_tanh (RA := ExactQ.run_arith) 7%Q).1 = (2009287 # 2006941)%Q /\
  ~ (- (999 # 1000) <= (fast_tanh (RA := ExactQ.run_arith) 7%Q).1
     <= 999 # 1000)%Q.
Proof.
split; first by split; vm_compute.
assert (E : (fast_tanh (RA := ExactQ.run_arith) 7%Q).1
            = (2009287 # 2006941)%Q) by (vm_compute; reflexivity).
split; [exact E|].
rewrite E; intros [_ H]; revert H; vm_compute; intro H; apply H; reflexivity.
Qed.

(** ** Traces: where divisions and logarithms are executed *)

Section TraceInvariants.
Variable R : Type.
Variable P : event R -> Prop.

Lemma trace_ret T (x : T) : List.Forall P (ret (R := R) x).2.
Proof. by constructor. Qed.

Lemma trace_emit T (ev : event R) (x : T) : P ev -> List.Forall P (emit ev x).2.
Proof. by move=> H; constructor. Qed.

Lemma trace_bind T U (c : M R T) (k : T -> M R U) :
  List.Forall P c.2 -> List.Forall P (k c.1).2 -> List.Forall P (bind c k).2.
Proof. by move=> Hc Hk; rewrite bind_trace; apply/List.Forall_app. Qed.

Lemma foldM_invariant T U (Inv : T -> Prop) (f : T -> U -> M R T)
    (a : T) (s : seq U) :
  Inv a ->
  (forall a x, Inv a -> Inv (f a x).1 /\ List.Forall P (f a x).2) ->
  Inv (foldM f a s).1 /\ List.Forall P (foldM f a s).2.
Proof.
move=> Ha Hf; elim: s a Ha => [|x s IH] a Ha; first by split=> //; constructor.
have [H1 H2] := Hf a x Ha.
have [H3 H4] := IH _ H1.
by split; [exact: H3 | apply: trace_bind].
Qed.

Lemma mapM_invariant T U (Q : T -> Prop) (f : U -> M R T) (s : seq U) :
  (forall x, Q (f x).1 /\ List.Forall P (f x).2) ->
  List.Forall Q (mapM f s).1 /\ List.Forall P (mapM f s).2.
Proof.
move=> Hf; elim: s => [|x s [IH1 IH2]]; first by split; constructor.
have [H1 H2] := Hf x.
split; first by constructor.
apply: trace_bind => //; apply: trace_bind => //; exact: trace_ret.
Qed.

End TraceInvariants.

Section RunInvariant.
Context {RA : RealArith}.
Variable P : event REAL -> Prop.
Variable Inv : state -> Prop.
Variable body : state -> M REAL outcome.

Hypothesis body_inv :
  forall st, Inv st ->
    List.Forall P (body st).2 /\
    match (body st).1 with Continue st' => Inv st' | Return _ => True end.

Lemma run_invariant (n : nat) (st : state) :
  Inv st -> List.Forall P (run body n st).2.
Proof.
elim: n st => [|n IH] st Hst; first exact: trace_ret.
have [Ht Hnext] := body_inv Hst.
rewrite [run _ _ _]/=; apply: trace_bind => //.
case: (body st).1 Hnext => [cw _|st' Hst']; first exact: trace_ret.
exact: IH.
Qed.

End RunInvariant.

Lemma run_trace (RA : RealArith) (P : event REAL -> Prop)
    (body : state -> M REAL outcome) (n : nat) (st : state) :
  (forall st, List.Forall P (body st).2) -> List.Forall P (run body n st).2.
Proof.
move=> Hbody.
apply: (@run_invariant _ P (fun _ => True)) => // st' _; split=> //.
by case: (body st').1.
Qed.

(** *** The trace of the LLR decoder, from the traces of its leaves *)

Section LogTrace.
Context {RA : RealArith}.
Variables Nm Mn : seq (seq Z).
Variable P : event REAL -> Prop.

Hypothesis half_ok : forall x, P (EvDiv SiteHalf x (rlit 2%Q)).
Hypothesis tanh_ok : forall x, List.Forall P (fast_tanh x).2.
Hypothesis message_ok : forall a, List.Forall P (check_message a).2.

Lemma tanh_product_trace (m : matrix) (j : nat) (i1 : Z) :
  List.Forall P (tanh_product Nm m j i1).2.
Proof.
rewrite /tanh_product.
set f := (f in foldM f _ _).
have [] := @foldM_invariant _ P _ _ (fun _ => True) f (rlit 1%Q) (iota 0 7) => //.
move=> a ii2 _; split=> //; rewrite /f.
case: (_ && _); last exact: trace_ret.
apply: trace_bind; first exact: trace_emit.
apply: trace_bind; [exact: tanh_ok | exact: trace_ret].
Qed.

Lemma check_update_log_trace (m e : matrix) :
  List.Forall P (check_update_log Nm m e).2.
Proof.
rewrite /check_update_log.
set f := (f in foldM f _ _).
have [] := @foldM_invariant _ P _ _ (fun _ => True) f e (iota 0 83) => //.
move=> e1 j _; split=> //; rewrite /f.
set g := (g in foldM g _ _).
have [] := @foldM_invariant _ P _ _ (fun _ => True) g e1 (iota 0 7) => //.
move=> e2 ii1 _; split=> //; rewrite /g.
case: (_ <? _)%Z; first exact: trace_ret.
apply: trace_bind; first exact: tanh_product_trace.
apply: trace_bind; [exact: message_ok | exact: trace_ret].
Qed.

Lemma iteration_log_trace (codeword : seq REAL) (st : state) :
  List.Forall P (iteration_log Nm Mn codeword st).2.
Proof.
rewrite /iteration_log.
apply: trace_bind; first exact: check_update_log_trace.
move: (ldpc_check Nm) => check.
case: (_ =? _)%Z; exact: trace_ret.
Qed.

Lemma ldpc_decode_log_trace (llr : seq REAL) (iters : Z) (best_cw0 : seq Z) :
  List.Forall P (ldpc_decode_log Nm Mn llr iters best_cw0).2.
Proof. exact: (run_trace _ _ (iteration_log_trace llr)). Qed.

End LogTrace.

(** *** The guards, for any arithmetic *)

Section GuardFacts.
Context {RA : RealArith}.
Variables Nm Mn : seq (seq Z).

Local Notation G := (@guard_respected RA).

Lemma posterior_guard (q0 q1 : REAL) : List.Forall G (posterior q0 q1).2.
Proof.
rewrite /posterior; case E: (req q0 _); first exact: trace_ret.
apply: trace_bind; first exact: trace_emit.
exact: trace_emit.
Qed.

Lemma fast_tanh_guard (x : REAL) : List.Forall G (fast_tanh x).2.
Proof.
rewrite /fast_tanh; case: (rlt x _); first exact: trace_ret.
case: (rlt _ x); first exact: trace_ret.
exact: trace_emit.
Qed.

Lemma check_message_guard (a : REAL) : List.Forall G (check_message a).2.
Proof.
rewrite /check_message; case E1: (rle _ a); first exact: trace_ret.
case E2: (rle a _); first exact: trace_ret.
apply: trace_bind; last exact: trace_emit.
by apply: trace_emit; exists a.
Qed.

Lemma llr_to_prob_guard (llr : seq REAL) : List.Forall G (llr_to_prob llr).2.
Proof.
rewrite /llr_to_prob.
have [] := @mapM_invariant _ G _ _ (fun _ => True)
             (fun i => let ex := rexp (nth (rlit 0%Q) llr i) in
                       fdiv SiteProb ex (radd (rlit 1%Q) ex)) (iota 0 174) => //.
by move=> i; split=> //; apply: trace_emit.
Qed.

Lemma hard_decision_guard (codeword : seq REAL) (e : matrix) :
  List.Forall G (hard_decision Mn codeword e).2.
Proof.
rewrite /hard_decision.
set f := (f in mapM f _).
have [] := @mapM_invariant _ G _ _ (fun _ => True) f (iota 0 174) => //.
move=> i; split=> //; rewrite /f.
apply: trace_bind; [exact: posterior_guard | exact: trace_ret].
Qed.

Lemma var_update_guard (codeword : seq REAL) (e m : matrix) :
  List.Forall G (var_update Mn codeword e m).2.
Proof.
rewrite /var_update.
set f := (f in foldM f _ _).
have [] := @foldM_invariant _ G _ _ (fun _ => True) f m (iota 0 174) => //.
move=> m1 i _; split=> //; rewrite /f.
set g := (g in foldM g _ _).
have [] := @foldM_invariant _ G _ _ (fun _ => True) g m1 (iota 0 3) => //.
move=> m2 ji1 _; split=> //; rewrite /g.
apply: trace_bind; [exact: posterior_guard | exact: trace_ret].
Qed.

Lemma iteration_guard (codeword : seq REAL) (st : state) :
  List.Forall G (iteration Nm Mn codeword st).2.
Proof.
rewrite /iteration.
apply: trace_bind; first exact: hard_decision_guard.
move: (ldpc_check Nm) => check.
case: (_ =? _)%Z; first exact: trace_ret.
apply: trace_bind; [exact: var_update_guard | exact: trace_ret].
Qed.

Lemma ldpc_decode_guard (llr : seq REAL) (iters : Z) (best_cw0 : seq Z) :
  List.Forall G (ldpc_decode Nm Mn llr iters best_cw0).2.
Proof.
exact: (trace_bind (llr_to_prob_guard llr)
          (run_trace _ _ (iteration_guard (llr_to_prob llr).1))).
Qed.

Lemma ldpc_decode_log_guard (llr : seq REAL) (iters : Z) (best_cw0 : seq Z) :
  List.Forall G (ldpc_decode_log Nm Mn llr iters best_cw0).2.
Proof.
apply: ldpc_decode_log_trace => //.
- exact: fast_tanh_guard.
- exact: check_message_guard.
Qed.

End GuardFacts.

(** *** Rounding to [float] keeps positive numbers positive *)

Section Binary32Rounding.

Local Open Scope Z_scope.

Lemma digits2_size (p : positive) : digits2_pos p = Pos.size p.
Proof. by elim: p => [p /= ->|p /= ->|]. Qed.

Lemma digits_bounds (p : positive) :
  2 ^ (Zpos (digits2_pos p) - 1) <= Zpos p < 2 ^ Zpos (digits2_pos p).
Proof.
rewrite digits2_size.
have H1 := Pos.size_gt p.
have H2 := Pos.size_le p.
have E : Zpos (2 ^ Pos.size p) = 2 ^ Zpos (Pos.size p) by rewrite Pos2Z.inj_pow.
have E2 : 2 ^ Zpos (Pos.size p) = 2 * 2 ^ (Zpos (Pos.size p) - 1).
  have Hs : 0 <= Zpos (Pos.size p) - 1 by lia.
  have := Z.pow_succ_r 2 _ Hs.
  by have -> : Z.succ (Zpos (Pos.size p) - 1) = Zpos (Pos.size p) by lia.
have H3 : Zpos p < Zpos (2 ^ Pos.size p) by exact: H1.
have H4 : Zpos (2 ^ Pos.size p) <= Zpos p~0 by exact: H2.
split; lia.
Qed.

Lemma shr_1_half (mrs : shr_record) :
  0 <= shr_m mrs -> shr_m (shr_1 mrs) = shr_m mrs / 2.
Proof.
case: mrs => [m r s] /=; rewrite -Z.div2_div.
by case: m => [|[p|p|]|p].
Qed.

Lemma iter_shr_1 (p : positive) (mrs : shr_record) :
  0 <= shr_m mrs ->
  shr_m (iter_pos shr_1 p mrs) = shr_m mrs / 2 ^ Zpos p.
Proof.
have pow_pos (q : positive) : 0 < 2 ^ Zpos q by apply: Z.pow_pos_nonneg; lia.
have pow_ne (q : positive) : 2 ^ Zpos q <> 0 by have := pow_pos q; lia.
elim: p mrs => [p IH|p IH|] mrs Hm; rewrite [iter_pos _ _ _]/=.
- have H1 : 0 <= shr_m (shr_1 mrs).
    by rewrite shr_1_half //; apply: Z.div_pos; lia.
  have H2 : 0 <= shr_m (iter_pos shr_1 p (shr_1 mrs)).
    by rewrite IH //; apply: Z.div_pos => //; exact: pow_pos.
  have E : 2 ^ Zpos p~1 = 2 * 2 ^ Zpos p * 2 ^ Zpos p.
    have -> : Zpos p~1 = 1 + Zpos p + Zpos p by lia.
    by rewrite !Z.pow_add_r; try lia.
  have H20 : 2 <> 0 by [].
  rewrite (IH _ H2) (IH _ H1) (shr_1_half Hm) E.
  rewrite (Z.div_div _ 2 _ H20 (pow_pos p)).
  have Hne2 : 2 * 2 ^ Zpos p <> 0 by have := pow_pos p; lia.
  by rewrite (Z.div_div _ _ _ Hne2 (pow_pos p)).
- have H2 : 0 <= shr_m (iter_pos shr_1 p mrs).
    by rewrite IH //; apply: Z.div_pos => //; exact: pow_pos.
  have E : 2 ^ Zpos p~0 = 2 ^ Zpos p * 2 ^ Zpos p.
    have -> : Zpos p~0 = Zpos p + Zpos p by lia.
    by rewrite !Z.pow_add_r; try lia.
  by rewrite (IH _ H2) (IH _ Hm) E (Z.div_div _ _ _ (pow_ne p) (pow_pos p)).
- by rewrite shr_1_half // Z.pow_1_r.
Qed.

Lemma shr_record_of_loc_m (m : Z) (l : location) :
  shr_m (shr_record_of_loc m l) = m.
Proof. by case: l => [|[]]. Qed.

(** Rounding to [float] format does not shift a positive mantissa away,
    as long as the exponent is that of a [float]. *)
Lemma shr_fexp_positive (m : positive) (e : Z) (l : location) :
  -149 <= e ->
  0 < shr_m (shr_fexp 24 128 (Zpos m) e l).1 /\
  -149 <= (shr_fexp 24 128 (Zpos m) e l).2.
Proof.
move=> He; rewrite /shr_fexp /shr /Zdigits2 /fexp /emin.
have [Hlo Hhi] := digits_bounds m.
set d := Zpos (digits2_pos m) in Hlo Hhi *.
case E: (Z.max (d + e - 24) (3 - 128 - 24) - e) => [|p|p] /=;
  rewrite ?shr_record_of_loc_m //.
rewrite iter_shr_1 shr_record_of_loc_m //; split; last by lia.
have Hp : Zpos p = d - 24 by lia.
apply: Z.div_str_pos; split; first by apply: Z.pow_pos_nonneg; lia.
apply: Z.le_trans Hlo; apply: Z.pow_le_mono_r; lia.
Qed.

Lemma round_nearest_even_positive (m : Z) (l : location) :
  0 < m -> 0 < round_nearest_even m l.
Proof.
by move=> Hm; case: l => [|[]] //=; try case: (Z.even m); lia.
Qed.

Lemma binary_round_aux_positive (m : positive) (e : Z) (l : location) :
  -149 <= e ->
  SFltb (S754_zero false) (binary_round_aux 24 128 false (Zpos m) e l) = true.
Proof.
move=> He; rewrite /binary_round_aux.
have [H1 H2] := shr_fexp_positive m l He.
case: (shr_fexp 24 128 (Zpos m) e l) H1 H2 => mrs' e' /= H1 H2.
have := round_nearest_even_positive (loc_of_shr_record mrs') H1.
case: (round_nearest_even _ _) => [|m1|m1] // _.
have [H3 H4] := shr_fexp_positive m1 loc_Exact H2.
case: (shr_fexp 24 128 (Zpos m1) e' loc_Exact) H3 H4 => mrs'' e'' /= H3 H4.
case: (shr_m mrs'') H3 => [|m2|m2] // _.
by case: (e'' <=? _).
Qed.

Lemma binary_round_positive (m : positive) (e : Z) :
  -149 <= e ->
  SFltb (S754_zero false) (binary_round 24 128 false m e) = true.
Proof.
move=> He; rewrite /binary_round /shl_align /fexp /emin.
case E: (Z.max _ _ - e) => [|p|p]; try exact: binary_round_aux_positive.
apply: binary_round_aux_positive; lia.
Qed.

Lemma iter_xO (p d : positive) :
  Zpos (Pos.iter xO p d) = Zpos p * 2 ^ Zpos d.
Proof.
elim/Pos.peano_ind: d => [|d IH]; first by rewrite /=; lia.
rewrite Pos.iter_succ Pos2Z.inj_xO IH Pos2Z.inj_succ Z.pow_succ_r; lia.
Qed.

(** A [float] below 1 in magnitude, added to or subtracted from 1. *)
Lemma one_plus_positive (s : bool) (m : positive) (e : Z) :
  bounded 24 128 m e = true ->
  e < -23 ->
  SFltb (S754_zero false)
        (SFadd 24 128 (S754_finite false 8388608 (-23)) (S754_finite s m e))
  = true /\
  SFltb (S754_zero false)
        (SFsub 24 128 (S754_finite false 8388608 (-23)) (S754_finite s m e))
  = true.
Proof.
rewrite /bounded /canonical_mantissa /fexp /emin.
move=> /andP [/Z.eqb_spec Hcan _] He.
have [_ Hhi] := digits_bounds m.
set d := Zpos (digits2_pos m) in Hcan Hhi.
have Hd : d <= 24 by lia.
have He149 : -149 <= e by lia.
have Hm : Zpos m < 2 ^ 24.
  by apply: Z.lt_le_trans Hhi _; apply: Z.pow_le_mono_r; lia.
rewrite /SFadd /SFsub (Z.min_r _ _ (Z.lt_le_incl _ _ He)).
have -> : shl_align m e e = (m, e) by rewrite /shl_align Z.sub_diag.
rewrite /shl_align.
case E: (e - -23) => [|p|p]; try lia.
rewrite [fst _]/= iter_xO.
have Hp : 1 <= Zpos p by lia.
have Hbig : 2 ^ 24 <= 8388608 * 2 ^ Zpos p.
  have : 2 ^ 1 <= 2 ^ Zpos p by apply: Z.pow_le_mono_r; lia.
  by rewrite Z.pow_1_r; change (2 ^ 24) with (8388608 * 2); lia.
rewrite ![cond_Zopp false _]/=.
split.
- have : 0 < 8388608 * 2 ^ Zpos p + cond_Zopp s (Zpos m).
    by case: s; rewrite /cond_Zopp; lia.
  case: (_ + _) => [|q|q] // _.
  exact: binary_round_positive.
- have : 0 < 8388608 * 2 ^ Zpos p - cond_Zopp s (Zpos m).
    by case: s; rewrite /cond_Zopp; lia.
  case: (_ - _) => [|q|q] // _.
  exact: binary_round_positive.
Qed.

End Binary32Rounding.

Section ClampFacts.

(** A [float] strictly between -0.999 and 0.999 is a zero or has an
    exponent below that of 1. *)
Lemma inside_clamp (a : spec_float) :
  SFltb (S754_finite true 16760439 (-24)) a = true ->
  SFltb a (S754_finite false 16760439 (-24)) = true ->
  match a with
  | S754_zero _ => True
  | S754_finite _ _ e => (e < -23)%Z
  | _ => False
  end.
Proof.
case: a => [s|s||s m e]; rewrite /SFltb /SFcompare.
- by [].
- by case: s.
- by [].
- case: s.
  + move=> H _; move: H; rewrite Z.compare_antisym.
    by case: Z.compare_spec => // He _; lia.
  + by move=> _; case: Z.compare_spec => // He _; lia.
Qed.

Lemma clamped_sum_positive (a : spec_float) :
  valid_binary 24 128 a = true ->
  SFltb (S754_finite true 16760439 (-24)) a = true ->
  SFltb a (S754_finite false 16760439 (-24)) = true ->
  SFltb (S754_zero false)
        (SFadd 24 128 (S754_finite false 8388608 (-23)) a) = true /\
  SFltb (S754_zero false)
        (SFsub 24 128 (S754_finite false 8388608 (-23)) a) = true.
Proof.
move=> Hv H1 H2; have := inside_clamp H1 H2.
case: a Hv {H1 H2} => [s|s||s m e] //= Hv He.
exact: one_plus_positive.
Qed.

End ClampFacts.




(** ** Gauss-Jordan over GF(2) *)

Section GjArrays.
Import GaussJordan.

Lemma get_set (m : imatrix) (r c : nat) (v : Z) (r' c' : nat) :
  get (set m r c v) r' c' = if (r' == r) && (c' == c) then v else get m r' c'.
Proof.
rewrite /get /set nth_set_nth /=.
case: (eqVneq r' r) => [->|_] //=.
by rewrite nth_set_nth /=; case: (eqVneq c' c).
Qed.

Lemma iota_rcons (w : nat) : iota 0 w.+1 = rcons (iota 0 w) w.
Proof. by rewrite -addn1 iotaD add0n cats1. Qed.

Lemma swap_rows_get_upto (m : imatrix) (row row1 w r c : nat) :
  row != row1 ->
  get (foldl (fun m col =>
                let tmp := get m row col in
                set (set m row col (get m row1 col)) row1 col tmp)
             m (iota 0 w)) r c =
  if c < w
  then (if r == row then get m row1 c
        else if r == row1 then get m row c else get m r c)
  else get m r c.
Proof.
move=> Hne; elim: w r c => [|w IH] r c; first by [].
rewrite iota_rcons -cats1 foldl_cat /= !get_set !IH !ltnn ltnS.
rewrite [c <= w]leq_eqVlt.
case: (eqVneq c w) => [->|Hc] /=; last by rewrite !andbF.
rewrite !andbT ltnn.
case: (eqVneq r row1) => [->|_]; first by rewrite eq_sym (negbTE Hne).
by case: (eqVneq r row).
Qed.

Lemma swap_rows_get (n : nat) (m : imatrix) (row row1 r c : nat) :
  row != row1 ->
  get (swap_rows n m row row1) r c =
  if c < 2 * n
  then (if r == row then get m row1 c
        else if r == row1 then get m row c else get m r c)
  else get m r c.
Proof. exact: swap_rows_get_upto. Qed.

Lemma add_row_get_upto (m : imatrix) (row1 row w r c : nat) :
  get (foldl (fun m col =>
                set m row1 col (Z.rem (get m row1 col + get m row col) 2))
             m (iota 0 w)) r c =
  if (r == row1) && (c < w)
  then Z.rem (get m row1 c + get m row c) 2
  else get m r c.
Proof.
elim: w r c => [|w IH] r c; first by rewrite andbF.
rewrite iota_rcons -cats1 foldl_cat /= get_set !IH ltnn !andbF ltnS.
rewrite [c <= w]leq_eqVlt.
case: (eqVneq r row1) => [->|_] //=.
by case: (eqVneq c w) => [->|Hc] //=; rewrite ltnn.
Qed.

Lemma add_row_get (n : nat) (m : imatrix) (row1 row r c : nat) :
  get (add_row n m row1 row) r c =
  if (r == row1) && (c < 2 * n)
  then Z.rem (get m row1 c + get m row c) 2
  else get m r c.
Proof. exact: add_row_get_upto. Qed.

Lemma eliminate_get_upto (n : nat) (m : imatrix) (row w r c : nat) :
  get (foldl (fun m row1 =>
                if row1 == row then m
                else if ~~ (get m row1 row =? 0)%Z then add_row n m row1 row
                else m)
             m (iota 0 w)) r c =
  if [&& r < w, r != row, ~~ (get m r row =? 0)%Z & c < 2 * n]
  then Z.rem (get m r c + get m row c) 2
  else get m r c.
Proof.
elim: w r c => [|w IH] r c; first by [].
rewrite iota_rcons -cats1 foldl_cat /=.
case: (eqVneq w row) => [Hw|Hw].
  rewrite IH ltnS [r <= w]leq_eqVlt.
  by case: (eqVneq r w) => [->|_] //=; rewrite Hw eqxx /= ?andbF.
have Hrow q : get (foldl (fun m row1 =>
                if row1 == row then m
                else if ~~ (get m row1 row =? 0)%Z then add_row n m row1 row
                else m) m (iota 0 w)) w q = get m w q.
  by rewrite IH ltnn.
have Hpiv q : get (foldl (fun m row1 =>
                if row1 == row then m
                else if ~~ (get m row1 row =? 0)%Z then add_row n m row1 row
                else m) m (iota 0 w)) row q = get m row q.
  by rewrite IH eqxx /= andbF.
rewrite Hrow.
case E: (get m w row =? 0)%Z => /=.
  rewrite IH ltnS [r <= w]leq_eqVlt.
  by case: (eqVneq r w) => [->|_] //=; rewrite E /= ?andbF.
rewrite add_row_get Hrow Hpiv IH ltnS [r <= w]leq_eqVlt.
case: (eqVneq r w) => [->|_] //=.
by rewrite ltnn /= Hw E.
Qed.

Lemma eliminate_get (n cols : nat) (m : imatrix) (row r c : nat) :
  get (eliminate n cols m row) r c =
  if [&& r < cols, r != row, ~~ (get m r row =? 0)%Z & c < 2 * n]
  then Z.rem (get m r c + get m row c) 2
  else get m r c.
Proof. exact: eliminate_get_upto. Qed.

Lemma swap_which_nth (which : seq Z) (row row1 r : nat) :
  nth 0%Z (swap_which which row row1) r =
  if r == row1 then nth 0%Z which row
  else if r == row then nth 0%Z which row1 else nth 0%Z which r.
Proof. by rewrite /swap_which /= nth_set_nth /= nth_set_nth. Qed.

Lemma swap_rows_idx (n : nat) (m : imatrix) (row row1 r c : nat) :
  row != row1 ->
  get (swap_rows n m row row1) r c =
  if c < 2 * n then get m (swap_idx row row1 r) c else get m r c.
Proof.
move=> Hne; rewrite swap_rows_get // /swap_idx.
by case: (c < 2 * n) => //; case: (r == row) => //; case: (r == row1).
Qed.

Lemma swap_which_idx (which : seq Z) (row row1 r : nat) :
  nth 0%Z (swap_which which row row1) r =
  nth 0%Z which (swap_idx row row1 r).
Proof.
rewrite swap_which_nth /swap_idx.
case: (eqVneq r row1) => [->|_]; last by case: (r == row).
by case: (eqVneq row1 row) => [->|_].
Qed.

Lemma swap_idx_involutive (row row1 : nat) : involutive (swap_idx row row1).
Proof.
move=> r; rewrite /swap_idx.
case: (eqVneq r row) => [->|Hr].
  by rewrite eqxx; case: (eqVneq row1 row).
case: (eqVneq r row1) => [->|Hr1]; first by rewrite eqxx.
by rewrite (negbTE Hr) (negbTE Hr1).
Qed.

Lemma swap_idx_fixes (row row1 r : nat) :
  r < row -> r < row1 -> swap_idx row row1 r = r.
Proof.
move=> H H1; rewrite /swap_idx.
by rewrite (ltn_eqF H) (ltn_eqF H1).
Qed.

Lemma swap_idx_bounds (k cols row row1 r : nat) :
  k <= row -> k <= row1 -> row < cols -> row1 < cols ->
  [/\ (k <= swap_idx row row1 r) = (k <= r)
    & (swap_idx row row1 r < cols) = (r < cols)].
Proof.
move=> Hk Hk1 Hc Hc1; rewrite /swap_idx.
case: (eqVneq r row) => [->|_]; first by rewrite Hk Hk1 Hc Hc1.
by case: (eqVneq r row1) => [->|_]; first by rewrite Hk Hk1 Hc Hc1.
Qed.

Lemma gf2_add (x y : Z) :
  bit01 x -> bit01 y -> gf2 (Z.rem (x + y) 2) = (gf2 x + gf2 y)%R.
Proof.
rewrite /bit01.
case/orP => /Z.eqb_eq ->; case/orP => /Z.eqb_eq ->; rewrite /gf2 /=.
- by rewrite GRing.addr0.
- by rewrite GRing.add0r.
- by rewrite GRing.addr0.
- by apply/eqP.
Qed.

Lemma bit01_add (x y : Z) : bit01 x -> bit01 y -> bit01 (Z.rem (x + y) 2).
Proof.
by rewrite /bit01; case/orP => /Z.eqb_eq ->; case/orP => /Z.eqb_eq ->.
Qed.

Lemma bit01_cases (x : Z) : bit01 x -> x = 0%Z \/ x = 1%Z.
Proof. by case/orP => /Z.eqb_eq ->; [left | right]. Qed.

Lemma bit_matrix_get (m : imatrix) (r c : nat) :
  bit_matrix m -> bit01 (get m r c).
Proof.
move=> Hm; rewrite /get.
have Hrow : all bit01 (nth [::] m r).
  case: (ltnP r (size m)) => Hr; first exact: (all_nthP [::] Hm).
  by rewrite nth_default.
case: (ltnP c (size (nth [::] m r))) => Hc; first exact: (all_nthP 0%Z Hrow).
by rewrite nth_default.
Qed.

Lemma right_half_zero_get (m : imatrix) (r t : nat) :
  right_half_zero m -> get m r (91 + t) = 0%Z.
Proof.
move=> Hm; rewrite /get.
have Hrow : all (fun v => (v =? 0)%Z) (drop 91 (nth [::] m r)).
  case: (ltnP r (size m)) => Hr.
    exact: (all_nthP [::] Hm).
  by rewrite nth_default.
rewrite -nth_drop.
case: (ltnP t (size (drop 91 (nth [::] m r)))) => Ht.
  exact/Z.eqb_eq/(all_nthP 0%Z Hrow).
by rewrite nth_default.
Qed.

End GjArrays.

Section GjInvariant.
Import GaussJordan.
Variables (n cols : nat).
Hypothesis Hn : n <= cols.
Variables (m0 : imatrix) (which0 : seq Z).

Lemma sum_delta (f : nat -> 'F_2) (k : nat) :
  k < n -> (\sum_(t < n) (t == k :> nat)%:R * f t = f k)%R.
Proof.
move=> Hk.
have Hrest (t : 'I_n) :
    t != Ordinal Hk -> ((t == k :> nat)%:R * f t = 0)%R.
  by move=> Ht; rewrite (_ : (t == k :> nat) = false) ?GRing.mul0r //;
     exact: negbTE.
by rewrite (bigD1 (Ordinal Hk)) //= eqxx GRing.mul1r big1 ?GRing.addr0.
Qed.

Lemma reduced_init :
  (forall r c, bit01 (get m0 r c)) ->
  (forall r t, get m0 r (n + t) = 0%Z) ->
  reduced n cols 0 m0 which0 m0 which0 id.
Proof.
move=> Hbit Hzero; split=> //.
move=> r j _ _; rewrite /= GRing.mul1r big1 ?GRing.addr0 // => t _.
by rewrite Hzero /gf2 /= GRing.mul0r.
Qed.

Lemma swap_reduced (k : nat) (m : imatrix) (which : seq Z) (pos : nat -> nat)
    (row row1 : nat) :
  k <= n -> k <= row -> row < row1 -> row1 < cols ->
  reduced n cols k m0 which0 m which pos ->
  reduced n cols k m0 which0 (swap_rows n m row row1)
          (swap_which which row row1) (fun r => pos (swap_idx row row1 r)).
Proof.
move=> Hk Hrow Hlt Hrow1 H.
have Hne : row != row1 by rewrite ltn_eqF.
have Hk1 : k <= row1 by rewrite (leq_trans Hrow) // ltnW.
have Hc : row < cols by rewrite (ltn_trans Hlt).
have Hb r := swap_idx_bounds r Hrow Hk1 Hc Hrow1.
have Hwide c : c < n -> c < 2 * n.
  by move=> Hc'; rewrite mul2n -addnn (leq_trans Hc') // leq_addr.
have Hwide' t : t < n -> n + t < 2 * n by rewrite mul2n -addnn ltn_add2l.
split.
- by move=> r c; rewrite swap_rows_idx //; case: ifP => _; exact: (red_bits H).
- move=> r c Hr Hck.
  have Hcn : c < n by rewrite (leq_trans Hck).
  rewrite swap_rows_idx // (Hwide _ Hcn).
  have [_ Hb2] := Hb r.
  rewrite (red_left H) ?Hb2 //.
  rewrite /swap_idx.
  have Hcr : c < row by rewrite (leq_trans Hck).
  have Hcr1 : c < row1 by rewrite (leq_trans Hck).
  case: (eqVneq r row) => [->|_]; first by rewrite !gtn_eqF.
  by case: (eqVneq r row1) => [->|_]; first by rewrite !gtn_eqF.
- by move=> r t Ht; rewrite swap_rows_idx //; case: ifP => _; exact: (red_right H).
- move=> r j Hr Hj.
  have [Hb1 Hb2] := Hb r.
  rewrite swap_rows_idx // (Hwide _ Hj) (red_comb H) ?Hb2 // Hb1.
  congr (_ + _)%R; apply: eq_bigr => t _.
  rewrite swap_rows_idx // (Hwide' _ (ltn_ord t)).
  case: (ltnP t k) => Htk.
    by rewrite (@swap_idx_fixes row row1 t) // (leq_trans Htk).
  by rewrite (red_right H) // /gf2 /= !GRing.mul0r.
- move=> x y /(red_inj H).
  exact: (can_inj (@swap_idx_involutive row row1)).
- by move=> r Hr; apply: (red_ran H); have [_ ->] := Hb r.
- by move=> r; rewrite swap_which_idx (red_which H).
Qed.

Lemma find_pivot_spec (cands : seq nat) (m : imatrix) (which : seq Z)
    (row : nat) :
  (find_pivot n cands m which row = (m, which) /\
   all (fun r => ~~ (get m r row =? 1)%Z) cands) \/
  (exists row1,
     [/\ row1 \in cands, get m row1 row = 1%Z
        & find_pivot n cands m which row =
          (swap_rows n m row row1, swap_which which row row1)]).
Proof.
elim: cands => [|row1 rest IH] /=; first by left.
case E: (get m row1 row =? 1)%Z.
  right; exists row1; split=> //; first by rewrite mem_head.
  exact/Z.eqb_eq.
case: IH => [[-> ->]|[r [Hin Hr ->]]]; first by left.
by right; exists r; split=> //; rewrite inE Hin orbT.
Qed.

Lemma choose_pivot_reduced (k : nat) (m : imatrix) (which : seq Z)
    (pos : nat -> nat) :
  k < n ->
  reduced n cols k m0 which0 m which pos ->
  exists pos',
    reduced n cols k m0 which0 (choose_pivot n cols m which k).1
            (choose_pivot n cols m which k).2 pos'.
Proof.
move=> Hk H; rewrite /choose_pivot.
case: ifP => _; last by exists pos.
case: (find_pivot_spec (iota k.+1 (cols - k.+1)) m which k)
  => [[-> _]|[row1 [Hin _ ->]]]; first by exists pos.
have Hkc : k < cols := leq_trans Hk Hn.
rewrite mem_iota subnKC // in Hin.
case/andP: Hin => Hlt Hc.
exists (fun r => pos (swap_idx k row1 r)).
by apply: swap_reduced => //; exact: ltnW.
Qed.

Lemma eliminate_reduced (k : nat) (m : imatrix) (which : seq Z)
    (pos : nat -> nat) :
  k < n ->
  reduced n cols k m0 which0 m which pos ->
  get m k k = 1%Z ->
  reduced n cols k.+1 m0 which0
    (eliminate n cols
       (set m k (n + k) (Z.rem (get m k (n + k) + 1) 2)) k)
    which pos.
Proof.
move=> Hk H Hpiv.
have Hkc : k < cols by exact: (leq_trans Hk Hn).
have Hwide c : c < n -> c < 2 * n.
  by move=> Hc'; rewrite mul2n -addnn (leq_trans Hc') // leq_addr.
have Hwide' t : t < n -> n + t < 2 * n by rewrite mul2n -addnn ltn_add2l.
rewrite (red_right H) //.
set m2 := set m k (n + k) _.
have Hm2 r c : get m2 r c =
    if (r == k) && (c == n + k) then 1%Z else get m r c.
  by rewrite /m2 get_set.
have Hleft2 r c : c < n -> get m2 r c = get m r c.
  move=> Hc; rewrite Hm2 (@ltn_eqF c) ?andbF //.
  by rewrite (leq_trans Hc) // leq_addr.
have Hbit2 r c : bit01 (get m2 r c).
  by rewrite Hm2; case: ifP => _ //; exact: (red_bits H).
have Hright2 r (t : 'I_n) : gf2 (get m2 r (n + t)) =
    (gf2 (get m r (n + t)) + ((r == k) && (t == k :> nat))%:R)%R.
  rewrite Hm2 eqn_add2l.
  case: ifP => [/andP [_ /eqP ->]|_]; last by rewrite GRing.addr0.
  by rewrite (red_right H) // /gf2 /= GRing.add0r.
have Hcomb2 r j : r < cols -> j < n ->
    gf2 (get m2 r j) =
    ((k.+1 <= r)%:R * gf2 (get m0 (pos r) j)
     + \sum_(t < n) gf2 (get m2 r (n + t)) * gf2 (get m0 (pos t) j))%R.
  move=> Hr Hj; rewrite Hleft2 // (red_comb H) //.
  case: (eqVneq r k) => [->|Hrk].
    under [in RHS]eq_bigr => t _ do rewrite Hright2 eqxx /= GRing.mulrDl.
    rewrite big_split /= (sum_delta (fun t => gf2 (get m0 (pos t) j)) Hk).
    by rewrite leqnn ltnn GRing.mul1r GRing.mul0r GRing.add0r GRing.addrC.
  under [in RHS]eq_bigr => t _ do rewrite Hright2 (negbTE Hrk) /= GRing.addr0.
  by rewrite (ltn_neqAle k r) eq_sym Hrk.
pose elim_row r := [&& r < cols, r != k & ~~ (get m r k =? 0)%Z].
have Hm3 r c : c < 2 * n ->
    get (eliminate n cols m2 k) r c =
    if elim_row r then Z.rem (get m2 r c + get m2 k c) 2 else get m2 r c.
  by move=> Hc; rewrite eliminate_get Hc !andbT Hleft2 // /elim_row.
split.
- move=> r c; rewrite eliminate_get; case: ifP => _ //.
  exact: bit01_add.
- move=> r c Hr Hc.
  have Hcn : c < n by rewrite (leq_trans Hc).
  rewrite Hm3 ?Hwide // /elim_row Hr /=.
  case: (eqVneq r k) => [->|Hrk] /=.
    rewrite Hleft2 //.
    case: (eqVneq k c) => [<-|Hkc']; first by rewrite Hpiv.
    rewrite (red_left H) // ?(negbTE Hkc') //.
    by rewrite ltn_neqAle eq_sym Hkc' -ltnS.
  case E: (get m r k =? 0)%Z => /=.
    rewrite Hleft2 //.
    case: (eqVneq c k) => [->|Hck].
      by move/Z.eqb_eq: E => ->; rewrite (negbTE Hrk).
    by rewrite (red_left H) // ltn_neqAle Hck -ltnS.
  rewrite gf2_add // !Hleft2 //.
  case: (eqVneq c k) => [->|Hck].
    have := red_bits H r k; rewrite /bit01 E /= => /Z.eqb_eq ->.
    by rewrite Hpiv (negbTE Hrk); apply/eqP.
  have Hck' : c < k by rewrite ltn_neqAle Hck -ltnS.
  rewrite !(red_left H) //.
  by rewrite (gtn_eqF Hck') GRing.addr0.
- move=> r t Ht.
  have Hzero q : get m2 q (n + t) = 0%Z.
    rewrite Hm2 eqn_add2l (gtn_eqF Ht) andbF.
    by rewrite (red_right H) // ltnW.
  by rewrite eliminate_get !Hzero; case: ifP.
- move=> r j Hr Hj.
  rewrite Hm3 ?Hwide //.
  under eq_bigr => t _ do rewrite Hm3 ?Hwide' //.
  case E: (elim_row r); last exact: Hcomb2.
  under eq_bigr => t _ do rewrite gf2_add //.
  rewrite gf2_add // (Hcomb2 r j) // (Hcomb2 k j) // ltnn GRing.mul0r.
  rewrite GRing.add0r -GRing.addrA -big_split /=.
  by congr (_ + _)%R; apply: eq_bigr => t _; rewrite GRing.mulrDl.
- exact: (red_inj H).
- exact: (red_ran H).
- exact: (red_which H).
Qed.

Lemma pivot_step_reduced (k : nat) (m : imatrix) (which : seq Z)
    (pos : nat -> nat) (s' : imatrix * seq Z) :
  k < n ->
  reduced n cols k m0 which0 m which pos ->
  pivot_step n cols (m, which) k = inr s' ->
  exists pos', reduced n cols k.+1 m0 which0 s'.1 s'.2 pos'.
Proof.
move=> Hk H; rewrite /pivot_step /=.
case: (choose_pivot_reduced Hk H) => pos'.
case: (choose_pivot n cols m which k) => m1 which1 /= H'.
case E: (get m1 k k =? 1)%Z => //= -[<-] /=.
by exists pos'; apply: eliminate_reduced => //; exact/Z.eqb_eq.
Qed.

Lemma gj_loop_reduced (d k : nat) (m : imatrix) (which : seq Z)
    (pos : nat -> nat) (res : imatrix * seq Z) :
  k + d = n ->
  reduced n cols k m0 which0 m which pos ->
  gj_loop n cols (iota k d) (m, which) = (res, 1%Z) ->
  exists pos', reduced n cols n m0 which0 res.1 res.2 pos'.
Proof.
elim: d k m which pos => [|d IH] k m which pos /=.
  by rewrite addn0 => <- H [<-]; exists pos.
rewrite addnS -addSn => Hd H.
have Hk : k < n by rewrite -Hd leq_addr.
case E: (pivot_step n cols (m, which) k) => [s'|[m' which']] //.
case: (pivot_step_reduced Hk H E) => pos' H'.
exact: (IH _ _ _ _ Hd H').
Qed.

Lemma reduced_inverse (m : imatrix) (which : seq Z) (pos : nat -> nat) :
  reduced n cols n m0 which0 m which pos ->
  (upper_right n m *m selected_left n m0 pos = 1%:M)%R.
Proof.
move=> H; apply/matrixP => i j; rewrite !mxE.
under eq_bigr => t _ do rewrite !mxE.
have Hi : i < cols by rewrite (leq_trans (ltn_ord i)).
have := red_comb H Hi (ltn_ord j).
rewrite leqNgt ltn_ord /= GRing.mul0r GRing.add0r => <-.
by rewrite (red_left H).
Qed.

Lemma gj_loop_inverts (m1 : imatrix) (which1 : seq Z) :
  (forall r c, bit01 (get m0 r c)) ->
  (forall r t, get m0 r (n + t) = 0%Z) ->
  gj_loop n cols (iota 0 n) (m0, which0) = (m1, which1, 1%Z) ->
  exists pos,
    [/\ injective pos,
        forall r, r < cols -> pos r < cols,
        forall r, nth 0%Z which1 r = nth 0%Z which0 (pos r),
        (selected_left n m0 pos *m upper_right n m1 = 1%:M)%R
      & (upper_right n m1 *m selected_left n m0 pos = 1%:M)%R].
Proof.
move=> Hbit Hzero Hrun.
have [pos /= H] := gj_loop_reduced (add0n n) (reduced_init Hbit Hzero) Hrun.
have Hinv := reduced_inverse H.
exists pos; split=> //.
- exact: (red_inj H).
- exact: (red_ran H).
- exact: (red_which H).
- exact: (mulmx1C Hinv).
Qed.

Lemma gj_loop_cat (a b : seq nat) (s s' : imatrix * seq Z) :
  prefix_from n cols a s = Some s' ->
  gj_loop n cols (a ++ b) s = gj_loop n cols b s'.
Proof.
elim: a s => [|row a IH] s /=; first by case=> ->.
by case: (pivot_step n cols s row) => // s1; exact: IH.
Qed.

Lemma find_pivot_none (cands : seq nat) (m : imatrix) (which : seq Z)
    (row : nat) :
  (forall row1, row1 \in cands -> get m row1 row <> 1%Z) ->
  find_pivot n cands m which row = (m, which).
Proof.
elim: cands => [|row1 rest IH] //= Hno.
case: Z.eqb_spec => [E|_]; first by case: (Hno row1 (mem_head _ _)).
by apply: IH => r Hr; apply: Hno; rewrite inE Hr orbT.
Qed.

Lemma pivot_step_stuck (r : nat) (m : imatrix) (which : seq Z) :
  r < cols ->
  (forall row, r <= row < cols -> get m row r <> 1%Z) ->
  pivot_step n cols (m, which) r = inl (m, which).
Proof.
move=> Hr Hno; rewrite /pivot_step /choose_pivot /=.
have -> : find_pivot n (iota r.+1 (cols - r.+1)) m which r = (m, which).
  apply: find_pivot_none => row1; rewrite mem_iota => /andP [Hlo Hhi].
  by apply: Hno; rewrite (ltnW Hlo) /=; rewrite subnKC in Hhi.
case E: (get m r r =? 1)%Z => /=; last by rewrite E.
by case: (Hno r); rewrite ?leqnn //; exact/Z.eqb_eq.
Qed.

Lemma gj_loop_stuck (r : nat) (m : imatrix) (which : seq Z) :
  r < n ->
  prefix_from n cols (iota 0 r) (m0, which0) = Some (m, which) ->
  (forall row, r <= row < cols -> get m row r <> 1%Z) ->
  gj_loop n cols (iota 0 n) (m0, which0) = (m, which, 0%Z).
Proof.
move=> Hr Hpre Hno.
have -> : iota 0 n = iota 0 r ++ r :: iota r.+1 (n - r.+1).
  by rewrite -[in LHS](subnKC (ltnW Hr)) iotaD add0n -subnSK.
rewrite (gj_loop_cat _ Hpre) /= pivot_step_stuck //.
exact: (leq_trans Hr Hn).
Qed.

End GjInvariant.

Section GjCall.
Import GaussJordan.

Lemma gauss_jordan_91_174 (m : imatrix) (which : seq Z) :
  gauss_jordan 91 174 m which =
  Some (gj_loop 91 174 (iota 0 91) (m, which)).
Proof. by []. Qed.

Lemma ok_one_exists (o : option (imatrix * seq Z * Z)) :
  (if o is Some (_, _, ok) then (ok =? 1)%Z else false) ->
  exists m1 which1, o = Some (m1, which1, 1%Z).
Proof.
case: o => [[[m1 which1] ok]|] // /Z.eqb_eq ->.
by exists m1, which1.
Qed.

Lemma stuck_exists (r : nat) (o : option (imatrix * seq Z)) :
  (if o is Some (m, _)
   then all (fun row => ~~ (get m row r =? 1)%Z) (iota r (174 - r))
   else false) ->
  r < 174 ->
  exists m which,
    o = Some (m, which) /\
    forall row, r <= row < 174 -> get m row r <> 1%Z.
Proof.
case: o => [[m which]|] // /allP Hall Hr.
exists m, which; split=> // row Hrow.
have /Hall/Z.eqb_spec : row \in iota r (174 - r) by rewrite mem_iota subnKC // ltnW.
by [].
Qed.

End GjCall.

(** C4.  Let [m0] be a matrix of bits whose columns 91 and beyond are zero,
    and call [gauss_jordan 91 174] on it.
    (1) If the call ends with [ok = 1], the rows of the matrix have been
    permuted by some [pos] (a one-to-one map of the row numbers 0 .. 173)
    that [which] records: entry [r] of the returned [which] is entry
    [pos r] of the original one.  The 91 x 91 matrix formed by columns
    0 .. 90 of rows [pos 0 .. pos 90] of [m0], multiplied over GF(2) by the
    91 x 91 matrix in rows 0 .. 90 and columns 91 .. 181 of the returned
    matrix, is the identity, and so is the product in the other order.
    (2) If the passes for rows [0 .. r - 1] reached their end and at the
    start of the pass for row [r] no row among [r .. 173] holds a 1 in
    column [r], the call ends with [ok = 0], leaving the arrays as that pass
    found them. *)
Theorem gauss_jordan_inverts_or_fails
    (m0 : GaussJordan.imatrix) (which0 : seq Z) :
  GaussJordan.bit_matrix m0 ->
  GaussJordan.right_half_zero m0 ->
  (forall m1 which1,
     GaussJordan.gauss_jordan 91 174 m0 which0 = Some (m1, which1, 1%Z) ->
     exists pos,
       [/\ injective pos,
           forall r, r < 174 -> pos r < 174,
           forall r, nth 0%Z which1 r = nth 0%Z which0 (pos r),
           (GaussJordan.selected_left 91 m0 pos
            *m GaussJordan.upper_right 91 m1 = 1%:M)%R
         & (GaussJordan.upper_right 91 m1
            *m GaussJordan.selected_left 91 m0 pos = 1%:M)%R]) /\
  (forall r m which,
     r < 91 ->
     GaussJordan.at_step r m0 which0 = Some (m, which) ->
     (forall row, r <= row < 174 -> GaussJordan.get m row r <> 1%Z) ->
     GaussJordan.gauss_jordan 91 174 m0 which0 = Some (m, which, 0%Z)).
Proof.
move=> Hbits Hzero; split.
  move=> m1 which1; rewrite gauss_jordan_91_174 => -[Hrun].
  apply: (@gj_loop_inverts 91 174 _ m0 which0 m1 which1) => //.
  - by move=> r c; exact: bit_matrix_get.
  - by move=> r t; exact: right_half_zero_get.
move=> r m which Hr Hpre Hno; rewrite gauss_jordan_91_174.
by rewrite (@gj_loop_stuck 91 174 _ m0 which0 r m which).
Qed.

Lemma gauss_jordan_inverts_or_fails_witness :
  (exists m1 which1 pos,
     [/\ GaussJordan.gauss_jordan 91 174 GaussJordan.example_matrix
           GaussJordan.example_which = Some (m1, which1, 1%Z),
         forall r, nth 0%Z which1 r
                   = nth 0%Z GaussJordan.example_which (pos r)
       & (GaussJordan.selected_left 91 GaussJordan.example_matrix pos
          *m GaussJordan.upper_right 91 m1 = 1%:M)%R]) /\
  (exists m which,
     GaussJordan.gauss_jordan 91 174 GaussJordan.example_singular
       GaussJordan.example_which = Some (m, which, 0%Z)).
Proof.
split.
  have Hb : GaussJordan.bit_matrix GaussJordan.example_matrix.
    by vm_compute.
  have Hz : GaussJordan.right_half_zero GaussJordan.example_matrix.
    by vm_compute.
  have [Hinv _] :=
    gauss_jordan_inverts_or_fails GaussJordan.example_which Hb Hz.
  have [m1 [which1 Hrun]] :
      exists m1 which1,
        GaussJordan.gauss_jordan 91 174 GaussJordan.example_matrix
          GaussJordan.example_which = Some (m1, which1, 1%Z).
    by apply: ok_one_exists; vm_compute.
  have [pos [_ _ Hwhich Hprod _]] := Hinv m1 which1 Hrun.
  by exists m1, which1, pos; split.
have Hb : GaussJordan.bit_matrix GaussJordan.example_singular.
  by vm_compute.
have Hz : GaussJordan.right_half_zero GaussJordan.example_singular.
  by vm_compute.
have [_ Hfail] :=
  gauss_jordan_inverts_or_fails GaussJordan.example_which Hb Hz.
have [m [which [Hpre Hno]]] :
    exists m which,
      GaussJordan.at_step 5 GaussJordan.example_singular
        GaussJordan.example_which = Some (m, which) /\
      forall row, 5 <= row < 174 -> GaussJordan.get m row 5 <> 1%Z.
  by apply: stuck_exists; vm_compute.
by exists m, which; apply: (Hfail 5).
Defined.

(** ** More on the parity score: the words that pass all checks *)

Section CheckMore.
Variable Nm : seq (seq Z).

Lemma foldl_count (test : nat -> bool) (s : seq nat) (score0 : Z) :
  foldl (fun score j => if test j then (score + 1)%Z else score) score0 s
  = (score0 + Z.of_nat (count test s))%Z.
Proof.
elim: s score0 => [|j s IH] score0 /=; first by lia.
by rewrite IH; case: (test j); rewrite /= ?add1n ?add0n; lia.
Qed.

Lemma ldpc_check_count (codeword : seq Z) :
  ldpc_check Nm codeword
  = Z.of_nat (count (fun j => (check_parity Nm codeword j =? 0)%Z) (iota 0 83)).
Proof.
exact: (foldl_count (fun j => (check_parity Nm codeword j =? 0)%Z)
                    (iota 0 83) 0%Z).
Qed.

Lemma ldpc_check_83 (codeword : seq Z) :
  ldpc_check Nm codeword = 83%Z ->
  forall j, j < 83 -> check_parity Nm codeword j = 0%Z.
Proof.
rewrite ldpc_check_count => H j Hj.
have Hall : all (fun j => (check_parity Nm codeword j =? 0)%Z) (iota 0 83).
  rewrite all_count size_iota; apply/eqP.
  by apply: Nat2Z.inj; rewrite H.
by apply/Z.eqb_eq; move/allP: Hall; apply; rewrite mem_iota.
Qed.

Lemma nth_xor_word (a b : seq Z) (i : nat) :
  nth 0%Z (xor_word a b) i = Z.lxor (nth 0%Z a i) (nth 0%Z b i).
Proof.
rewrite /xor_word; case: (ltnP i (maxn (size a) (size b))) => Hi.
  by rewrite nth_mkseq.
move: Hi; rewrite geq_max => /andP [Ha Hb].
by rewrite !nth_default ?size_mkseq // geq_max Ha Hb.
Qed.

Lemma foldl_parity_xor (a b : seq Z) (j : nat) (s : seq nat) (xa xb : Z) :
  foldl (fun x ii1 =>
           let i1 := (tbl Nm j ii1 - 1)%Z in
           if (0 <=? i1)%Z
           then Z.lxor x (nth 0%Z (xor_word a b) (Z.to_nat i1))
           else x) (Z.lxor xa xb) s
  = Z.lxor
      (foldl (fun x ii1 =>
                let i1 := (tbl Nm j ii1 - 1)%Z in
                if (0 <=? i1)%Z
                then Z.lxor x (nth 0%Z a (Z.to_nat i1))
                else x) xa s)
      (foldl (fun x ii1 =>
                let i1 := (tbl Nm j ii1 - 1)%Z in
                if (0 <=? i1)%Z
                then Z.lxor x (nth 0%Z b (Z.to_nat i1))
                else x) xb s).
Proof.
elim: s xa xb => [|ii s IH] xa xb //=.
case: (0 <=? _)%Z; last exact: IH.
rewrite -IH nth_xor_word; congr (foldl _ _ _).
rewrite !Z.lxor_assoc; congr (Z.lxor _ _).
by rewrite -!Z.lxor_assoc (Z.lxor_comm xb).
Qed.

Lemma check_parity_xor (a b : seq Z) (j : nat) :
  check_parity Nm (xor_word a b) j
  = Z.lxor (check_parity Nm a j) (check_parity Nm b j).
Proof. exact: (foldl_parity_xor a b j (iota 0 7) 0%Z 0%Z). Qed.

Lemma check_parity_zeros (n j : nat) : check_parity Nm (nseq n 0%Z) j = 0%Z.
Proof.
rewrite /check_parity; elim: (iota 0 7) => [|ii s IH] //=.
by case: (0 <=? _)%Z => //; rewrite nth_nseq; case: ifP.
Qed.

End CheckMore.

(** X10.  Whatever the table [Nm], the words that pass all 83 checks form a
    group under exclusive or: the all-zero word (of any length) scores 83,
    and adding a word that scores 83 to any word [b] leaves the score of [b]
    unchanged; in particular the sum of two words that score 83 scores
    83. *)
Theorem valid_words_form_a_group (Nm : seq (seq Z)) :
  (forall n, ldpc_check Nm (nseq n 0%Z) = 83%Z) /\
  (forall a b,
     ldpc_check Nm a = 83%Z ->
     ldpc_check Nm (xor_word a b) = ldpc_check Nm b).
Proof.
split.
  move=> n; rewrite ldpc_check_count.
  have E : (fun j => (check_parity Nm (nseq n 0%Z) j =? 0)%Z) =1 predT.
    by move=> j; rewrite check_parity_zeros.
  by rewrite (eq_count E) count_predT size_iota.
move=> a b Ha; rewrite !ldpc_check_count; congr Z.of_nat.
apply: eq_in_count => j; rewrite mem_iota add0n /= => Hj.
by rewrite check_parity_xor (ldpc_check_83 Ha Hj).
Qed.

Lemma valid_words_form_a_group_witness :
  ldpc_check Toy.Nm (set_nth 0%Z (set_nth 0%Z (nseq 174 0%Z) 0 1%Z) 83 1%Z)
    = 83%Z /\
  ldpc_check Toy.Nm
    (xor_word (set_nth 0%Z (set_nth 0%Z (nseq 174 0%Z) 0 1%Z) 83 1%Z)
              (nseq 174 1%Z))
    = ldpc_check Toy.Nm (nseq 174 1%Z).
Proof.
have H : ldpc_check Toy.Nm
           (set_nth 0%Z (set_nth 0%Z (nseq 174 0%Z) 0 1%Z) 83 1%Z) = 83%Z.
  by vm_compute.
split; first exact: H.
exact: (proj2 (valid_words_form_a_group Toy.Nm) _ (nseq 174 1%Z) H).
Defined.

(** ** More on the decoders: format of the result, larger budgets *)

Section LoopMore.
Context {RA : RealArith}.
Variable Nm : seq (seq Z).
Variable body : state -> M REAL outcome.
Variable hard : state -> seq Z.

Hypothesis body_ok : body_spec Nm body hard.

Variable P : seq Z -> Prop.
Hypothesis hard_P : forall st, P (hard st).

Lemma run_keeps_best (n : nat) (st : state) :
  P (best_cw st) -> P (run body n st).1.1.
Proof.
elim: n st => [|n IH] st Hst //; rewrite run_S.
move: (body_ok st) (@body_best_cases _ Nm body hard body_ok st).
case: (body st).1 => [cw [-> _]|st' _ Hc] //=.
by apply: IH; case: (Hc st' (erefl _)) => -[-> _].
Qed.

Lemma run_result_is_hard (n : nat) (st : state) :
  (best_score st < 0)%Z -> P (run body n.+1 st).1.1.
Proof.
move=> Hneg; rewrite run_S.
move: (body_ok st); case: (body st).1 => [cw [-> _]|st' [_ Hcw _]] //=.
apply: run_keeps_best; rewrite Hcw /record_best_cw.
have := ldpc_check_bounds Nm (hard st).
by case: Z.gtb_spec => //; lia.
Qed.

Lemma body_best_le83 (st st' : state) :
  (best_score st < 83)%Z -> (body st).1 = Continue st' ->
  (best_score st' < 83)%Z.
Proof.
move=> Hst E; rewrite (body_best_is_max body_ok E).
move: (body_ok st); rewrite E => -[Hne _ _].
have := ldpc_check_bounds Nm (hard st); lia.
Qed.

Lemma run_le83 (n : nat) (st : state) :
  (best_score st < 83)%Z -> ((run body n st).1.2 <= 83)%Z.
Proof.
elim: n st => [|n IH] st Hst; first by rewrite /=; lia.
rewrite run_S.
move: (@body_best_le83 st).
case: (body st).1 => [cw|st'] H //=.
exact: (IH _ (H st' Hst (erefl _))).
Qed.

Lemma run_mono_step (n : nat) (st : state) :
  (best_score st < 83)%Z ->
  ((run body n st).1.2 <= (run body n.+1 st).1.2)%Z.
Proof.
elim: n st => [|n IH] st Hst.
  rewrite run_S /=.
  move: (@body_best_monotone _ Nm body hard body_ok st).
  case: (body st).1 => [cw|st'] H /=; first by lia.
  exact: H.
rewrite (@run_S _ body n.+1 st) (@run_S _ body n st).
move: (@body_best_le83 st).
case: (body st).1 => [cw|st'] H /=; first by lia.
exact: (IH _ (H st' Hst (erefl _))).
Qed.

Lemma run_mono (d n : nat) (st : state) :
  (best_score st < 83)%Z ->
  ((run body n st).1.2 <= (run body (n + d) st).1.2)%Z.
Proof.
move=> Hst; elim: d => [|d IH]; first by rewrite addn0; lia.
by rewrite addnS; have := @run_mono_step (n + d) st Hst; lia.
Qed.

Lemma run_stable (d n : nat) (st : state) :
  (best_score st < 83)%Z -> (run body n st).1.2 = 83%Z ->
  (run body (n + d) st).1 = (run body n st).1.
Proof.
elim: n st => [|n IH] st Hst; first by rewrite /=; lia.
rewrite addSn (@run_S _ body (n + d) st) (@run_S _ body n st).
move: (@body_best_le83 st).
case: (body st).1 => [cw|st'] H //=.
exact: (IH _ (H st' Hst (erefl _))).
Qed.

End LoopMore.

Section DecoderMore.
Context {RA : RealArith}.
Variables Nm Mn : seq (seq Z).

Lemma mapM_val R T U (f : U -> M R T) (s : seq U) :
  (mapM f s).1 = [seq (f x).1 | x <- s].
Proof. by elim: s => [|x s IH] //=; rewrite IH. Qed.

Lemma hard_prob_format (codeword : seq REAL) (st : state) :
  size (hard_prob Nm Mn codeword st) = 174 /\
  all (fun v => (v =? 0)%Z || (v =? 1)%Z) (hard_prob Nm Mn codeword st).
Proof.
rewrite /hard_prob /hard_decision mapM_val size_map size_iota.
move: (check_update _ _ _) => e.
split; first by [].
rewrite all_map; apply/allP => i _ /=.
by case: (posterior _ _) => p t /=; case: (rle p _).
Qed.

Lemma hard_log_format (codeword : seq REAL) (st : state) :
  size (hard_log Nm Mn codeword st) = 174 /\
  all (fun v => (v =? 0)%Z || (v =? 1)%Z) (hard_log Nm Mn codeword st).
Proof.
rewrite /hard_log /hard_decision_log size_map size_iota.
move: (check_update_log _ _ _).1 => e.
split; first by [].
rewrite all_map; apply/allP => i _ /=.
by case: (rle _ _).
Qed.

Lemma write_plain_nth (src pl : seq Z) (w q : nat) :
  nth 0%Z (foldl (fun p i => set_nth 0%Z p i (nth 0%Z src i)) pl (iota 0 w)) q
  = if q < w then nth 0%Z src q else nth 0%Z pl q.
Proof.
elim: w q => [|w IH] q //.
rewrite iota_rcons -cats1 foldl_cat /= nth_set_nth /= IH ltnS.
rewrite [q <= w]leq_eqVlt.
by case: (eqVneq q w) => [->|_].
Qed.

End DecoderMore.

(** X7.  With [iters >= 1] the word that either decoder leaves in [plain]
    is a hard decision: 174 values, each 0 or 1. *)
Theorem decoded_word_is_174_bits
    (RA : RealArith) (Nm Mn : seq (seq Z)) (llr : seq REAL) (iters : Z)
    (best_cw0 : seq Z) :
  (1 <= iters)%Z ->
  (size (ldpc_decode Nm Mn llr iters best_cw0).1.1 = 174 /\
   all (fun v => (v =? 0)%Z || (v =? 1)%Z)
       (ldpc_decode Nm Mn llr iters best_cw0).1.1) /\
  (size (ldpc_decode_log Nm Mn llr iters best_cw0).1.1 = 174 /\
   all (fun v => (v =? 0)%Z || (v =? 1)%Z)
       (ldpc_decode_log Nm Mn llr iters best_cw0).1.1).
Proof.
move=> Hiters.
have [n Hn] : exists n, Z.to_nat iters = n.+1.
  by exists (Z.to_nat iters).-1; lia.
pose P (cw : seq Z) :=
  size cw = 174 /\ all (fun v => (v =? 0)%Z || (v =? 1)%Z) cw.
rewrite ldpc_decode_val ldpc_decode_log_val Hn; split.
- exact: (@run_result_is_hard RA Nm _ _
            (iteration_spec Nm Mn (probabilities llr)) P
            (hard_prob_format Nm Mn (probabilities llr)) n
            (entry_state (probabilities llr) best_cw0) (erefl _)).
- exact: (@run_result_is_hard RA Nm _ _ (iteration_log_spec Nm Mn llr) P
            (hard_log_format Nm Mn llr) n
            (entry_state llr best_cw0) (erefl _)).
Qed.

Lemma decoded_word_is_174_bits_witness :
  (1 <= 1)%Z /\
  (size (ldpc_decode Toy.Nm Toy.Mn Toy.llr_noisy 1 [::]).1.1 = 174 /\
   all (fun v => (v =? 0)%Z || (v =? 1)%Z)
       (ldpc_decode Toy.Nm Toy.Mn Toy.llr_noisy 1 [::]).1.1) /\
  (size (ldpc_decode_log Toy.Nm Toy.Mn Toy.llr_noisy 1 [::]).1.1 = 174 /\
   all (fun v => (v =? 0)%Z || (v =? 1)%Z)
       (ldpc_decode_log Toy.Nm Toy.Mn Toy.llr_noisy 1 [::]).1.1).
Proof.
split; first exact: Z.le_refl.
exact: (@decoded_word_is_174_bits ExactQ.run_arith Toy.Nm Toy.Mn
          Toy.llr_noisy 1%Z [::] (Z.le_refl 1)).
Defined.

(** X8.  A larger iteration budget never gives a lower [ok]: for
    [iters <= iters'] the score returned with budget [iters'] is at least
    the score returned with budget [iters]; and when budget [iters] already
    returned [ok = 83], budget [iters'] returns the same word with the same
    [ok].  This holds for both decoders. *)
Theorem larger_budget_never_hurts
    (RA : RealArith) (Nm Mn : seq (seq Z)) (llr : seq REAL) (iters iters' : Z)
    (best_cw0 : seq Z) :
  (iters <= iters')%Z ->
  (((ldpc_decode Nm Mn llr iters best_cw0).1.2
    <= (ldpc_decode Nm Mn llr iters' best_cw0).1.2)%Z /\
   ((ldpc_decode Nm Mn llr iters best_cw0).1.2 = 83%Z ->
    (ldpc_decode Nm Mn llr iters' best_cw0).1
    = (ldpc_decode Nm Mn llr iters best_cw0).1)) /\
  (((ldpc_decode_log Nm Mn llr iters best_cw0).1.2
    <= (ldpc_decode_log Nm Mn llr iters' best_cw0).1.2)%Z /\
   ((ldpc_decode_log Nm Mn llr iters best_cw0).1.2 = 83%Z ->
    (ldpc_decode_log Nm Mn llr iters' best_cw0).1
    = (ldpc_decode_log Nm Mn llr iters best_cw0).1)).
Proof.
move=> Hle.
have [d Hd] : exists d, Z.to_nat iters' = Z.to_nat iters + d.
  have Hnat : Z.to_nat iters <= Z.to_nat iters' by apply/leP; lia.
  by exists (Z.to_nat iters' - Z.to_nat iters); rewrite subnKC.
rewrite (ldpc_decode_val Nm Mn llr iters) (ldpc_decode_val Nm Mn llr iters').
rewrite (ldpc_decode_log_val Nm Mn llr iters)
        (ldpc_decode_log_val Nm Mn llr iters') Hd.
split; split.
- exact: (@run_mono RA Nm _ _ (iteration_spec Nm Mn (probabilities llr)) d
            (Z.to_nat iters) (entry_state (probabilities llr) best_cw0)
            (erefl _)).
- exact: (@run_stable RA Nm _ _ (iteration_spec Nm Mn (probabilities llr)) d
            (Z.to_nat iters) (entry_state (probabilities llr) best_cw0)
            (erefl _)).
- exact: (@run_mono RA Nm _ _ (iteration_log_spec Nm Mn llr) d
            (Z.to_nat iters) (entry_state llr best_cw0) (erefl _)).
- exact: (@run_stable RA Nm _ _ (iteration_log_spec Nm Mn llr) d
            (Z.to_nat iters) (entry_state llr best_cw0) (erefl _)).
Qed.

Lemma larger_budget_never_hurts_witness :
  (1 <= 3)%Z /\
  ((ldpc_decode Toy.Nm Toy.Mn Toy.llr_noisy 1 [::]).1.2
   <= (ldpc_decode Toy.Nm Toy.Mn Toy.llr_noisy 3 [::]).1.2)%Z /\
  ((ldpc_decode_log Toy.Nm Toy.Mn Toy.llr_noisy 1 [::]).1.2
   <= (ldpc_decode_log Toy.Nm Toy.Mn Toy.llr_noisy 3 [::]).1.2)%Z.
Proof.
have H13 : (1 <= 3)%Z by [].
have [[Hp _] [Hl _]] :=
  @larger_budget_never_hurts ExactQ.run_arith Toy.Nm Toy.Mn Toy.llr_noisy
    1%Z 3%Z [::] H13.
by split; [exact: H13 | split; [exact: Hp | exact: Hl]].
Defined.

(** X9.  A call of either decoder writes [plain[0 .. 173]] and [*ok] and
    nothing else of the caller's: entry [p] of [plain] is entry [p] of the
    decoded word for [p < 174] and is unchanged for [p >= 174]. *)
Theorem decoder_writes_plain_0_to_173
    (RA : RealArith) (Nm Mn : seq (seq Z)) (mem : caller_memory) (iters : Z)
    (best_cw0 : seq Z) (p : nat) :
  nth 0%Z (mem_plain (ldpc_decode_call Nm Mn mem iters best_cw0).1) p
  = (if p < 174
     then nth 0%Z (ldpc_decode Nm Mn (mem_llr mem) iters best_cw0).1.1 p
     else nth 0%Z (mem_plain mem) p) /\
  nth 0%Z (mem_plain (ldpc_decode_log_call Nm Mn mem iters best_cw0).1) p
  = (if p < 174
     then nth 0%Z (ldpc_decode_log Nm Mn (mem_llr mem) iters best_cw0).1.1 p
     else nth 0%Z (mem_plain mem) p).
Proof.
split.
- rewrite /ldpc_decode_call bind_val.
  move: (ldpc_decode _ _ _ _ _) => r.
  by rewrite /ret /write_ok /write_plain write_plain_nth.
- rewrite /ldpc_decode_log_call bind_val.
  move: (ldpc_decode_log _ _ _ _ _) => r.
  by rewrite /ret /write_ok /write_plain write_plain_nth.
Qed.

(** ** The decoders over memory: which cells a call writes *)

Section MemoryFacts.
Context {RA : RealArith}.
Variables Nm Mn : seq (seq Z).
Variable L : layout.
Variables plain ok : Z.

Local Notation W := (written L plain ok).
Local Notation K := (kept W).

Lemma kept_refl (mem : memory) : K mem mem.
Proof. by []. Qed.

Lemma kept_trans (mem1 mem2 mem3 : memory) :
  K mem1 mem2 -> K mem2 mem3 -> K mem1 mem3.
Proof. by move=> H1 H2 a Ha; rewrite (H2 a Ha) (H1 a Ha). Qed.

Lemma kept_store (mem : memory) (a : Z) (c : cell) :
  W a = true -> K mem (store mem a c).
Proof.
move=> Ha b Hb; rewrite /store.
by case: Z.eqb_spec => // E; move: Hb; rewrite E Ha.
Qed.

Lemma foldl_kept (T : eqType) (f : memory -> T -> memory) (s : seq T)
    (mem : memory) :
  (forall mem x, x \in s -> K mem (f mem x)) -> K mem (foldl f mem s).
Proof.
elim: s mem => [|x s IH] mem H //=.
apply: (kept_trans (H mem x (mem_head _ _))).
by apply: IH => mem' y Hy; apply: H; rewrite inE Hy orbT.
Qed.

Lemma foldM_kept (T : eqType) (f : memory -> T -> M REAL memory) (s : seq T)
    (mem : memory) :
  (forall mem x, x \in s -> K mem (f mem x).1) -> K mem (foldM f mem s).1.
Proof.
elim: s mem => [|x s IH] mem H //=.
apply: (kept_trans (H mem x (mem_head _ _))).
by apply: IH => mem' y Hy; apply: H; rewrite inE Hy orbT.
Qed.

(** Addresses inside the arrays. *)

Lemma in_plain (i : nat) : i < 174 -> W (plain + Z.of_nat i)%Z = true.
Proof.
move=> /ltP Hi; rewrite /written /in_block.
have -> : ((plain <=? plain + Z.of_nat i) && (plain + Z.of_nat i <? plain + 174))%Z.
  by apply/andP; split; [apply/Z.leb_spec0 | apply/Z.ltb_spec0]; lia.
by rewrite !orbT.
Qed.

Lemma in_ok : W ok = true.
Proof. by rewrite /written Z.eqb_refl !orbT. Qed.

Lemma in_cw (i : nat) : i < 174 -> W (at_cw L + Z.of_nat i)%Z = true.
Proof.
move=> /ltP Hi; rewrite /written /in_block.
have -> : ((at_cw L <=? at_cw L + Z.of_nat i)
           && (at_cw L + Z.of_nat i <? at_cw L + 174))%Z.
  by apply/andP; split; [apply/Z.leb_spec0 | apply/Z.ltb_spec0]; lia.
by rewrite !orbT.
Qed.

Lemma in_best_cw (i : nat) : i < 174 -> W (at_best_cw L + Z.of_nat i)%Z = true.
Proof.
move=> /ltP Hi; rewrite /written /in_block.
have -> : ((at_best_cw L <=? at_best_cw L + Z.of_nat i)
           && (at_best_cw L + Z.of_nat i <? at_best_cw L + 174))%Z.
  by apply/andP; split; [apply/Z.leb_spec0 | apply/Z.ltb_spec0]; lia.
by rewrite !orbT.
Qed.

Lemma in_codeword (i : nat) :
  i < 174 -> W (at_codeword L + Z.of_nat i)%Z = true.
Proof.
move=> /ltP Hi; rewrite /written /in_block.
have -> : ((at_codeword L <=? at_codeword L + Z.of_nat i)
           && (at_codeword L + Z.of_nat i <? at_codeword L + 174))%Z.
  by apply/andP; split; [apply/Z.leb_spec0 | apply/Z.ltb_spec0]; lia.
by rewrite !orbT.
Qed.

Lemma in_m (j i : Z) :
  (0 <= j < 83)%Z -> (0 <= i < 174)%Z -> W (cell_of (at_m L) j i) = true.
Proof.
move=> Hj Hi; rewrite /written /in_block /cell_of.
have -> : ((at_m L <=? at_m L + j * 174 + i)
           && (at_m L + j * 174 + i <? at_m L + 83 * 174))%Z.
  by apply/andP; split; [apply/Z.leb_spec0 | apply/Z.ltb_spec0]; lia.
by [].
Qed.

Lemma in_e (j i : Z) :
  (0 <= j < 83)%Z -> (0 <= i < 174)%Z -> W (cell_of (at_e L) j i) = true.
Proof.
move=> Hj Hi; rewrite /written /in_block /cell_of.
have -> : ((at_e L <=? at_e L + j * 174 + i)
           && (at_e L + j * 174 + i <? at_e L + 83 * 174))%Z.
  by apply/andP; split; [apply/Z.leb_spec0 | apply/Z.ltb_spec0]; lia.
by rewrite !orbT.
Qed.

Lemma below_83 (j : nat) : j < 83 -> (0 <= Z.of_nat j < 83)%Z.
Proof. by move=> /ltP; lia. Qed.

Lemma below_174 (i : nat) : i < 174 -> (0 <= Z.of_nat i < 174)%Z.
Proof. by move=> /ltP; lia. Qed.

Hypothesis tables_ok : tables_in_range Nm Mn.

Lemma Nm_range (j ii : nat) : j < 83 -> ii < 7 -> (tbl Nm j ii <= 174)%Z.
Proof.
move=> Hj Hii; case/andP: tables_ok => /allP H _.
have Hj' : j \in iota 0 83 by rewrite mem_iota.
have Hii' : ii \in iota 0 7 by rewrite mem_iota.
have /allP H' := H j Hj'.
exact/Z.leb_spec0/(H' ii Hii').
Qed.

Lemma Mn_range (i j : nat) : i < 174 -> j < 3 -> (1 <= tbl Mn i j <= 83)%Z.
Proof.
move=> Hi Hj; case/andP: tables_ok => _ /allP H.
have Hi' : i \in iota 0 174 by rewrite mem_iota.
have Hj' : j \in iota 0 3 by rewrite mem_iota.
have /allP H' := H i Hi'.
by have /andP [/Z.leb_spec0 H1 /Z.leb_spec0 H2] := H' j Hj'.
Qed.

End MemoryFacts.

Section MemoryLoops.
Context {RA : RealArith}.
Variables Nm Mn : seq (seq Z).
Variable L : layout.
Variables plain ok : Z.
Hypothesis tables_ok : tables_in_range Nm Mn.

Local Notation W := (written L plain ok).
Local Notation K := (kept W).

Lemma copy_word_kept (mem : memory) (dst src : Z) :
  (forall i, i < 174 -> W (dst + Z.of_nat i)%Z = true) ->
  K mem (copy_word mem dst src).
Proof.
move=> Hdst; apply: foldl_kept => mem' i; rewrite mem_iota => Hi.
by apply: kept_store; exact: Hdst.
Qed.

Lemma keep_score_kept (mem : memory) (best_score : Z) :
  K mem (pass_memory (keep_score Nm L mem plain ok best_score)).
Proof.
rewrite /keep_score.
move: (ldpc_check_at _ _ _) => score.
case: (score =? 83)%Z => /=.
  apply: (kept_trans (copy_word_kept _ _ (@in_plain L plain ok))).
  by apply: kept_store; exact: in_ok.
case: (score >? best_score)%Z => //=.
exact: (copy_word_kept _ _ (@in_best_cw L plain ok)).
Qed.

Lemma spread_at_kept (mem : memory) (src : Z) : K mem (spread_at L mem src).
Proof.
apply: foldl_kept => mem1 i; rewrite mem_iota => Hi.
apply: foldl_kept => mem2 j; rewrite mem_iota => Hj.
by apply: kept_store; apply: in_m; [exact: below_83 | exact: below_174].
Qed.

Lemma zeros_at_kept (mem : memory) : K mem (zeros_at L mem).
Proof.
apply: foldl_kept => mem1 i; rewrite mem_iota => Hi.
apply: foldl_kept => mem2 j; rewrite mem_iota => Hj.
by apply: kept_store; apply: in_e; [exact: below_83 | exact: below_174].
Qed.

Lemma run_at_kept (body : memory -> Z -> M REAL pass) (n : nat)
    (mem : memory) (best_score : Z) :
  (forall mem b, K mem (pass_memory (body mem b).1)) ->
  K mem (run_at L body plain ok n mem best_score).1.
Proof.
move=> Hbody; elim: n mem best_score => [|n IH] mem b /=.
  rewrite /ret /=.
  apply: (kept_trans (copy_word_kept _ _ (@in_plain L plain ok))).
  by apply: kept_store; exact: in_ok.
have := Hbody mem b.
case: (body mem b).1 => [mem'|mem' b'] //= H.
exact: (kept_trans H (IH _ _)).
Qed.

(** The writes of [ldpc_decode] *)

Lemma store_e_kept (mem : memory) (j ii1 : nat) (c : cell) :
  j < 83 -> ii1 < 7 -> ((tbl Nm j ii1 - 1 <? 0)%Z = false) ->
  K mem (store mem (cell_of (at_e L) (Z.of_nat j) (tbl Nm j ii1 - 1)%Z) c).
Proof.
move=> Hj Hii /Z.ltb_spec0 Hpos.
apply: kept_store; apply: in_e; first exact: below_83.
have := Nm_range tables_ok Hj Hii; lia.
Qed.

Lemma store_m_kept (mem : memory) (i ji1 : nat) (c : cell) :
  i < 174 -> ji1 < 3 ->
  K mem (store mem (cell_of (at_m L) (tbl Mn i ji1 - 1)%Z (Z.of_nat i)) c).
Proof.
move=> Hi Hj.
apply: kept_store; apply: in_m; last exact: below_174.
have := Mn_range tables_ok Hi Hj; lia.
Qed.

Lemma llr_to_prob_at_kept (mem : memory) (llcodeword : Z) :
  K mem (llr_to_prob_at L mem llcodeword).1.
Proof.
apply: foldM_kept => mem' i; rewrite mem_iota => Hi.
by apply: kept_store; exact: in_codeword.
Qed.

Lemma check_update_at_kept (mem : memory) : K mem (check_update_at Nm L mem).
Proof.
apply: foldl_kept => mem1 j; rewrite mem_iota => Hj.
apply: foldl_kept => mem2 ii1; rewrite mem_iota => Hii.
cbv beta zeta.
case E: (_ <? 0)%Z; first exact: kept_refl.
exact: store_e_kept.
Qed.

Lemma hard_decision_at_kept (mem : memory) :
  K mem (hard_decision_at Mn L mem).1.
Proof.
apply: foldM_kept => mem' i; rewrite mem_iota => Hi.
rewrite bind_val.
by apply: kept_store; exact: in_cw.
Qed.

Lemma var_update_at_kept (mem : memory) : K mem (var_update_at Mn L mem).1.
Proof.
apply: foldM_kept => mem1 i; rewrite mem_iota => Hi.
apply: foldM_kept => mem2 ji1; rewrite mem_iota => Hj.
rewrite bind_val.
exact: store_m_kept.
Qed.

Lemma iteration_at_kept (mem : memory) (b : Z) :
  K mem (pass_memory (iteration_at Nm Mn L plain ok mem b).1).
Proof.
rewrite /iteration_at bind_val.
have H1 := check_update_at_kept mem.
have H2 := hard_decision_at_kept (check_update_at Nm L mem).
move: (hard_decision_at Mn L (check_update_at Nm L mem)).1 H2 => mem' H2.
have H3 := keep_score_kept mem' b.
move: (keep_score Nm L mem' plain ok b) H3 => [mem''|mem'' b'] H3.
  exact: (kept_trans H1 (kept_trans H2 H3)).
rewrite bind_val.
exact: (kept_trans H1 (kept_trans H2 (kept_trans H3 (var_update_at_kept _)))).
Qed.

Lemma ldpc_decode_at_kept (mem : memory) (llcodeword : Z) (iters : Z) :
  K mem (ldpc_decode_at Nm Mn L mem llcodeword plain ok iters).1.
Proof.
rewrite /ldpc_decode_at bind_val.
apply: (kept_trans (llr_to_prob_at_kept mem llcodeword)).
apply: (kept_trans (spread_at_kept _ _)).
apply: (kept_trans (zeros_at_kept _)).
by apply: run_at_kept => mem' b; exact: iteration_at_kept.
Qed.

(** The writes of [ldpc_decode_log] *)

Lemma check_update_log_at_kept (mem : memory) :
  K mem (check_update_log_at Nm L mem).1.
Proof.
apply: foldM_kept => mem1 j; rewrite mem_iota => Hj.
apply: foldM_kept => mem2 ii1; rewrite mem_iota => Hii.
cbv beta zeta.
case E: (_ <? 0)%Z; first exact: kept_refl.
rewrite !bind_val.
exact: store_e_kept.
Qed.

Lemma hard_decision_log_at_kept (mem : memory) (codeword : Z) :
  K mem (hard_decision_log_at Mn L mem codeword).
Proof.
apply: foldl_kept => mem' i; rewrite mem_iota => Hi.
by apply: kept_store; exact: in_cw.
Qed.

Lemma var_update_log_at_kept (mem : memory) (codeword : Z) :
  K mem (var_update_log_at Mn L mem codeword).
Proof.
apply: foldl_kept => mem1 i; rewrite mem_iota => Hi.
apply: foldl_kept => mem2 ji1; rewrite mem_iota => Hj.
exact: store_m_kept.
Qed.

Lemma iteration_log_at_kept (codeword : Z) (mem : memory) (b : Z) :
  K mem (pass_memory (iteration_log_at Nm Mn L codeword plain ok mem b).1).
Proof.
rewrite /iteration_log_at bind_val.
have H1 := check_update_log_at_kept mem.
move: (check_update_log_at Nm L mem).1 H1 => mem' H1.
have H2 := hard_decision_log_at_kept mem' codeword.
move: (hard_decision_log_at Mn L mem' codeword) H2 => mem'' H2.
have H3 := keep_score_kept mem'' b.
move: (keep_score Nm L mem'' plain ok b) H3 => [mem3|mem3 b'] H3.
  exact: (kept_trans H1 (kept_trans H2 H3)).
exact: (kept_trans H1 (kept_trans H2 (kept_trans H3
          (var_update_log_at_kept _ _)))).
Qed.

Lemma ldpc_decode_log_at_kept (mem : memory) (codeword : Z) (iters : Z) :
  K mem (ldpc_decode_log_at Nm Mn L mem codeword plain ok iters).1.
Proof.
rewrite /ldpc_decode_log_at.
apply: (kept_trans (spread_at_kept _ _)).
apply: (kept_trans (zeros_at_kept _)).
by apply: run_at_kept => mem' b; exact: iteration_log_at_kept.
Qed.

End MemoryLoops.

(** C8.  Neither decoder writes to its input array.  With every array in
    memory and the entries of the tables in range, a call stores only into
    its local arrays, into [plain[0 .. 173]] and into [*ok]: when the 174
    input cells are none of those, each of them holds on return what it
    held on entry. *)
Theorem input_llr_is_not_modified
    (RA : RealArith) (Nm Mn : seq (seq Z)) (L : layout) (mem : memory)
    (llcodeword plain ok : Z) (iters : Z) :
  tables_in_range Nm Mn ->
  (forall i, i < 174 ->
     written L plain ok (llcodeword + Z.of_nat i)%Z = false) ->
  forall i, i < 174 ->
    (ldpc_decode_at Nm Mn L mem llcodeword plain ok iters).1
      (llcodeword + Z.of_nat i)%Z = mem (llcodeword + Z.of_nat i)%Z /\
    (ldpc_decode_log_at Nm Mn L mem llcodeword plain ok iters).1
      (llcodeword + Z.of_nat i)%Z = mem (llcodeword + Z.of_nat i)%Z.
Proof.
move=> Htab Hsep i Hi; split.
- exact: (ldpc_decode_at_kept Htab mem llcodeword iters (Hsep i Hi)).
- exact: (ldpc_decode_log_at_kept Htab mem llcodeword iters (Hsep i Hi)).
Qed.

Lemma input_llr_is_not_modified_witness :
  tables_in_range Toy.Nm Toy.Mn /\
  (forall i, i < 174 ->
     written Toy.stack 1000 2000 (0 + Z.of_nat i)%Z = false) /\
  (forall i, i < 174 ->
    (ldpc_decode_at Toy.Nm Toy.Mn Toy.stack Toy.caller_cells 0 1000 2000 1).1
      (0 + Z.of_nat i)%Z = Toy.caller_cells (0 + Z.of_nat i)%Z /\
    (ldpc_decode_log_at Toy.Nm Toy.Mn Toy.stack Toy.caller_cells 0 1000 2000
                        1).1
      (0 + Z.of_nat i)%Z = Toy.caller_cells (0 + Z.of_nat i)%Z).
Proof.
have Htab : tables_in_range Toy.Nm Toy.Mn by vm_compute.
have Hsep i : i < 174 ->
    written Toy.stack 1000 2000 (0 + Z.of_nat i)%Z = false.
  move=> Hi.
  have /allP H : all (fun i => ~~ written Toy.stack 1000 2000
                                    (0 + Z.of_nat i)%Z) (iota 0 174).
    by vm_compute.
  by apply/negbTE/H; rewrite mem_iota.
split; first exact: Htab.
split; first exact: Hsep.
exact: (@input_llr_is_not_modified ExactQ.run_arith Toy.Nm Toy.Mn Toy.stack
          Toy.caller_cells 0%Z 1000%Z 2000%Z 1%Z Htab Hsep).
Defined.

Section Overlap.
Context {RA : RealArith}.
Variables Nm Mn : seq (seq Z).
Variable L : layout.
Variables plain ok : Z.

Lemma copy_word_upto (s : seq nat) (mem : memory) (dst src : Z) (a : Z) :
  holds_int mem a || has (fun i => (a =? dst + Z.of_nat i)%Z) s ->
  holds_int
    (foldl (fun mem i =>
              store mem (dst + Z.of_nat i)%Z
                    (IntCell (load_int mem (src + Z.of_nat i)%Z)))
           mem s) a.
Proof.
elim: s mem => [|x s IH] mem /=; first by rewrite orbF.
rewrite orbA => /orP [H|H]; apply: IH; apply/orP; last by right.
left; rewrite /holds_int /store; case: ifP => // E.
by move: H; rewrite E orbF.
Qed.

Lemma copy_word_plain (mem : memory) (src : Z) (i : nat) :
  i < 174 -> holds_int (copy_word mem plain src) (plain + Z.of_nat i)%Z.
Proof.
move=> Hi; apply: copy_word_upto; apply/orP; right.
by apply/hasP; exists i; rewrite ?mem_iota // Z.eqb_refl.
Qed.

Lemma returned_plain (mem : memory) (src : Z) (v : Z) (i : nat) :
  i < 174 -> (plain + Z.of_nat i)%Z <> ok ->
  holds_int (store (copy_word mem plain src) ok (IntCell v))
            (plain + Z.of_nat i)%Z.
Proof.
move=> Hi Hne; have := copy_word_plain mem src Hi.
by rewrite /holds_int /store; case: Z.eqb_spec.
Qed.

Lemma run_at_plain (body : memory -> Z -> M REAL pass) (n : nat)
    (mem : memory) (b : Z) (i : nat) :
  (forall mem b mem', (body mem b).1 = Returned mem' ->
     holds_int mem' (plain + Z.of_nat i)%Z) ->
  i < 174 -> (plain + Z.of_nat i)%Z <> ok ->
  holds_int (run_at L body plain ok n mem b).1 (plain + Z.of_nat i)%Z.
Proof.
move=> Hbody Hi Hne; elim: n mem b => [|n IH] mem b /=.
  by rewrite /ret /=; exact: returned_plain.
case E: (body mem b).1 => [mem'|mem' b'] /=.
- exact: (Hbody _ _ _ E).
- exact: IH.
Qed.

Lemma keep_score_returned (mem : memory) (b : Z) (mem' : memory) (i : nat) :
  keep_score Nm L mem plain ok b = Returned mem' ->
  i < 174 -> (plain + Z.of_nat i)%Z <> ok ->
  holds_int mem' (plain + Z.of_nat i)%Z.
Proof.
rewrite /keep_score.
move: (ldpc_check_at _ _ _) => score.
case: (score =? 83)%Z; last by case: (score >? b)%Z.
by case=> <- Hi Hne; exact: returned_plain.
Qed.

End Overlap.

(** The hypothesis on the input cells is needed: every cell of
    [plain[0 .. 173]] other than [*ok] holds an [int] on return, so a call
    that is handed its input array as [plain] overwrites it. *)
Remark overlapping_plain_is_written
    (RA : RealArith) (Nm Mn : seq (seq Z)) (L : layout) (mem : memory)
    (codeword ok : Z) (iters : Z) (i : nat) :
  i < 174 -> (codeword + Z.of_nat i)%Z <> ok ->
  holds_int (ldpc_decode_log_at Nm Mn L mem codeword codeword ok iters).1
            (codeword + Z.of_nat i)%Z.
Proof.
move=> Hi Hne; rewrite /ldpc_decode_log_at.
apply: run_at_plain => // mem1 b mem'.
rewrite /iteration_log_at bind_val.
move: (hard_decision_log_at _ _ _ _) => mem2.
case E: (keep_score Nm L mem2 codeword ok b) => [mem3|mem3 b'] //.
by case=> <-; exact: (keep_score_returned E).
Qed.

(** ** More on the CRC: format of the result, leading zeros, linearity,
       error bursts *)

Section CrcSweep.
Import Crc.

Lemma nth_ft8_crc (msg : seq Z) (n q : nat) :
  nth 0%Z (ft8_crc msg n) q =
  if q < 14 then nth 0%Z (sweep (append_zeros msg n) n) (n + q) else 0%Z.
Proof.
rewrite /ft8_crc -/(mkseq _ 14).
case: (ltnP q 14) => Hq; first by rewrite nth_mkseq.
by rewrite nth_default ?size_mkseq.
Qed.

Lemma bit_add (x y : Z) : bit x -> bit y -> bit (Z.rem (x + y) 2).
Proof. by move=> [->|->] [->|->]; vm_compute; auto. Qed.

Lemma bit_is_bit (v : Z) : bit v -> is_bit v.
Proof. by case=> ->. Qed.

Lemma step_tail_bits (n : nat) (b : seq Z) (i : nat) :
  (forall p, n <= p -> bit (nth 0%Z b p)) ->
  forall p, n <= p -> bit (nth 0%Z (step b i) p).
Proof.
move=> Hb p Hp; rewrite /step; case: ifP => _; last exact: Hb.
rewrite nth_xor_div; case: ifP => _; last exact: Hb.
by apply: bit_add; [exact: Hb | exact: div_bit].
Qed.

Lemma sweep_tail_bits (n : nat) (b : seq Z) (s : seq nat) :
  (forall p, n <= p -> bit (nth 0%Z b p)) ->
  forall p, n <= p -> bit (nth 0%Z (foldl step b s) p).
Proof.
elim: s b => [|i s IH] b Hb //=.
by apply: IH; exact: step_tail_bits.
Qed.

Lemma foldl_step_zeros (b : seq Z) (s : seq nat) :
  (forall i, i \in s -> nth 0%Z b i = 0%Z) -> foldl step b s = b.
Proof.
elim: s => [|i s IH] //= Hz.
rewrite /step (Hz i (mem_head _ _)) /=.
by apply: IH => j Hj; apply: Hz; rewrite inE Hj orbT.
Qed.

Lemma step_shift (k : nat) (B b : seq Z) (i : nat) :
  (forall p, nth 0%Z B (k + p) = nth 0%Z b p) ->
  forall p, nth 0%Z (step B (k + i)) (k + p) = nth 0%Z (step b i) p.
Proof.
move=> H p; rewrite /step H; case: ifP => _ //.
by rewrite !nth_xor_div leq_add2l -addnA ltn_add2l subnDl H.
Qed.

Lemma sweep_shift (k : nat) (B b : seq Z) (s : seq nat) :
  (forall p, nth 0%Z B (k + p) = nth 0%Z b p) ->
  forall p, nth 0%Z (foldl step B [seq k + i | i <- s]) (k + p)
            = nth 0%Z (foldl step b s) p.
Proof.
elim: s B b => [|i s IH] B b H //=.
by apply: IH; exact: step_shift.
Qed.

Lemma step_sum (a b c : seq Z) (i : nat) :
  bits a -> bits b -> sum_of a b c -> sum_of (step a i) (step b i) (step c i).
Proof.
move=> Ha Hb Hc p; rewrite /step (Hc i).
case: (Ha i) => ->; case: (Hb i) => -> /=; rewrite ?nth_xor_div (Hc p);
  case: ((i <= p) && (p < i + 15)) => //;
  by case: (Ha p) => ->; case: (Hb p) => ->; case: (div_bit (p - i)) => ->.
Qed.

Lemma sweep_sum (s : seq nat) (a b c : seq Z) :
  bits a -> bits b -> sum_of a b c ->
  sum_of (foldl step a s) (foldl step b s) (foldl step c s).
Proof.
elim: s a b c => [|i s IH] a b c //= Ha Hb Hc.
by apply: IH; [exact: step_bits | exact: step_bits | exact: step_sum].
Qed.

Lemma all_bits_nth (msg : seq Z) (p : nat) :
  all is_bit msg -> bit (nth 0%Z msg p).
Proof.
move=> Hmsg; case: (ltnP p (size msg)) => Hp; last by rewrite nth_default //; left.
by apply: is_bitP; move/all_nthP: Hmsg; apply.
Qed.

Lemma append_zeros_bits (msg : seq Z) (n : nat) :
  all is_bit msg -> bits (append_zeros msg n).
Proof.
move=> Hmsg p; rewrite nth_append_zeros; case: ifP => _; last by left.
exact: all_bits_nth.
Qed.

Lemma nth_add2 (a b : seq Z) (p : nat) :
  size a = size b ->
  nth 0%Z (add2 a b) p = Z.rem (nth 0%Z a p + nth 0%Z b p) 2.
Proof.
move=> Hs; rewrite /add2.
case: (ltnP p (size a)) => Hp.
  by rewrite (nth_map (0%Z, 0%Z)) ?size_zip -?Hs ?minnn // nth_zip.
by rewrite !nth_default // -?Hs // size_map size_zip -Hs minnn.
Qed.

Lemma append_zeros_sum (a b : seq Z) :
  size a = size b ->
  sum_of (append_zeros a (size a)) (append_zeros b (size a))
         (append_zeros (add2 a b) (size a)).
Proof.
move=> Hs p; rewrite !nth_append_zeros; case: ifP => _ //.
exact: nth_add2.
Qed.

Lemma step_keeps_nonzero (b : seq Z) (i : nat) :
  (forall p, i + 14 <= p -> nth 0%Z b p = 0%Z) ->
  (exists2 q, i <= q < i + 14 & nth 0%Z b q <> 0%Z) ->
  (forall p, i.+1 + 14 <= p -> nth 0%Z (step b i) p = 0%Z) /\
  (exists2 q, i.+1 <= q < i.+1 + 14 & nth 0%Z (step b i) q <> 0%Z).
Proof.
move=> Hz [q /andP [Hlo Hhi] Hq]; rewrite /step.
case: Z.eqb_spec => [E|_] /=.
  split; first by move=> p; rewrite addSn => /ltnW; exact: Hz.
  exists q => //; rewrite addSn ltnS (ltnW Hhi) andbT ltn_neqAle Hlo andbT.
  by apply/eqP => Eq; apply: Hq; rewrite -Eq.
split.
  move=> p; rewrite addSn -addnS => Hp; rewrite nth_xor_div.
  have -> : (i <= p) && (p < i + 15) = false by rewrite ltnNge Hp andbF.
  by apply: Hz; apply: ltnW; rewrite -addnS.
exists (i + 14); first by rewrite addSn ltnS leqnn -addn1 leq_add2l.
by rewrite nth_xor_div leq_addr ltn_add2l /= addKn Hz.
Qed.

Lemma sweep_keeps_nonzero (d : nat) (b : seq Z) (i : nat) :
  (forall p, i + 14 <= p -> nth 0%Z b p = 0%Z) ->
  (exists2 q, i <= q < i + 14 & nth 0%Z b q <> 0%Z) ->
  exists2 q, i + d <= q < i + d + 14
           & nth 0%Z (foldl step b (iota i d)) q <> 0%Z.
Proof.
elim: d b i => [|d IH] b i Hz Hq /=; first by rewrite addn0.
have [Hz' Hq'] := step_keeps_nonzero Hz Hq.
by rewrite addnS -addSn; apply: IH.
Qed.

Lemma differ_somewhere (a b : seq Z) :
  size a = size b -> a <> b ->
  exists2 q, q < size a & nth 0%Z a q <> nth 0%Z b q.
Proof.
move=> Hs Hne.
case E: (all (fun q => (nth 0%Z a q =? nth 0%Z b q)%Z) (iota 0 (size a))).
  case: Hne; apply: (eq_from_nth (x0 := 0%Z)) => // q Hq.
  by apply/Z.eqb_eq; move/allP: E; apply; rewrite mem_iota.
move/negbT: E => /allPn [q]; rewrite mem_iota add0n /= => Hq /Z.eqb_spec Hd.
by exists q.
Qed.

Lemma ft8_crc_shift (k : nat) (m : seq Z) (n : nat) :
  ft8_crc (nseq k 0%Z ++ m) (k + n) = ft8_crc m n.
Proof.
set B := append_zeros (nseq k 0%Z ++ m) (k + n).
have HB p : nth 0%Z B (k + p) = nth 0%Z (append_zeros m n) p.
  rewrite !nth_append_zeros ltn_add2l nth_cat size_nseq.
  by rewrite [k + p < k]ltnNge leq_addr /= addKn.
have HB0 i : i \in iota 0 k -> nth 0%Z B i = 0%Z.
  rewrite mem_iota add0n /= nth_append_zeros nth_cat size_nseq => Hi.
  by rewrite Hi nth_nseq Hi; case: ifP.
rewrite /ft8_crc -/B /sweep iotaD foldl_cat (foldl_step_zeros HB0).
rewrite add0n -[k in iota k n]addn0 iotaDl.
by apply: eq_map => i; rewrite -addnA (sweep_shift _ HB).
Qed.

Lemma ft8_crc_bits (msg : seq Z) (n : nat) : all is_bit (ft8_crc msg n).
Proof.
apply/(all_nthP 0%Z) => q; rewrite size_map size_iota => Hq.
rewrite nth_ft8_crc Hq; apply: bit_is_bit.
apply: (@sweep_tail_bits n); last exact: leq_addr.
by move=> p Hp; rewrite nth_append_zeros ltnNge Hp /=; left.
Qed.

End CrcSweep.

(** X1.  Whatever integers the message holds, for every [msglen] that is
    not negative [ft8_crc] leaves 14 values in [out], each of them 0 or 1.
    (With a negative [msglen] the source reads in front of its buffer.) *)
Theorem crc_output_is_14_bits (msg : seq Z) (msglen : Z) :
  (0 <= msglen)%Z ->
  size (Crc.ft8_crc msg (Z.to_nat msglen)) = 14 /\
  all Crc.is_bit (Crc.ft8_crc msg (Z.to_nat msglen)).
Proof.
move=> _; split; first by rewrite /Crc.ft8_crc size_map size_iota.
exact: ft8_crc_bits.
Qed.

Lemma crc_output_is_14_bits_witness :
  (0 <= 3)%Z /\
  size (Crc.ft8_crc [:: 5; -2; 1]%Z (Z.to_nat 3)) = 14 /\
  all Crc.is_bit (Crc.ft8_crc [:: 5; -2; 1]%Z (Z.to_nat 3)).
Proof.
have H : (0 <= 3)%Z by [].
split; first exact: H.
exact: (@crc_output_is_14_bits [:: 5; -2; 1]%Z 3%Z H).
Defined.

(** X2.  Zeros in front of a message do not change its CRC: the CRC of
    [k] zeros followed by [msg] over [k + msglen] positions is the CRC of
    [msg] over [msglen] positions.  In particular the CRC of an all-zero
    message of any length is all zero. *)
Theorem crc_ignores_leading_zeros (msg : seq Z) (msglen k : nat) :
  Crc.ft8_crc (nseq k 0%Z ++ msg) (k + msglen) = Crc.ft8_crc msg msglen /\
  Crc.ft8_crc (nseq k 0%Z) k = nseq 14 0%Z.
Proof.
split; first exact: ft8_crc_shift.
by rewrite -[in LHS](cats0 (nseq k 0%Z)) -[k in Crc.ft8_crc _ k]addn0
           ft8_crc_shift.
Qed.

(** X3.  The CRC is linear over GF(2): for two bit strings of the same
    length, the CRC of their cell-by-cell sum modulo 2 is the cell-by-cell
    sum modulo 2 of their CRCs. *)
Theorem crc_is_linear (a b : seq Z) :
  all Crc.is_bit a -> all Crc.is_bit b -> size a = size b ->
  Crc.ft8_crc (Crc.add2 a b) (size a)
  = Crc.add2 (Crc.ft8_crc a (size a)) (Crc.ft8_crc b (size b)).
Proof.
move=> Ha Hb Hs; rewrite -Hs.
apply: (eq_from_nth (x0 := 0%Z)).
  by rewrite /Crc.add2 size_map size_zip !size_map !size_iota.
move=> q; rewrite size_map size_iota => Hq.
rewrite nth_add2 ?size_map // !nth_ft8_crc Hq.
exact: (sweep_sum _ (append_zeros_bits _ Ha) (append_zeros_bits _ Hb)
                  (append_zeros_sum Hs)).
Qed.

Lemma crc_is_linear_witness :
  Crc.ft8_crc (Crc.add2 [:: 1; 0; 1; 1; 0; 0; 1]%Z [:: 0; 1; 1; 0; 1; 0; 0]%Z) 7
  = Crc.add2 (Crc.ft8_crc [:: 1; 0; 1; 1; 0; 0; 1]%Z 7)
             (Crc.ft8_crc [:: 0; 1; 1; 0; 1; 0; 0]%Z 7).
Proof.
exact: (@crc_is_linear [:: 1; 0; 1; 1; 0; 0; 1]%Z [:: 0; 1; 1; 0; 1; 0; 0]%Z
          (erefl _) (erefl _) (erefl _)).
Defined.

(** X4.  The CRC detects every error burst of up to 14 bits: two different
    bit strings of the same length that agree before position [s] and from
    position [s + 14] on have different CRCs.  (A single flipped bit is the
    case of a burst of one.) *)
Theorem crc_detects_bursts (a b : seq Z) (s : nat) :
  all Crc.is_bit a -> all Crc.is_bit b -> size a = size b ->
  take s a = take s b -> drop (s + 14) a = drop (s + 14) b ->
  a <> b ->
  Crc.ft8_crc a (size a) <> Crc.ft8_crc b (size b).
Proof.
move=> Ha Hb Hs Htake Hdrop Hne; rewrite -Hs => Hcrc.
set n := size a in Hcrc *.
have [q Hqn Hq] := differ_somewhere Hs Hne.
have Hlow p : p < s -> nth 0%Z a p = nth 0%Z b p.
  by move=> Hp; rewrite -(nth_take 0%Z Hp a) Htake nth_take.
have Hhigh p : s + 14 <= p -> nth 0%Z a p = nth 0%Z b p.
  by move=> Hp; rewrite -(subnKC Hp) -!nth_drop Hdrop.
have Hqlo : s <= q.
  by rewrite leqNgt; apply/negP => /Hlow.
have Hqhi : q < s + 14.
  by rewrite ltnNge; apply/negP => /Hhigh.
have Hsn : s <= n by rewrite (leq_trans Hqlo) // ltnW.
pose c := Crc.append_zeros (Crc.add2 a b) n.
have Hc p : nth 0%Z c p = if p < n then Z.rem (nth 0%Z a p + nth 0%Z b p) 2
                          else 0%Z.
  by rewrite nth_append_zeros nth_add2.
have Hsame p : nth 0%Z a p = nth 0%Z b p -> nth 0%Z c p = 0%Z.
  rewrite Hc => ->; case: ifP => _ //.
  by case: (all_bits_nth p Hb) => ->.
have Hc0 i : i \in iota 0 s -> nth 0%Z c i = 0%Z.
  by rewrite mem_iota add0n /= => Hi; apply: Hsame; exact: Hlow.
have Hc1 p : s + 14 <= p -> nth 0%Z c p = 0%Z.
  by move=> Hp; apply: Hsame; exact: Hhigh.
have Hcq : exists2 q, s <= q < s + 14 & nth 0%Z c q <> 0%Z.
  exists q; first by rewrite Hqlo.
  rewrite Hc Hqn.
  by case: (all_bits_nth q Ha) (all_bits_nth q Hb) Hq => -> [] ->.
have [q' /andP [Hlo Hhi]] := sweep_keeps_nonzero (n - s) Hc1 Hcq.
rewrite subnKC // in Hlo Hhi *.
have -> : foldl Crc.step c (iota s (n - s)) = Crc.sweep c n.
  by rewrite /Crc.sweep -[n in iota 0 n](subnKC Hsn) iotaD foldl_cat
             (foldl_step_zeros Hc0).
rewrite (sweep_sum _ (append_zeros_bits _ Ha) (append_zeros_bits _ Hb)
                   (append_zeros_sum Hs)).
have Hi : q' - n < 14 by rewrite ltn_subLR.
have := congr1 (fun w => nth 0%Z w (q' - n)) Hcrc.
rewrite /= !nth_ft8_crc Hi subnKC // -/(Crc.sweep _ n) => ->.
have := sweep_bits n (append_zeros_bits n Hb) q'.
by rewrite -/n; case=> ->.
Qed.

Lemma crc_detects_bursts_witness :
  [:: 1; 0; 1; 1; 0; 0; 1]%Z <> [:: 1; 1; 1; 0; 0; 0; 1]%Z /\
  Crc.ft8_crc [:: 1; 0; 1; 1; 0; 0; 1]%Z 7
  <> Crc.ft8_crc [:: 1; 1; 1; 0; 0; 0; 1]%Z 7.
Proof.
have Hne : [:: 1; 0; 1; 1; 0; 0; 1]%Z <> [:: 1; 1; 1; 0; 0; 0; 1]%Z by [].
split; first exact: Hne.
exact: (@crc_detects_bursts [:: 1; 0; 1; 1; 0; 0; 1]%Z
          [:: 1; 1; 1; 0; 0; 0; 1]%Z 1 (erefl _) (erefl _) (erefl _)
          (erefl _) (erefl _) Hne).
Defined.

(** ** More on [fast_tanh]: symmetry, sign, range *)

Section FastTanhMore.
Import ExactQ.
Local Open Scope Q_scope.

Lemma fast_tanh_exact (qexp qlog : Q -> Q) (x : Q) :
  (x < - (76 # 10) /\
   (fast_tanh (RA := arith qexp qlog) x).1 == - (999 # 1000)) \/
  (76 # 10 < x /\
   (fast_tanh (RA := arith qexp qlog) x).1 == 999 # 1000) \/
  (- (76 # 10) <= x <= 76 # 10 /\
   (fast_tanh (RA := arith qexp qlog) x).1 == pade_num x / pade_den x).
Proof.
pose proof (@fast_tanh_val (arith qexp qlog) x) as Hval.
pose proof (exact_rlt qexp qlog x
             (@rlit (arith qexp qlog) (- (76 # 10))%Q)) as Hlo.
pose proof (exact_rlt qexp qlog
             (@rlit (arith qexp qlog) (76 # 10)%Q) x) as Hhi.
destruct (exact_ratio qexp qlog x) as [Hnum Hden].
assert (Elo : @rlit (arith qexp qlog) (- (76 # 10)) == - (76 # 10))
  by apply Qred_correct.
assert (Ehi : @rlit (arith qexp qlog) (76 # 10) == 76 # 10)
  by apply Qred_correct.
rewrite Hval.
case_guard E1.
{ left; split; [destruct Hlo as [Hl _]; specialize (Hl Logic.eq_refl); lra|].
  apply Qred_correct. }
case_guard E2.
{ right; left; split;
    [destruct Hhi as [Hh _]; specialize (Hh Logic.eq_refl); lra|].
  apply Qred_correct. }
right; right; split.
- split.
  + apply Qnot_lt_le; intro H.
    assert (false = true) by (apply Hlo; lra); discriminate.
  + apply Qnot_lt_le; intro H.
    assert (false = true) by (apply Hhi; lra); discriminate.
- change (Qred ((fast_tanh_ratio (RA := arith qexp qlog) x).1
                / (fast_tanh_ratio (RA := arith qexp qlog) x).2)
          == pade_num x / pade_den x).
  setoid_rewrite Qred_correct; setoid_rewrite Hnum; setoid_rewrite Hden.
  reflexivity.
Qed.

Lemma pade_ratio_odd (x : Q) :
  pade_num (- x) / pade_den (- x) == - (pade_num x / pade_den x).
Proof.
destruct (pade_odd x) as [Ha Hd].
pose proof (pade_den_pos x) as Hb.
setoid_rewrite Ha; setoid_rewrite Hd.
field; lra.
Qed.

Lemma pade_num_pos (x : Q) : 0 < x -> 0 < pade_num x.
Proof.
intro Hx; unfold pade_num.
assert (H : 0 <= x * x) by nra.
assert (H1 : 0 <= x * x * (378 + x * x)) by nra.
assert (H2 : 0 <= x * x * (17325 + x * x * (378 + x * x))) by nra.
apply Qmult_lt_0_compat; lra.
Qed.

Lemma pade_num_le_high (x : Q) :
  379 # 100 <= x <= 76 # 10 -> pade_num x <= (1002 # 1000) * pade_den x.
Proof.
intros [Hx0 Hx1].
remember (100 * x - 379) as u eqn:Eu.
remember (760 - 100 * x) as v eqn:Ev.
assert (Hu : 0 <= u) by (subst u; lra).
assert (Hv : 0 <= v) by (subst v; lra).
assert (Hid : 582699753090977530500000000000000
              * ((1002 # 1000) * pade_den x - pade_num x) ==
    2656021890052106893 * (v * v * v * v * v * v * v) +
    19062653172410783908 * (u * v * v * v * v * v * v) +
    74278213064600704320 * (u * u * v * v * v * v * v) +
    166081226974188092000 * (u * u * u * v * v * v * v) +
    223825638120355040000 * (u * u * u * u * v * v * v) +
    170888293257326400000 * (u * u * u * u * u * v * v) +
    61351138335155200000 * (u * u * u * u * u * u * v) +
    251840475328000000 * (u * u * u * u * u * u * u)).
{ subst u v; unfold pade_den, pade_num; ring. }
assert (P : forall a b, 0 <= a -> 0 <= b -> 0 <= a * b)
  by (intros; apply Qmult_le_0_compat; assumption).
assert (M0 : 0 <= v * v * v * v * v * v * v) by (repeat apply P; assumption).
assert (M1 : 0 <= u * v * v * v * v * v * v) by (repeat apply P; assumption).
assert (M2 : 0 <= u * u * v * v * v * v * v) by (repeat apply P; assumption).
assert (M3 : 0 <= u * u * u * v * v * v * v) by (repeat apply P; assumption).
assert (M4 : 0 <= u * u * u * u * v * v * v) by (repeat apply P; assumption).
assert (M5 : 0 <= u * u * u * u * u * v * v) by (repeat apply P; assumption).
assert (M6 : 0 <= u * u * u * u * u * u * v) by (repeat apply P; assumption).
assert (M7 : 0 <= u * u * u * u * u * u * u) by (repeat apply P; assumption).
revert Hid M0 M1 M2 M3 M4 M5 M6 M7.
generalize (v * v * v * v * v * v * v) (u * v * v * v * v * v * v)
  (u * u * v * v * v * v * v) (u * u * u * v * v * v * v)
  (u * u * u * u * v * v * v) (u * u * u * u * u * v * v)
  (u * u * u * u * u * u * v) (u * u * u * u * u * u * u)
  (pade_den x) (pade_num x).
intros; lra.
Qed.

Lemma pade_ratio_range (x : Q) :
  0 <= x <= 76 # 10 -> 0 <= pade_num x / pade_den x <= 1002 # 1000.
Proof.
intros [Hlo Hhi].
pose proof (pade_den_pos x) as Hb.
pose proof (pade_num_nonneg Hlo) as Hnn.
assert (Hle : pade_num x <= (1002 # 1000) * pade_den x).
{ destruct (Qlt_le_dec x (379 # 100)) as [Hs|Hs].
  - assert (H : pade_num x <= (999 # 1000) * pade_den x)
      by (apply pade_num_le; lra).
    lra.
  - apply pade_num_le_high; lra. }
split.
- apply Qle_shift_div_l; [assumption | lra].
- apply Qle_shift_div_r; [assumption | lra].
Qed.

End FastTanhMore.

(** X5.  In exact arithmetic [fast_tanh] is an odd function:
    [fast_tanh (-x) = - fast_tanh x] for every [x], the two clamped branches
    included. *)
Theorem fast_tanh_is_odd (qexp qlog : Q -> Q) (x : Q) :
  ((fast_tanh (RA := ExactQ.arith qexp qlog) (- x)%Q).1 ==
   - (fast_tanh (RA := ExactQ.arith qexp qlog) x).1)%Q.
Proof.
destruct (fast_tanh_exact qexp qlog x) as [[H E]|[[H E]|[H E]]];
destruct (fast_tanh_exact qexp qlog (- x)%Q) as [[H' E']|[[H' E']|[H' E']]];
  try (exfalso; lra); setoid_rewrite E; setoid_rewrite E';
  try reflexivity.
apply pade_ratio_odd.
Qed.

(** X6.  In exact arithmetic the value of [fast_tanh] has the sign of its
    argument, is 0 at 0, and never leaves [-1.002, 1.002]. *)
Theorem fast_tanh_sign_and_range (qexp qlog : Q -> Q) (x : Q) :
  ((0 < x)%Q -> (0 < (fast_tanh (RA := ExactQ.arith qexp qlog) x).1)%Q) /\
  ((x < 0)%Q -> ((fast_tanh (RA := ExactQ.arith qexp qlog) x).1 < 0)%Q) /\
  ((x == 0)%Q -> ((fast_tanh (RA := ExactQ.arith qexp qlog) x).1 == 0)%Q) /\
  (- (1002 # 1000) <= (fast_tanh (RA := ExactQ.arith qexp qlog) x).1
   <= 1002 # 1000)%Q.
Proof.
assert (Hodd := pade_ratio_odd x).
assert (Hden := pade_den_pos x).
destruct (fast_tanh_exact qexp qlog x) as [[H E]|[[H E]|[H E]]].
- repeat split; intros; try lra.
- repeat split; intros; try lra.
- destruct (Qlt_le_dec x 0) as [Hneg|Hpos].
  + assert (Hr : (0 <= - x <= 76 # 10)%Q) by lra.
    pose proof (pade_ratio_range Hr) as [R1 R2].
    assert (Hn : (0 < ExactQ.pade_num (- x))%Q) by (apply pade_num_pos; lra).
    destruct (pade_odd x) as [Ha Hd].
    assert (Hlt : (ExactQ.pade_num x / ExactQ.pade_den x < 0)%Q).
    { apply Qlt_shift_div_r; [assumption | lra]. }
    repeat split; intros; try lra.
  + pose proof (pade_ratio_range (conj Hpos (proj2 H))) as [R1 R2].
    repeat split; intros; try lra.
    * assert (Hn : (0 < ExactQ.pade_num x)%Q) by (apply pade_num_pos; lra).
      assert (Hlt : (0 < ExactQ.pade_num x / ExactQ.pade_den x)%Q).
      { apply Qlt_shift_div_l; [assumption | lra]. }
      lra.
    * assert (Hz : (ExactQ.pade_num x == 0)%Q).
      { unfold ExactQ.pade_num.
        match goal with Hx : (x == 0)%Q |- _ => setoid_rewrite Hx end.
        ring. }
      setoid_rewrite E; setoid_rewrite Hz.
      field; lra.
Qed.

(** ** More on Gauss-Jordan: what a call leaves untouched, the reduced
       left half, and what a failure means *)

Section GjFrame.
Import GaussJordan.
Variables (n cols : nat).
Hypothesis Hn : n <= cols.
Variables (m0 : imatrix) (which0 : seq Z).

Local Notation frame := (outside_kept n cols m0 which0).

Lemma swap_idx_outside (row row1 r : nat) :
  row < cols -> row1 < cols -> cols <= r -> swap_idx row row1 r = r.
Proof.
move=> H H1 Hr; rewrite /swap_idx.
by rewrite !gtn_eqF // (leq_trans _ Hr).
Qed.

Lemma choose_pivot_frame (s : imatrix * seq Z) (k : nat) :
  k < n -> frame s -> frame (choose_pivot n cols s.1 s.2 k).
Proof.
move=> Hk [Hm Hw]; rewrite /choose_pivot.
have Hkc : k < cols := leq_trans Hk Hn.
case: ifP => _; last by [].
case: (find_pivot_spec n (iota k.+1 (cols - k.+1)) s.1 s.2 k)
  => [[-> _]|[row1 [Hin _ ->]]]; first by [].
rewrite mem_iota subnKC // in Hin.
case/andP: Hin => Hlt Hc.
have Hne : k != row1 by rewrite ltn_eqF.
split=> /=.
  move=> r c Hrc; rewrite swap_rows_idx // -(Hm r c Hrc).
  case: ifP => // Hc2; move: Hrc; rewrite [2 * n <= c]leqNgt Hc2 orbF => Hr.
  by rewrite swap_idx_outside.
by move=> r Hr; rewrite swap_which_idx swap_idx_outside // Hw.
Qed.

Lemma pivot_step_frame (s : imatrix * seq Z) (k : nat) :
  k < n -> frame s ->
  match pivot_step n cols s k with
  | inl s' => frame s'
  | inr s' => frame s'
  end.
Proof.
move=> Hk Hs; rewrite /pivot_step.
have := choose_pivot_frame Hk Hs.
case: (choose_pivot n cols s.1 s.2 k) => m1 which1 /= [Hm Hw].
case: ifP => _; first by [].
split=> //= r c Hrc.
have Hkc : k < cols := leq_trans Hk Hn.
rewrite eliminate_get; case: ifP => [/and4P [Hr _ _ Hc]|_].
  by move: Hrc; rewrite [cols <= r]leqNgt Hr [2 * n <= c]leqNgt Hc.
rewrite get_set -(Hm r c Hrc).
have -> // : (r == k) && (c == n + k) = false.
case/orP: Hrc => H; first by rewrite gtn_eqF // (leq_trans Hkc).
rewrite [c == _]gtn_eqF ?andbF // (leq_trans _ H) //.
by rewrite mul2n -addnn ltn_add2l.
Qed.

Lemma gj_loop_frame (todo : seq nat) (s : imatrix * seq Z) :
  all (fun k => k < n) todo -> frame s ->
  frame (gj_loop n cols todo s).1 /\
  ((gj_loop n cols todo s).2 = 0%Z \/ (gj_loop n cols todo s).2 = 1%Z).
Proof.
elim: todo s => [|k todo IH] s /=; first by move=> _ Hs; split=> //; right.
case/andP => Hk Hall Hs.
have := pivot_step_frame Hk Hs.
case: (pivot_step n cols s k) => s' Hs'; first by split=> //; left.
exact: IH.
Qed.

End GjFrame.

Section GjKernel.
Import GaussJordan.
Variables (n cols : nat).
Hypothesis Hn : n <= cols.
Variables (m0 : imatrix) (which0 : seq Z).

Lemma left_is_wide (j : nat) : j < n -> j < 2 * n.
Proof. by move=> Hj; rewrite mul2n -addnn (leq_trans Hj) // leq_addr. Qed.

Lemma gf2_double (v : Z) : (gf2 v + gf2 v = 0)%R.
Proof. by rewrite /gf2; case: (v =? 0)%Z; [rewrite GRing.addr0 | apply/eqP]. Qed.

Lemma gf2_bit_value (v : Z) (b : bool) :
  bit01 v -> gf2 v = (b%:R)%R -> v = if b then 1%Z else 0%Z.
Proof.
by move=> /bit01_cases [->|->]; rewrite /gf2 /=; case: b => // /eqP.
Qed.

Lemma reduced_left_values (k : nat) (m : imatrix) (which : seq Z)
    (pos : nat -> nat) (r c : nat) :
  reduced n cols k m0 which0 m which pos -> r < cols -> c < k ->
  get m r c = if r == c then 1%Z else 0%Z.
Proof.
move=> H Hr Hc; apply: gf2_bit_value; first exact: (red_bits H).
exact: (red_left H).
Qed.

Lemma swap_annihilates (m : imatrix) (row row1 : nat) (x : nat -> 'F_2) :
  row != row1 -> row < cols -> row1 < cols ->
  annihilates n cols (swap_rows n m row row1) x -> annihilates n cols m x.
Proof.
move=> Hne Hr Hr1 H r Hrc.
have [_ Hb] := @swap_idx_bounds 0 cols row row1 r (leq0n _) (leq0n _) Hr Hr1.
have Hs := H (swap_idx row row1 r); rewrite Hb in Hs.
rewrite -[RHS](Hs Hrc); apply: eq_bigr => j _.
by rewrite swap_rows_idx // (left_is_wide (ltn_ord j)) swap_idx_involutive.
Qed.

Lemma choose_pivot_annihilates (k : nat) (m : imatrix) (which : seq Z)
    (x : nat -> 'F_2) :
  k < n ->
  annihilates n cols (choose_pivot n cols m which k).1 x ->
  annihilates n cols m x.
Proof.
move=> Hk; rewrite /choose_pivot.
have Hkc : k < cols := leq_trans Hk Hn.
case: ifP => _ //.
case: (find_pivot_spec n (iota k.+1 (cols - k.+1)) m which k)
  => [[-> _]|[row1 [Hin _ ->]]] //=.
rewrite mem_iota subnKC // in Hin.
case/andP: Hin => Hlt Hc.
by apply: swap_annihilates => //; rewrite ltn_eqF.
Qed.

Lemma toggle_annihilates (k : nat) (m : imatrix) (v : Z) (x : nat -> 'F_2) :
  annihilates n cols (set m k (n + k) v) x -> annihilates n cols m x.
Proof.
move=> H r Hr; rewrite -[RHS](H r Hr); apply: eq_bigr => j _.
rewrite get_set (@ltn_eqF j) ?andbF //.
by rewrite (leq_trans (ltn_ord j)) // leq_addr.
Qed.

Lemma eliminate_annihilates (k : nat) (m : imatrix) (x : nat -> 'F_2) :
  (forall r c, bit01 (get m r c)) -> k < cols ->
  annihilates n cols (eliminate n cols m k) x -> annihilates n cols m x.
Proof.
move=> Hbit Hk H.
have Hk0 : (\sum_(j < n) gf2 (get m k j) * x j = 0)%R.
  rewrite -[RHS](H k Hk); apply: eq_bigr => j _.
  by rewrite eliminate_get eqxx /= andbF.
move=> r Hr; rewrite -[RHS](H r Hr).
case E: [&& r < cols, r != k & ~~ (get m r k =? 0)%Z]; last first.
  apply: eq_bigr => j _.
  by rewrite eliminate_get (left_is_wide (ltn_ord j)) !andbT E.
have -> : (\sum_(j < n) gf2 (get (eliminate n cols m k) r j) * x j
           = \sum_(j < n) (gf2 (get m r j) * x j + gf2 (get m k j) * x j))%R.
  apply: eq_bigr => j _.
  rewrite eliminate_get (left_is_wide (ltn_ord j)) !andbT E gf2_add //.
  by rewrite GRing.mulrDl.
by rewrite big_split /= Hk0 GRing.addr0.
Qed.

Lemma pivot_step_annihilates (k : nat) (m : imatrix) (which : seq Z)
    (pos : nat -> nat) (s' : imatrix * seq Z) (x : nat -> 'F_2) :
  k < n ->
  reduced n cols k m0 which0 m which pos ->
  pivot_step n cols (m, which) k = inr s' ->
  annihilates n cols s'.1 x -> annihilates n cols m x.
Proof.
move=> Hk H; rewrite /pivot_step /=.
have Hkc : k < cols := leq_trans Hk Hn.
have [pos' H'] := choose_pivot_reduced Hn Hk H.
have := @choose_pivot_annihilates k m which x Hk.
move: H'; case: (choose_pivot n cols m which k) => m1 which1 /= H' Hchoose.
case: ifP => // _ [<-] /= Hx.
apply: Hchoose; apply: (@toggle_annihilates k _ _ x).
apply: eliminate_annihilates Hx => // r c.
rewrite get_set; case: ifP => _; last exact: (red_bits H').
by apply: bit01_add; first exact: (red_bits H').
Qed.

Lemma pivot_step_stuck_zero (k : nat) (m : imatrix) (which : seq Z)
    (pos : nat -> nat) (s1 : imatrix * seq Z) :
  k < n ->
  reduced n cols k m0 which0 m which pos ->
  pivot_step n cols (m, which) k = inl s1 ->
  forall r, k <= r < cols -> get m r k = 0%Z.
Proof.
move=> Hk H; rewrite /pivot_step /choose_pivot /=.
have Hkc : k < cols := leq_trans Hk Hn.
have Hzero r : get m r k <> 1%Z -> get m r k = 0%Z.
  by case: (bit01_cases (red_bits H r k)).
case E: (get m k k =? 1)%Z => /=; first by rewrite E.
case: (find_pivot_spec n (iota k.+1 (cols - k.+1)) m which k)
  => [[-> /allP Hall]|[row1 [Hin H1 ->]]] /=.
  move=> _ r /andP [Hlo Hhi]; apply: Hzero.
  move: Hlo; rewrite leq_eqVlt => /orP [/eqP <-|Hlt].
    by move/Z.eqb_spec: E.
  have /Hall/Z.eqb_spec // : r \in iota k.+1 (cols - k.+1).
  by rewrite mem_iota subnKC // Hlt.
rewrite mem_iota subnKC // in Hin.
case/andP: Hin => Hlt Hc.
rewrite swap_rows_idx ?(ltn_eqF Hlt) // (left_is_wide Hk).
by rewrite /swap_idx eqxx H1.
Qed.

Lemma stuck_annihilates (k : nat) (m : imatrix) (which : seq Z)
    (pos : nat -> nat) :
  k < n ->
  reduced n cols k m0 which0 m which pos ->
  (forall r, k <= r < cols -> get m r k = 0%Z) ->
  annihilates n cols m
    (fun j => if j == k then 1%R else if j < k then gf2 (get m j k) else 0%R).
Proof.
move=> Hk H Hz r Hr.
pose g := gf2 (get m r k).
have Hterm (j : 'I_n) :
    (gf2 (get m r j)
     * (if (j : nat) == k then 1 else if j < k then gf2 (get m j k) else 0)
     = (j == k :> nat)%:R * g + (j == r :> nat)%:R * ((r < k)%:R * g))%R.
  case: (eqVneq (j : nat) k) => [->|Hjk].
    rewrite GRing.mulr1 GRing.mul1r.
    case: (eqVneq k r) => [Ekr|_].
      by rewrite -Ekr ltnn !GRing.mul0r GRing.mulr0 GRing.addr0 /g -Ekr.
    by rewrite GRing.mul0r GRing.addr0.
  rewrite GRing.mul0r GRing.add0r.
  case: (ltnP j k) => Hlt.
    rewrite (red_left H) // eq_sym.
    case: (eqVneq (j : nat) r) => [Ejr|_]; last by rewrite !GRing.mul0r.
    by rewrite !GRing.mul1r /g -Ejr Hlt GRing.mul1r.
  rewrite GRing.mulr0.
  case: (eqVneq (j : nat) r) => [Ejr|_]; last by rewrite GRing.mul0r.
  by rewrite -Ejr ltnNge Hlt GRing.mul0r GRing.mulr0.
rewrite (eq_bigr _ (fun j _ => Hterm j)) big_split /=.
rewrite (sum_delta (fun _ => g) Hk).
have -> : (\sum_(j < n) (j == r :> nat)%:R * ((r < k)%:R * g)
           = (r < k)%:R * g)%R.
  case: (ltnP r n) => Hrn; first exact: (sum_delta (fun _ => _) Hrn).
  have -> : (r < k) = false by rewrite ltnNge (ltnW (leq_trans Hk Hrn)).
  rewrite GRing.mul0r; apply: big1 => j _.
  by rewrite GRing.mulr0.
case: (ltnP r k) => Hrk; first by rewrite GRing.mul1r; exact: gf2_double.
by rewrite GRing.mul0r GRing.addr0 /g Hz // Hrk.
Qed.

Lemma gj_loop_singular (d k : nat) (m : imatrix) (which : seq Z)
    (pos : nat -> nat) (res : imatrix * seq Z) :
  k + d = n ->
  reduced n cols k m0 which0 m which pos ->
  gj_loop n cols (iota k d) (m, which) = (res, 0%Z) ->
  exists x : nat -> 'F_2,
    (exists2 r, r < n & x r = 1%R) /\ annihilates n cols m x.
Proof.
elim: d k m which pos => [|d IH] k m which pos /=; first by [].
rewrite addnS -addSn => Hd H.
have Hk : k < n by rewrite -Hd leq_addr.
case E: (pivot_step n cols (m, which) k) => [s1|[m' which']].
  move=> _.
  exists (fun j => if j == k then 1%R
                   else if j < k then gf2 (get m j k) else 0%R).
  split; first by exists k => //; rewrite eqxx.
  exact: (stuck_annihilates Hk H (pivot_step_stuck_zero Hk H E)).
have [pos' H'] := pivot_step_reduced Hn Hk H E.
move=> /(IH _ _ _ _ Hd H') [x [Hx Hann]].
exists x; split=> //.
exact: (pivot_step_annihilates Hk H E Hann).
Qed.

End GjKernel.

Section GjCallMore.
Import GaussJordan.

Lemma ok_zero_exists (o : option (imatrix * seq Z * Z)) :
  (if o is Some (_, _, ok) then (ok =? 0)%Z else false) ->
  exists m1 which1, o = Some (m1, which1, 0%Z).
Proof.
case: o => [[[m1 which1] ok]|] // /Z.eqb_eq ->.
by exists m1, which1.
Qed.

Lemma rows_below_91 : all (fun k => k < 91) (iota 0 91).
Proof. by apply/allP => k; rewrite mem_iota. Qed.

End GjCallMore.

(** X11.  Whatever the arrays hold, a call [gauss_jordan 91 174] leaves
    every cell of [m] outside rows 0 .. 173 and columns 0 .. 181, and every
    entry of [which] from index 174 on, as it found them; and it sets
    [*ok] to 0 or to 1.  (Entries of [which] up to index 173 may be
    exchanged.) *)
Theorem gauss_jordan_stays_in_bounds
    (m0 : GaussJordan.imatrix) (which0 : seq Z)
    (m1 : GaussJordan.imatrix) (which1 : seq Z) (ok : Z) :
  GaussJordan.gauss_jordan 91 174 m0 which0 = Some (m1, which1, ok) ->
  [/\ forall r c, (174 <= r) || (182 <= c) ->
                  GaussJordan.get m1 r c = GaussJordan.get m0 r c,
      forall r, 174 <= r -> nth 0%Z which1 r = nth 0%Z which0 r
    & ok = 0%Z \/ ok = 1%Z].
Proof.
rewrite gauss_jordan_91_174 => /Some_inj E.
have Hinit : GaussJordan.outside_kept 91 174 m0 which0 (m0, which0) by [].
have [[Hm Hw] Hok] :=
  @gj_loop_frame 91 174 (erefl _) m0 which0 (iota 0 91) (m0, which0)
                 rows_below_91 Hinit.
by move: Hm Hw Hok; rewrite E /=; split.
Qed.

Lemma gauss_jordan_stays_in_bounds_witness :
  exists m1 which1,
    [/\ GaussJordan.gauss_jordan 91 174 GaussJordan.example_matrix
          GaussJordan.example_which = Some (m1, which1, 1%Z),
        forall r c, (174 <= r) || (182 <= c) ->
          GaussJordan.get m1 r c = GaussJordan.get GaussJordan.example_matrix r c
      & forall r, 174 <= r ->
          nth 0%Z which1 r = nth 0%Z GaussJordan.example_which r].
Proof.
have [m1 [which1 Hrun]] :
    exists m1 which1,
      GaussJordan.gauss_jordan 91 174 GaussJordan.example_matrix
        GaussJordan.example_which = Some (m1, which1, 1%Z).
  by apply: ok_one_exists; vm_compute.
have [Hm Hw _] := gauss_jordan_stays_in_bounds Hrun.
by exists m1, which1; split.
Defined.

(** X12.  For a matrix of bits with zero right half, a call that ends with
    [ok = 1] leaves a matrix of bits whose left half is fully reduced: in
    columns 0 .. 90, row [r] holds a 1 in column [r] and 0 elsewhere for
    [r < 91], and rows 91 .. 173 are zero. *)
Theorem gauss_jordan_reduces_left_half
    (m0 : GaussJordan.imatrix) (which0 : seq Z)
    (m1 : GaussJordan.imatrix) (which1 : seq Z) :
  GaussJordan.bit_matrix m0 ->
  GaussJordan.right_half_zero m0 ->
  GaussJordan.gauss_jordan 91 174 m0 which0 = Some (m1, which1, 1%Z) ->
  (forall r c, GaussJordan.bit01 (GaussJordan.get m1 r c)) /\
  (forall r c, r < 174 -> c < 91 ->
     GaussJordan.get m1 r c = if r == c then 1%Z else 0%Z).
Proof.
move=> Hbits Hzero; rewrite gauss_jordan_91_174 => /Some_inj Hrun.
have Hb r' c' : GaussJordan.bit01 (GaussJordan.get m0 r' c').
  exact: bit_matrix_get.
have Hz r' t : GaussJordan.get m0 r' (91 + t) = 0%Z.
  exact: right_half_zero_get.
have [pos /= H] :=
  @gj_loop_reduced 91 174 (erefl _) m0 which0 91 0 m0 which0 id (m1, which1)
    (erefl _) (reduced_init 174 which0 Hb Hz) Hrun.
split; first exact: (GaussJordan.red_bits H).
by move=> r c Hr Hc; exact: (reduced_left_values H Hr Hc).
Qed.

Lemma gauss_jordan_reduces_left_half_witness :
  exists m1 which1,
    [/\ GaussJordan.gauss_jordan 91 174 GaussJordan.example_matrix
          GaussJordan.example_which = Some (m1, which1, 1%Z),
        forall r c, GaussJordan.bit01 (GaussJordan.get m1 r c)
      & forall r c, r < 174 -> c < 91 ->
          GaussJordan.get m1 r c = if r == c then 1%Z else 0%Z].
Proof.
have Hb : GaussJordan.bit_matrix GaussJordan.example_matrix by vm_compute.
have Hz : GaussJordan.right_half_zero GaussJordan.example_matrix.
  by vm_compute.
have [m1 [which1 Hrun]] :
    exists m1 which1,
      GaussJordan.gauss_jordan 91 174 GaussJordan.example_matrix
        GaussJordan.example_which = Some (m1, which1, 1%Z).
  by apply: ok_one_exists; vm_compute.
have [H1 H2] := gauss_jordan_reduces_left_half Hb Hz Hrun.
by exists m1, which1; split.
Defined.

(** X13.  For a matrix of bits with zero right half, a call ends with
    [ok = 0] only when the 174 x 91 left half has no 91 rows that form an
    invertible matrix over GF(2): whichever rows [pos 0 .. pos 90] one
    selects among rows 0 .. 173, the selected 91 x 91 matrix is singular. *)
Theorem gauss_jordan_fails_only_if_singular
    (m0 : GaussJordan.imatrix) (which0 : seq Z)
    (m1 : GaussJordan.imatrix) (which1 : seq Z) (pos : nat -> nat) :
  GaussJordan.bit_matrix m0 ->
  GaussJordan.right_half_zero m0 ->
  GaussJordan.gauss_jordan 91 174 m0 which0 = Some (m1, which1, 0%Z) ->
  (forall i, i < 91 -> pos i < 174) ->
  GaussJordan.selected_left 91 m0 pos \notin unitmx.
Proof.
move=> Hbits Hzero; rewrite gauss_jordan_91_174 => /Some_inj Hrun Hpos.
have Hb r' c' : GaussJordan.bit01 (GaussJordan.get m0 r' c').
  exact: bit_matrix_get.
have Hz r' t : GaussJordan.get m0 r' (91 + t) = 0%Z.
  exact: right_half_zero_get.
have [x [[r Hr Hx] Hann]] :=
  @gj_loop_singular 91 174 (erefl _) m0 which0 91 0 m0 which0 id (m1, which1)
    (erefl _) (reduced_init 174 which0 Hb Hz) Hrun.
apply/negP => Hu.
pose v : 'cV['F_2]_91 := (\col_j x j)%R.
have Hv : (GaussJordan.selected_left 91 m0 pos *m v = 0)%R.
  apply/matrixP => i j; rewrite !mxE.
  rewrite -[RHS](Hann (pos i) (Hpos i (ltn_ord i))).
  by apply: eq_bigr => t _; rewrite !mxE.
have Hv0 : v = 0%R by rewrite -(mulKmx Hu v) Hv mulmx0.
have := congr1 (fun w : 'cV['F_2]_91 => w (Ordinal Hr) ord0) Hv0.
by rewrite !mxE /= Hx.
Qed.

Lemma gauss_jordan_fails_only_if_singular_witness :
  GaussJordan.selected_left 91 GaussJordan.example_singular id \notin unitmx.
Proof.
have Hb : GaussJordan.bit_matrix GaussJordan.example_singular by vm_compute.
have Hz : GaussJordan.right_half_zero GaussJordan.example_singular.
  by vm_compute.
have [m1 [which1 Hrun]] :
    exists m1 which1,
      GaussJordan.gauss_jordan 91 174 GaussJordan.example_singular
        GaussJordan.example_which = Some (m1, which1, 0%Z).
  by apply: ok_zero_exists; vm_compute.
apply: (gauss_jordan_fails_only_if_singular Hb Hz Hrun) => i Hi.
exact: (leq_trans Hi).
Defined.

Section GjPivotChoice.
Import GaussJordan.

Lemma find_pivot_skip (rows : nat) (a b : seq nat) (m : imatrix)
    (which : seq Z) (row : nat) :
  (forall r, r \in a -> get m r row <> 1%Z) ->
  find_pivot rows (a ++ b) m which row = find_pivot rows b m which row.
Proof.
elim: a => [|r a IH] //= Hno.
case: Z.eqb_spec => [E|_]; first by case: (Hno r (mem_head _ _)).
by apply: IH => r' Hr'; apply: Hno; rewrite inE Hr' orbT.
Qed.

Lemma choose_pivot_first (rows cols : nat) (m : imatrix) (which : seq Z)
    (row row1 : nat) :
  get m row row <> 1%Z ->
  row < row1 < cols ->
  get m row1 row = 1%Z ->
  (forall r, row < r < row1 -> get m r row <> 1%Z) ->
  choose_pivot rows cols m which row
  = (swap_rows rows m row row1, swap_which which row row1).
Proof.
rewrite /choose_pivot.
move=> /Z.eqb_spec Hd /andP [Hlo Hhi] H1 Hno.
case: ifP => [_|]; last by case: Z.eqb_spec Hd.
have -> : iota row.+1 (cols - row.+1)
          = iota row.+1 (row1 - row.+1)
            ++ row1 :: iota row1.+1 (cols - row1.+1).
  have -> : cols - row.+1 = (row1 - row.+1) + (cols - row1.+1).+1.
    rewrite subnSK //; apply: (@addIn row.+1).
    by rewrite subnK ?(ltn_trans Hlo Hhi) // addnAC subnK // subnKC // ltnW.
  by rewrite iotaD subnKC.
have Hskip r : r \in iota row.+1 (row1 - row.+1) -> get m r row <> 1%Z.
  by rewrite mem_iota subnKC // => Hr; exact: Hno.
by rewrite (find_pivot_skip _ _ _ Hskip) /= H1.
Qed.

End GjPivotChoice.

(** X15.  The pivot search of [gauss_jordan] for row [row].  When
    [m[row][row]] is 1 nothing changes.  Otherwise, with [row1] the first
    row after [row] (and before [cols]) that holds a 1 in column [row]:
    in columns [0 .. 2 rows - 1] row [row] receives the cells of row [row1]
    and row [row1] those of row [row], [which[row]] and [which[row1]]
    change places, and every other cell of [m] and [which] is as before. *)
Theorem pivot_is_first_row_with_a_one
    (rows cols : nat) (m : GaussJordan.imatrix) (which : seq Z)
    (row row1 : nat) :
  (GaussJordan.get m row row = 1%Z ->
   GaussJordan.choose_pivot rows cols m which row = (m, which)) /\
  (GaussJordan.get m row row <> 1%Z ->
   row < row1 < cols ->
   GaussJordan.get m row1 row = 1%Z ->
   (forall r, row < r < row1 -> GaussJordan.get m r row <> 1%Z) ->
   (forall r c,
      GaussJordan.get (GaussJordan.choose_pivot rows cols m which row).1 r c =
      if c < 2 * rows
      then (if r == row then GaussJordan.get m row1 c
            else if r == row1 then GaussJordan.get m row c
            else GaussJordan.get m r c)
      else GaussJordan.get m r c) /\
   (forall r,
      nth 0%Z (GaussJordan.choose_pivot rows cols m which row).2 r =
      if r == row1 then nth 0%Z which row
      else if r == row then nth 0%Z which row1
      else nth 0%Z which r)).
Proof.
split; first by rewrite /GaussJordan.choose_pivot => ->.
move=> Hd Hrow H1 Hno.
rewrite (choose_pivot_first rows which Hd Hrow H1 Hno) /=.
have Hne : row != row1 by case/andP: Hrow => /ltn_eqF ->.
split=> [r c|r]; first exact: swap_rows_get.
exact: swap_which_nth.
Qed.

Lemma pivot_is_first_row_with_a_one_witness :
  GaussJordan.get GaussJordan.example_matrix 0 0 <> 1%Z /\
  (forall r c,
      GaussJordan.get (GaussJordan.choose_pivot 91 174
                         GaussJordan.example_matrix
                         GaussJordan.example_which 0).1 r c =
      if c < 2 * 91
      then (if r == 0 then GaussJordan.get GaussJordan.example_matrix 173 c
            else if r == 173 then GaussJordan.get GaussJordan.example_matrix 0 c
            else GaussJordan.get GaussJordan.example_matrix r c)
      else GaussJordan.get GaussJordan.example_matrix r c) /\
  (forall r,
      nth 0%Z (GaussJordan.choose_pivot 91 174 GaussJordan.example_matrix
                 GaussJordan.example_which 0).2 r =
      if r == 173 then nth 0%Z GaussJordan.example_which 0
      else if r == 0 then nth 0%Z GaussJordan.example_which 173
      else nth 0%Z GaussJordan.example_which r).
Proof.
have H0 : GaussJordan.get GaussJordan.example_matrix 0 0 <> 1%Z by vm_compute.
split; first exact: H0.
apply: (proj2 (pivot_is_first_row_with_a_one 91 174 GaussJordan.example_matrix
                 GaussJordan.example_which 0 173) H0 (erefl _)).
  by vm_compute.
move=> r Hr.
have : all (fun r => ~~ (GaussJordan.get GaussJordan.example_matrix r 0 =? 1)%Z)
           (iota 1 172).
  by vm_compute.
by move/allP/(_ r); rewrite mem_iota => /(_ Hr) /Z.eqb_spec.
Defined.

(** ** The CRC and double errors *)

Section CrcDouble.
Import Crc.

Lemma nth_flip (a : seq Z) (i p : nat) :
  nth 0%Z (flip a i) p
  = if p == i then Z.rem (nth 0%Z a i + 1) 2 else nth 0%Z a p.
Proof. by rewrite /flip nth_set_nth. Qed.

Lemma size_flip (a : seq Z) (i : nat) :
  i < size a -> size (flip a i) = size a.
Proof. by move=> Hi; rewrite /flip size_set_nth; apply/maxn_idPr. Qed.

Lemma append_zeros_bits_nth (msg : seq Z) (n : nat) :
  (forall p, bit (nth 0%Z msg p)) -> bits (append_zeros msg n).
Proof.
by move=> Hmsg p; rewrite nth_append_zeros; case: ifP => _ //; left.
Qed.

Lemma nth_unit (n i p : nat) :
  i < n ->
  nth 0%Z (nseq i 0%Z ++ 1%Z :: nseq (n - i.+1) 0%Z) p
  = if p == i then 1%Z else 0%Z.
Proof.
move=> Hi; rewrite nth_cat size_nseq.
case: (ltngtP p i) => Hp.
- by rewrite nth_nseq Hp.
- by rewrite -(subnSK Hp) /= nth_nseq; case: ifP.
- by rewrite Hp subnn.
Qed.

Lemma all2_differ (x y : seq Z) :
  size x = size y -> ~~ all2 Z.eqb x y ->
  exists2 q, q < size x & nth 0%Z x q <> nth 0%Z y q.
Proof.
elim: x y => [|u x IH] [|v y] //= [Hs].
case: Z.eqb_spec => [_ /= Hn|Hne _]; last by exists 0.
by have [q Hq Hd] := IH y Hs Hn; exists q.+1.
Qed.

Lemma unit_crc_table :
  let t := [seq ft8_crc (1%Z :: nseq k 0%Z) k.+1 | k <- iota 0 96] in
  all (fun k1 =>
         all (fun k2 => ~~ all2 Z.eqb (nth [::] t k1) (nth [::] t k2))
             (iota 0 k1))
      (iota 0 96).
Proof. by vm_compute. Qed.

Lemma unit_crcs_differ (k1 k2 : nat) :
  k2 < k1 -> k1 < 96 ->
  exists2 q, q < 14
    & nth 0%Z (ft8_crc (1%Z :: nseq k1 0%Z) k1.+1) q
      <> nth 0%Z (ft8_crc (1%Z :: nseq k2 0%Z) k2.+1) q.
Proof.
move=> H21 H1.
have H2 : k2 < 96 := ltn_trans H21 H1.
have Hk1 : k1 \in iota 0 96 by rewrite mem_iota.
have Hk2 : k2 \in iota 0 k1 by rewrite mem_iota.
have := allP (allP unit_crc_table k1 Hk1) k2 Hk2.
rewrite !(nth_map 0) ?size_iota // !nth_iota // !add0n.
move/all2_differ; rewrite !size_map !size_iota => /(_ (erefl _)) [q Hq Hd].
by exists q.
Qed.

Lemma unit_crc_shift (n i q : nat) :
  i < n -> q < 14 ->
  nth 0%Z (sweep (append_zeros (nseq i 0%Z ++ 1%Z :: nseq (n - i.+1) 0%Z) n) n)
      (n + q)
  = nth 0%Z (ft8_crc (1%Z :: nseq (n - i.+1) 0%Z) (n - i.+1).+1) q.
Proof.
move=> Hi Hq.
have := nth_ft8_crc (nseq i 0%Z ++ 1%Z :: nseq (n - i.+1) 0%Z) n q.
rewrite Hq => <-.
have E := ft8_crc_shift i (1%Z :: nseq (n - i.+1) 0%Z) (n - i).
rewrite (subnKC (ltnW Hi)) in E.
by rewrite E subnSK.
Qed.

End CrcDouble.

(** X16.  The CRC detects every double error in messages of up to 96 bits:
    inverting two different bits of a bit string of at most 96 bits changes
    its CRC. *)
Theorem crc_detects_double_errors (a : seq Z) (i j : nat) :
  all Crc.is_bit a -> size a <= 96 -> i < j < size a ->
  Crc.ft8_crc (Crc.flip (Crc.flip a i) j) (size a)
  <> Crc.ft8_crc a (size a).
Proof.
move=> Ha Hn /andP [Hij Hj] Hcrc.
set n := size a in Hn Hj Hcrc.
have Hi : i < n := ltn_trans Hij Hj.
set b := Crc.flip (Crc.flip a i) j in Hcrc.
have Hbp p : nth 0%Z b p
    = if (p == i) || (p == j) then Z.rem (nth 0%Z a p + 1) 2
      else nth 0%Z a p.
  rewrite /b !nth_flip (gtn_eqF Hij).
  case: (eqVneq p j) => [->|_]; first by rewrite orbT.
  by rewrite orbF; case: (eqVneq p i) => [->|_].
have Hsb : size a = size b by rewrite /b !size_flip // size_flip.
have Hbb p : Crc.bit (nth 0%Z b p).
  rewrite Hbp; case: ifP => _; last exact: all_bits_nth.
  by apply: bit_add; [exact: all_bits_nth | right].
pose ui := Crc.append_zeros (nseq i 0%Z ++ 1%Z :: nseq (n - i.+1) 0%Z) n.
pose uj := Crc.append_zeros (nseq j 0%Z ++ 1%Z :: nseq (n - j.+1) 0%Z) n.
pose c := Crc.append_zeros (Crc.add2 a b) n.
have Hui p : nth 0%Z ui p = if p == i then 1%Z else 0%Z.
  rewrite nth_append_zeros nth_unit //.
  by case: (eqVneq p i) => [->|_]; [rewrite Hi | case: ifP].
have Huj p : nth 0%Z uj p = if p == j then 1%Z else 0%Z.
  rewrite nth_append_zeros nth_unit //.
  by case: (eqVneq p j) => [->|_]; [rewrite Hj | case: ifP].
have Hc p : nth 0%Z c p = if (p == i) || (p == j) then 1%Z else 0%Z.
  rewrite nth_append_zeros nth_add2 // Hbp.
  case: (ltnP p n) => Hp.
    by case: ifP => _; case: (all_bits_nth p Ha) => ->.
  have Hpi : (p == i) = false by rewrite gtn_eqF // (leq_trans Hi).
  have Hpj : (p == j) = false by rewrite gtn_eqF // (leq_trans Hj).
  by rewrite Hpi Hpj.
have Hunits : Crc.sum_of ui uj c.
  move=> p; rewrite Hui Huj Hc.
  case: (eqVneq p i) => [->|_]; first by rewrite (ltn_eqF Hij).
  by case: (eqVneq p j).
have Hbits_ui : Crc.bits ui by move=> p; rewrite Hui; case: ifP; [right|left].
have Hbits_uj : Crc.bits uj by move=> p; rewrite Huj; case: ifP; [right|left].
have Hlt : n - j.+1 < n - i.+1.
  by apply: ltn_sub2l; [exact: (leq_ltn_trans Hij Hj) | rewrite ltnS].
have Hle : n - i.+1 < 96.
  apply: leq_trans Hn.
  by rewrite ltn_subrL /= (leq_ltn_trans (leq0n i) Hi).
have [q Hq Hd] := unit_crcs_differ Hlt Hle.
rewrite -(unit_crc_shift Hi Hq) -(unit_crc_shift Hj Hq) -/ui -/uj in Hd.
have Hx : Crc.bit (nth 0%Z (Crc.sweep ui n) (n + q)).
  exact: (sweep_bits n Hbits_ui).
have Hy : Crc.bit (nth 0%Z (Crc.sweep uj n) (n + q)).
  exact: (sweep_bits n Hbits_uj).
have Hz : Crc.bit (nth 0%Z (Crc.sweep (Crc.append_zeros a n) n) (n + q)).
  exact: (sweep_bits n (append_zeros_bits n Ha)).
have E1 : nth 0%Z (Crc.sweep c n) (n + q)
          = Z.rem (nth 0%Z (Crc.sweep ui n) (n + q)
                   + nth 0%Z (Crc.sweep uj n) (n + q)) 2.
  exact: (sweep_sum (iota 0 n) Hbits_ui Hbits_uj Hunits (n + q)).
have E2 : nth 0%Z (Crc.sweep c n) (n + q)
          = Z.rem (nth 0%Z (Crc.sweep (Crc.append_zeros a n) n) (n + q)
                   + nth 0%Z (Crc.sweep (Crc.append_zeros b n) n) (n + q)) 2.
  exact: (sweep_sum (iota 0 n) (append_zeros_bits n Ha)
            (append_zeros_bits_nth n Hbb) (append_zeros_sum Hsb) (n + q)).
have E3 : nth 0%Z (Crc.sweep (Crc.append_zeros b n) n) (n + q)
          = nth 0%Z (Crc.sweep (Crc.append_zeros a n) n) (n + q).
  by have := congr1 (fun w => nth 0%Z w q) Hcrc; rewrite /= !nth_ft8_crc Hq.
move: E1 Hd; rewrite E2 E3.
by case: Hx => ->; case: Hy => ->; case: Hz => ->.
Qed.

Lemma crc_detects_double_errors_witness :
  Crc.ft8_crc (Crc.flip (Crc.flip (nseq 40 1%Z) 2) 30) 40
  <> Crc.ft8_crc (nseq 40 1%Z) 40 /\
  Crc.flip (Crc.flip (nseq 40 1%Z) 2) 30 <> nseq 40 1%Z.
Proof.
split; last by [].
exact: (@crc_detects_double_errors (nseq 40 1%Z) 2 30 (erefl _) (erefl _)
          (erefl _)).
Defined.

(** ** Which cells of their inputs the functions read *)

Section Reads.
Context {RA : RealArith}.
Variables Nm Mn : seq (seq Z).

Lemma eq_in_foldl T (f g : T -> nat -> T) (s : seq nat) (a : T) :
  (forall x, x \in s -> forall b, f b x = g b x) ->
  foldl f a s = foldl g a s.
Proof.
elim: s a => [|x s IH] a //= H.
rewrite (H x (mem_head _ _)); apply: IH => y Hy.
by apply: H; rewrite inE Hy orbT.
Qed.

Lemma eq_in_mapM R T (f g : nat -> M R T) (s : seq nat) :
  (forall x, x \in s -> f x = g x) -> mapM f s = mapM g s.
Proof.
elim: s => [|x s IH] //= H.
rewrite (H x (mem_head _ _)) IH // => y Hy.
by apply: H; rewrite inE Hy orbT.
Qed.

Lemma eq_run (body body' : state -> M REAL outcome) (n : nat) (st : state) :
  (forall st, body st = body' st) -> run body n st = run body' n st.
Proof.
move=> H; elim: n st => [|n IH] st //=.
by rewrite H; case: (body' st) => [[cw|st'] t] //=; rewrite /bind /= IH.
Qed.

Lemma check_parity_reads (a b : seq Z) (j : nat) :
  (forall ii, ii < 7 -> (tbl Nm j ii <= 174)%Z) ->
  (forall i, i < 174 -> nth 0%Z a i = nth 0%Z b i) ->
  check_parity Nm a j = check_parity Nm b j.
Proof.
move=> Htbl Hab; rewrite /check_parity.
apply: eq_in_foldl => ii; rewrite mem_iota add0n /= => Hii x.
case: Z.leb_spec => // Hlo.
rewrite Hab //; apply/ltP.
by have := Htbl ii Hii; lia.
Qed.

Lemma llr_sum_reads (c c' : seq REAL) (e : matrix) (i : nat)
    (skip : Z -> bool) :
  nth (rlit 0%Q) c i = nth (rlit 0%Q) c' i ->
  llr_sum Mn c e i skip = llr_sum Mn c' e i skip.
Proof. by rewrite /llr_sum => ->. Qed.

Lemma iteration_log_reads (c c' : seq REAL) (st : state) :
  (forall i, i < 174 -> nth (rlit 0%Q) c i = nth (rlit 0%Q) c' i) ->
  iteration_log Nm Mn c st = iteration_log Nm Mn c' st.
Proof.
move=> H; rewrite /iteration_log.
case: (check_update_log _ _ _) => e t.
rewrite /bind; move: (ldpc_check Nm) => check; cbn [fst snd].
have -> : hard_decision_log Mn c e = hard_decision_log Mn c' e.
  rewrite /hard_decision_log; apply/eq_in_map => i.
  by rewrite mem_iota add0n /= => Hi; rewrite (llr_sum_reads _ _ (H i Hi)).
have -> // : var_update_log Mn c e (st_m st) = var_update_log Mn c' e (st_m st).
rewrite /var_update_log; apply: (@eq_in_foldl matrix) => i.
rewrite mem_iota add0n /= => Hi m.
by rewrite !(llr_sum_reads _ _ (H i Hi)).
Qed.

Lemma spread_reads (c c' : seq REAL) :
  (forall i, i < 174 -> nth (rlit 0%Q) c i = nth (rlit 0%Q) c' i) ->
  spread c = spread c'.
Proof.
move=> H; rewrite /spread /mkseq.
apply/eq_in_map => j _; apply/eq_in_map => i.
by rewrite mem_iota add0n /= => /H.
Qed.

End Reads.

(** X17.  [ldpc_check] reads the codeword only where the table sends it:
    when every entry of the 83 x 7 table is at most 174, two words that
    agree on cells 0 .. 173 get the same score, whatever they hold
    beyond. *)
Theorem ldpc_check_reads_174_cells (Nm : seq (seq Z)) (a b : seq Z) :
  (forall j ii, j < 83 -> ii < 7 -> (tbl Nm j ii <= 174)%Z) ->
  (forall i, i < 174 -> nth 0%Z a i = nth 0%Z b i) ->
  ldpc_check Nm a = ldpc_check Nm b.
Proof.
move=> Htbl Hab; rewrite !ldpc_check_count; congr Z.of_nat.
apply: eq_in_count => j; rewrite mem_iota add0n /= => Hj.
by rewrite (check_parity_reads (fun ii Hii => Htbl j ii Hj Hii) Hab).
Qed.

Lemma ldpc_check_reads_174_cells_witness :
  ldpc_check Toy.Nm (nseq 174 1%Z)
  = ldpc_check Toy.Nm (nseq 174 1%Z ++ [:: 5; 7]%Z).
Proof.
apply: ldpc_check_reads_174_cells.
  have Hall : all (fun j => all (fun ii => (tbl Toy.Nm j ii <=? 174)%Z)
                               (iota 0 7)) (iota 0 83).
    by vm_compute.
  move=> j ii Hj Hii; apply/Z.leb_le.
  have Hj' : j \in iota 0 83 by rewrite mem_iota.
  have Hii' : ii \in iota 0 7 by rewrite mem_iota.
  exact: (allP (allP Hall j Hj') ii Hii').
by move=> i Hi; rewrite nth_cat size_nseq Hi.
Defined.

(** X18.  Both decoders read [llcodeword[0 .. 173]] and nothing else of
    their input: two inputs that agree on cells 0 .. 173 give the same
    result, the same word, the same [ok] and the same divisions and
    logarithms on the way. *)
Theorem decoders_read_174_llrs
    (RA : RealArith) (Nm Mn : seq (seq Z)) (llr llr' : seq REAL) (iters : Z)
    (best_cw0 : seq Z) :
  (forall i, i < 174 -> nth (rlit 0%Q) llr i = nth (rlit 0%Q) llr' i) ->
  ldpc_decode Nm Mn llr iters best_cw0
    = ldpc_decode Nm Mn llr' iters best_cw0 /\
  ldpc_decode_log Nm Mn llr iters best_cw0
    = ldpc_decode_log Nm Mn llr' iters best_cw0.
Proof.
move=> H; split.
  rewrite /ldpc_decode.
  have -> // : llr_to_prob llr = llr_to_prob llr'.
  rewrite /llr_to_prob; apply: eq_in_mapM => i.
  by rewrite mem_iota add0n /= => /H ->.
rewrite /ldpc_decode_log (spread_reads H).
exact: (eq_run _ _ (fun st => iteration_log_reads Nm Mn st H)).
Qed.

Lemma decoders_read_174_llrs_witness :
  ldpc_decode Toy.Nm Toy.Mn Toy.llr_noisy 1 [::]
    = ldpc_decode Toy.Nm Toy.Mn (Toy.llr_noisy ++ [:: (99 # 1)%Q]) 1 [::] /\
  ldpc_decode_log Toy.Nm Toy.Mn Toy.llr_noisy 1 [::]
    = ldpc_decode_log Toy.Nm Toy.Mn (Toy.llr_noisy ++ [:: (99 # 1)%Q]) 1 [::].
Proof.
apply: (@decoders_read_174_llrs ExactQ.run_arith) => i Hi.
by rewrite nth_cat size_map size_iota Hi.
Defined.

(** ** Checking a received CRC *)

Section CrcCheck.
Import Crc.

Lemma sweep_with_tail (msg tail : seq Z) (p : nat) :
  all is_bit msg -> all is_bit tail ->
  nth 0%Z (sweep (msg ++ tail) (size msg)) p
  = Z.rem (nth 0%Z (sweep (append_zeros msg (size msg)) (size msg)) p
           + (if size msg <= p then nth 0%Z tail (p - size msg) else 0%Z)) 2.
Proof.
move=> Hmsg Htail.
set n := size msg.
pose d p := if n <= p then nth 0%Z tail (p - n) else 0%Z.
have d_bit q : bit (d q).
  by rewrite /d; case: ifP => _; [exact: all_bits_nth | left].
have d_low q : q < n -> d q = 0%Z by move=> Hq; rewrite /d leqNgt Hq.
have Hrel : offset_by d (append_zeros msg n) (msg ++ tail).
  move=> q; rewrite nth_cat -/n nth_append_zeros /d.
  case: (ltnP q n) => Hq; first by case: (all_bits_nth q Hmsg) => ->.
  by case: (all_bits_nth (q - n) Htail) => ->.
have Hall : all (fun i => i < n) (iota 0 n).
  by apply/allP => i; rewrite mem_iota add0n.
have [Hfin _] := sweep_offset d_bit d_low Hall (append_zeros_bits n Hmsg) Hrel.
exact: (Hfin p).
Qed.

Lemma sweep_beyond (n : nat) (s : seq nat) (b : seq Z) (p : nat) :
  all (fun i => i < n) s -> n + 14 <= p ->
  nth 0%Z (foldl step b s) p = nth 0%Z b p.
Proof.
move=> Hs Hp; elim: s b Hs => [|i s IH] b //= /andP [Hi Hs].
rewrite IH // /step; case: ifP => _ //.
rewrite nth_xor_div.
have -> // : (i <= p) && (p < i + 15) = false.
have Hle : i + 15 <= p.
  by apply: leq_trans Hp; rewrite -addSnnS leq_add2r.
by rewrite [p < _]ltnNge Hle andbF.
Qed.

Lemma step_ext (b b' : seq Z) (i : nat) :
  (forall p, nth 0%Z b p = nth 0%Z b' p) ->
  forall p, nth 0%Z (step b i) p = nth 0%Z (step b' i) p.
Proof.
by move=> H p; rewrite /step H; case: ifP => _ //; rewrite !nth_xor_div !H.
Qed.

Lemma sweep_ext (s : seq nat) (b b' : seq Z) :
  (forall p, nth 0%Z b p = nth 0%Z b' p) ->
  forall p, nth 0%Z (foldl step b s) p = nth 0%Z (foldl step b' s) p.
Proof.
elim: s b b' => [|i s IH] b b' H //=.
by apply: IH; exact: step_ext.
Qed.

End CrcCheck.

(** ** The CRC as a remainder of polynomials over GF(2) *)

Ltac nat_lia := rewrite -?plusE -?minusE; lia.

Section CrcPolynomial.
Import Crc CrcSpec GRing.Theory.
Local Open Scope ring_scope.

Local Notation gf2 := GaussJordan.gf2.

Lemma gf2_zero : gf2 0%Z = 0.
Proof. by []. Qed.

Lemma gf2_rem (x y : Z) :
  bit x -> bit y -> gf2 (Z.rem (x + y) 2) = gf2 x + gf2 y.
Proof.
case=> ->; case=> ->; rewrite /gf2 /=.
- by rewrite addr0.
- by rewrite add0r.
- by rewrite addr0.
- by apply/eqP.
Qed.

Lemma gf2_twice (v : Z) : gf2 v + gf2 v = 0.
Proof. by rewrite /gf2; case: (v =? 0)%Z; [rewrite addr0 | apply/eqP]. Qed.

Lemma coef_cells (n : nat) (b : seq Z) (k : nat) :
  (poly_of_cells n b)`_k = if (k < n)%nat then gf2 (nth 0%Z b (n - k.+1)) else 0.
Proof. by rewrite /poly_of_cells coef_poly. Qed.

(** The array [div] of the source spells out the generator. *)
Lemma generator_cells : generator = poly_of_cells 15 div.
Proof.
apply/polyP => k; rewrite coef_cells /generator !coefD !coefXn coefX coef1.
do 15 (case: k => [|k]; first by rewrite /= ?addr0 ?add0r).
by rewrite /= !addr0.
Qed.


Lemma window_index (L i k : nat) :
  (i + 15 <= L)%nat -> (k < L)%nat ->
  ((i <= L - k.+1) && (L - k.+1 < i + 15))%nat
  = ((L - (i + 15) <= k) && (k < L - (i + 15) + 15))%nat /\
  ((L - (i + 15) <= k)%nat -> (k < L - (i + 15) + 15)%nat ->
   (L - k.+1 - i = 14 - (k - (L - (i + 15))))%nat).
Proof.
move=> /leP H1 /ltP H2; split.
  apply/idP/idP => /andP [/leP A /ltP B]; apply/andP; split;
    (apply/leP || apply/ltP); move: H1 H2 A B; nat_lia.
by move=> /leP A /ltP B; move: H1 H2 A B; nat_lia.
Qed.

Lemma generator_coef (j : nat) :
  generator`_j = if (j < 15)%nat then gf2 (nth 0%Z div (14 - j)) else 0.
Proof. by rewrite generator_cells coef_cells. Qed.

(** Adding [div] in at cell [i] adds a multiple of the generator. *)
Lemma xor_div_poly (L : nat) (b : seq Z) (i : nat) :
  bits b -> (i + 15 <= L)%nat ->
  poly_of_cells L (xor_div b i)
  = poly_of_cells L b + generator * 'X^(L - (i + 15)).
Proof.
move=> Hb Hi; apply/polyP => k.
rewrite coefD coefMXn !coef_cells generator_coef nth_xor_div.
case: (ltnP k L) => Hk; last first.
  have Hm : (L - (i + 15) <= k)%nat by apply: leq_trans Hk; exact: leq_subr.
  rewrite add0r ltnNge Hm /=.
  have -> // : (k - (L - (i + 15)) < 15)%nat = false.
  apply/negbTE; rewrite -leqNgt.
  by move/leP: Hi; move/leP: Hk => Hk Hi; apply/leP; move: Hk Hi; nat_lia.
have [-> E] := window_index Hi Hk.
case: (leqP (L - (i + 15)) k) => Hm /=; last by rewrite addr0.
rewrite ltn_subLR // [(_ + 15)%nat]addnC.
case: (ltnP k (15 + (L - (i + 15)))) => Hk15; last by rewrite addr0.
rewrite (gf2_rem (Hb _) (div_bit _)).
by rewrite E // addnC.
Qed.

Lemma step_poly (L : nat) (b : seq Z) (i : nat) :
  bits b -> (i + 15 <= L)%nat ->
  exists Q, poly_of_cells L (step b i) = poly_of_cells L b + Q * generator.
Proof.
move=> Hb Hi; rewrite /step; case: ifP => _.
- by exists 'X^(L - (i + 15)); rewrite xor_div_poly // mulrC.
- by exists 0; rewrite mul0r addr0.
Qed.

(** The long division changes the buffer by a multiple of the generator. *)
Lemma sweep_poly (L : nat) (s : seq nat) (b : seq Z) :
  bits b -> all (fun i => i + 15 <= L)%nat s ->
  exists Q, poly_of_cells L (foldl step b s)
            = poly_of_cells L b + Q * generator.
Proof.
elim: s b => [|i s IH] b Hb /=; first by exists 0; rewrite mul0r addr0.
case/andP => Hi Hs.
have [Q1 E1] := step_poly Hb Hi.
have [Q2 E2] := IH _ (step_bits i Hb) Hs.
by exists (Q1 + Q2); rewrite E2 E1 mulrDl addrA.
Qed.

(** The long division clears the cells that it has passed. *)
Lemma sweep_clears (b : seq Z) (n p : nat) :
  bits b -> (p < n)%nat -> nth 0%Z (sweep b n) p = 0%Z.
Proof.
move=> Hb; elim: n p => [|n IH] p // Hp.
rewrite /sweep iota_rcons -cats1 foldl_cat /= -/(sweep b n).
have HS := sweep_bits n Hb.
rewrite /step; case: ifP => [Hn|/negbFE /Z.eqb_spec Hn].
  rewrite nth_xor_div.
  move: Hp; rewrite ltnS leq_eqVlt => /orP [/eqP ->|Hp].
    have -> : (n < n + 15)%nat by rewrite -[X in (X < _)%nat]addn0 ltn_add2l.
    rewrite leqnn /= subnn.
    by case: (HS n) Hn => ->.
  by rewrite leqNgt Hp /=; exact: IH.
move: Hp; rewrite ltnS leq_eqVlt => /orP [/eqP ->|Hp] //.
exact: IH.
Qed.


Lemma poly_twice (p : {poly 'F_2}) : p + p = 0.
Proof.
apply/polyP => k; rewrite coefD coef0.
by case: (p`_k) => [[|[|m]]] // Hm; apply/eqP.
Qed.

Lemma size_generator : size generator = 15.
Proof. by rewrite generator_cells /poly_of_cells size_poly_eq. Qed.

(** A message followed by any 14 bits, as a polynomial: the message with
    14 zeros appended, plus the 14 bits. *)
Lemma poly_with_tail (msg tail : seq Z) :
  size tail = 14%nat ->
  poly_of_bits (msg ++ tail)
  = poly_of_cells (size msg + 14) (append_zeros msg (size msg))
    + poly_of_cells 14 tail.
Proof.
move=> Ht; rewrite /poly_of_bits size_cat Ht.
set n := size msg.
apply/polyP => k; rewrite coefD !coef_cells nth_cat nth_append_zeros -/n.
case: (ltnP k 14) => Hk.
  have Hkn : (k < n + 14)%nat by exact: ltn_addl.
  have Hp : (n <= n + 14 - k.+1)%nat by rewrite -addnBA // leq_addr.
  by rewrite Hkn ltnNge Hp /= add0r -addnBA // addKn.
rewrite addr0; case: (ltnP k (n + 14)) => // Hkn.
have -> // : (n + 14 - k.+1 < n)%nat.
by move/leP: Hk; move/ltP: Hkn => A B; apply/ltP; move: A B; nat_lia.
Qed.

(** The 14 cells that [ft8_crc] returns, as a polynomial: what the long
    division leaves in the buffer. *)
Lemma poly_of_crc (msg : seq Z) (n : nat) :
  bits msg ->
  poly_of_cells 14 (ft8_crc msg n)
  = poly_of_cells (n + 14) (sweep (append_zeros msg n) n).
Proof.
move=> Hmsg; apply/polyP => k; rewrite !coef_cells.
have Hb : bits (append_zeros msg n).
  by move=> p; rewrite nth_append_zeros; case: ifP => _ //; left.
case: (ltnP k 14) => Hk.
  rewrite ltn_addl // nth_ft8_crc.
  have -> : (14 - k.+1 < 14)%nat by rewrite ltn_subrL.
  by rewrite addnBA.
case: (ltnP k (n + 14)) => // Hkn.
rewrite sweep_clears //.
by move/leP: Hk; move/ltP: Hkn => A B; apply/ltP; move: A B; nat_lia.
Qed.

(** A message followed by its CRC is a multiple of the generator. *)
Lemma crc_codeword_multiple (msg : seq Z) :
  all is_bit msg ->
  exists Q, poly_of_bits (msg ++ ft8_crc msg (size msg)) = Q * generator.
Proof.
move=> Hmsg.
have Hbits : bits msg by move=> p; exact: all_bits_nth.
set n := size msg.
have Hb : bits (append_zeros msg n).
  by move=> p; rewrite nth_append_zeros; case: ifP => _ //; left.
have Hall : all (fun i => i + 15 <= n + 14)%nat (iota 0 n).
  apply/allP => i; rewrite mem_iota add0n /= => Hi.
  by rewrite -addSnnS leq_add2r.
have [Q HQ] := sweep_poly Hb Hall.
exists Q; rewrite poly_with_tail ?size_map ?size_iota //.
by rewrite poly_of_crc // -/n /sweep HQ addrA poly_twice add0r.
Qed.

(** Two different strings of 14 bits do not differ by a multiple of the
    generator. *)
Lemma short_multiple (t c : seq Z) :
  all is_bit t -> all is_bit c -> size t = 14%nat -> size c = 14%nat ->
  generator %| poly_of_cells 14 t + poly_of_cells 14 c -> t = c.
Proof.
move=> Ht Hc St Sc Hdvd.
have H0 : poly_of_cells 14 t + poly_of_cells 14 c = 0.
  apply/eqP; apply: contraT => Hne.
  have := dvdp_leq Hne Hdvd; rewrite size_generator => Hle.
  have := leq_trans Hle (size_add _ _).
  by rewrite leq_max => /orP [] H; move: (leq_trans H (size_poly _ _)).
apply: (eq_from_nth (x0 := 0%Z)); first by rewrite St Sc.
move=> q; rewrite St => Hq.
have := congr1 (fun p : {poly 'F_2} => p`_(14 - q.+1)) H0.
rewrite /= coefD !coef_cells coef0 ltn_subrL /= subnSK // (subKn (ltnW Hq)).
by case: (all_bits_nth q Ht) => ->; case: (all_bits_nth q Hc) => -> // /eqP.
Qed.


End CrcPolynomial.

(** C5.  For every bit sequence [msg], the polynomial of [msg] followed by
    the 14 bits that [ft8_crc] computes for it leaves the remainder zero
    when divided by the generator x^14 + x^13 + x^10 + x^9 + x^8 + x^6 +
    x^4 + x^2 + x + 1 (0x2757 with its leading 1), the bits of [div]. *)
Theorem crc_division_leaves_no_remainder (msg : seq Z) :
  all Crc.is_bit msg ->
  CrcSpec.remainder (msg ++ Crc.ft8_crc msg (size msg)) = 0%R /\
  CrcSpec.generator = CrcSpec.poly_of_bits Crc.div.
Proof.
move=> Hmsg; split; last exact: generator_cells.
have [Q HQ] := crc_codeword_multiple Hmsg.
by rewrite /CrcSpec.remainder HQ modp_mull.
Qed.

Lemma crc_division_leaves_no_remainder_witness :
  all Crc.is_bit [:: 1; 0; 1; 1; 0; 0; 1]%Z /\
  CrcSpec.remainder ([:: 1; 0; 1; 1; 0; 0; 1]%Z
                     ++ Crc.ft8_crc [:: 1; 0; 1; 1; 0; 0; 1]%Z 7) = 0%R.
Proof.
split; first by [].
exact: (proj1 (@crc_division_leaves_no_remainder [:: 1; 0; 1; 1; 0; 0; 1]%Z
                 (erefl _))).
Defined.

(** X19.  Checking a received CRC by polynomial division: a bit string
    [msg] followed by 14 received bits [tail] leaves the remainder zero
    exactly when [tail] is the CRC that [ft8_crc] computes for [msg]. *)
Theorem crc_check_accepts_only_the_crc (msg tail : seq Z) :
  all Crc.is_bit msg -> all Crc.is_bit tail -> size tail = 14 ->
  (CrcSpec.remainder (msg ++ tail) = 0%R <->
   tail = Crc.ft8_crc msg (size msg)).
Proof.
move=> Hmsg Htail Hs; split; last first.
  move=> ->; have [Q HQ] := crc_codeword_multiple Hmsg.
  by rewrite /CrcSpec.remainder HQ modp_mull.
move=> /modp_eq0P Hdvd.
have H14 : size (Crc.ft8_crc msg (size msg)) = 14.
  by rewrite /Crc.ft8_crc size_map size_iota.
apply: (short_multiple Htail (ft8_crc_bits _ _) Hs H14).
have [Q HQ] := crc_codeword_multiple Hmsg.
have Hcrc : (CrcSpec.generator
             %| CrcSpec.poly_of_bits (msg ++ Crc.ft8_crc msg (size msg)))%R.
  by rewrite HQ dvdp_mulIr.
move: Hdvd Hcrc; rewrite !poly_with_tail // => H1 H2.
have := dvdp_add H1 H2.
rewrite GRing.addrACA poly_twice GRing.add0r.
by [].
Qed.

Lemma crc_check_accepts_only_the_crc_witness :
  all Crc.is_bit [:: 1; 0; 1; 1; 0; 0; 1]%Z /\
  all Crc.is_bit (nseq 14 1%Z) /\
  size (nseq 14 1%Z) = 14 /\
  (CrcSpec.remainder ([:: 1; 0; 1; 1; 0; 0; 1]%Z ++ nseq 14 1%Z) = 0%R <->
   nseq 14 1%Z = Crc.ft8_crc [:: 1; 0; 1; 1; 0; 0; 1]%Z 7).
Proof.
split; first by [].
split; first by [].
split; first by [].
exact: (@crc_check_accepts_only_the_crc [:: 1; 0; 1; 1; 0; 0; 1]%Z
          (nseq 14 1%Z) (erefl _) (erefl _) (erefl _)).
Defined.

(** X20.  The CRC of a message followed by its own CRC is zero: for a bit
    string [msg], [ft8_crc] applied to [msg] extended by the 14 bits of
    [ft8_crc msg] gives 14 zeros. *)
Theorem crc_of_message_with_crc_is_zero (msg : seq Z) :
  all Crc.is_bit msg ->
  Crc.ft8_crc (msg ++ Crc.ft8_crc msg (size msg)) (size msg + 14)
  = nseq 14 0%Z.
Proof.
move=> Hmsg.
set n := size msg.
set crc := Crc.ft8_crc msg n.
have H14 : size crc = 14 by rewrite /crc /Crc.ft8_crc size_map size_iota.
have Hcrc : all Crc.is_bit crc by exact: ft8_crc_bits.
have Hsize : size (msg ++ crc) = n + 14 by rewrite size_cat H14.
set B := Crc.append_zeros (msg ++ crc) (n + 14).
have HB p : nth 0%Z B p = nth 0%Z (msg ++ crc) p.
  rewrite nth_append_zeros; case: ifP => // /negbT; rewrite -leqNgt => Hp.
  by rewrite nth_default // Hsize.
have Hfirst p :
    n <= p -> nth 0%Z (foldl Crc.step B (iota 0 n)) p = 0%Z.
  move=> Hp; rewrite (sweep_ext _ HB) -/(Crc.sweep _ n) sweep_with_tail //.
  rewrite -/n Hp.
  case: (ltnP p (n + 14)) => Hp14.
    have Hq : p - n < 14 by rewrite ltn_subLR.
    have := nth_ft8_crc msg n (p - n); rewrite Hq subnKC // -/crc => <-.
    by case: (all_bits_nth (p - n) Hcrc) => ->.
  have Hall : all (fun i => i < n) (iota 0 n).
    by apply/allP => i; rewrite mem_iota add0n.
  rewrite /Crc.sweep (sweep_beyond _ Hall Hp14) nth_append_zeros.
  rewrite ltnNge Hp /= [nth 0%Z crc _]nth_default //.
  by rewrite H14 leq_subRL.
have Hsecond i : i \in iota n 14 ->
    nth 0%Z (foldl Crc.step B (iota 0 n)) i = 0%Z.
  by rewrite mem_iota => /andP [Hi _]; exact: Hfirst.
rewrite /Crc.ft8_crc -/B /Crc.sweep iotaD add0n foldl_cat.
rewrite (foldl_step_zeros Hsecond).
rewrite -[RHS]/([seq 0%Z | i <- iota 0 14]).
apply/eq_in_map => q _.
by apply: Hfirst; rewrite -addnA leq_addr.
Qed.

Lemma crc_of_message_with_crc_is_zero_witness :
  Crc.ft8_crc ([:: 1; 0; 1; 1; 0; 0; 1]%Z
               ++ Crc.ft8_crc [:: 1; 0; 1; 1; 0; 0; 1]%Z 7) (7 + 14)
  = nseq 14 0%Z.
Proof.
exact: (@crc_of_message_with_crc_is_zero [:: 1; 0; 1; 1; 0; 0; 1]%Z
          (erefl _)).
Defined.
